(** * GRPO loss core of prime-rl ([src/prime_rl/trainer/loss.py])

    A shallow embedding of the loss pipeline: score shifter, selective
    log-probability extractor, entropy estimator, entropy-based token
    selector, the two loss-variant engines, the masked reducer and the
    dispatcher.

    Numeric model.  Tensor elements are real numbers: every arithmetic
    operation of the source is read in exact arithmetic, so rounding,
    overflow, infinities and not-a-number values of the floating-point
    types are outside the model.  The element type of a scores tensor is
    kept as a tag ([dtype]) because the extractor branches on it.

    The selector's rank is [int(percent * numel)]; the product is exact
    here, where the source rounds it to a binary64 value before [int]
    truncates it, so the rank of the source is never below the rank of
    the model and can be above it by one.

    Shapes.  A tensor of rank n is an n-fold nested list, outermost axis
    first.  The [jaxtyped] decorators of the source make every call agree
    on the sizes named [batch], [seq] and [vocab]; here that agreement is
    the hypothesis [has_shape2] / [has_shape3] of the theorems that need
    it, and elementwise operations run over the common prefix.  The
    check itself is modelled where a property depends on it: on the
    arguments of the dispatcher ([grpo_loss]) and on the result of the
    score shifter ([shift_logits_jaxtyped]).

    Errors.  Code that raises returns [Raise e]; code that returns a
    value returns [Ok v]. *)

From Stdlib Require Import String.
From Stdlib Require Import Reals List ZArith Lia Lra Bool.
From Stdlib Require Import Permutation Sorted.
Import ListNotations.
Local Open Scope R_scope.

(* ================================================================== *)
(** * Exceptions and results *)
(* ================================================================== *)

Inductive exn : Type :=
| ValueError (msg : string)
| RuntimeError (msg : string)
| IndexError (msg : string)
| TypeCheckError (msg : string).

Inductive result (A : Type) : Type :=
| Ok (a : A)
| Raise (e : exn).

Arguments Ok {A} a.
Arguments Raise {A} e.

Definition bind {A B : Type} (m : result A) (f : A -> result B) : result B :=
  match m with
  | Ok a => f a
  | Raise e => Raise e
  end.

Notation "x <- m ;; k" := (bind m (fun x => k))
  (at level 61, m at next level, right associativity).

Fixpoint mapM {A B : Type} (f : A -> result B) (l : list A) : result (list B) :=
  match l with
  | [] => Ok []
  | a :: l' => b <- f a ;; bs <- mapM f l' ;; Ok (b :: bs)
  end.

Definition raises {A : Type} (m : result A) : Prop := exists e, m = Raise e.

(* ================================================================== *)
(** * Tensor primitives (the part of torch that loss.py calls) *)
(* ================================================================== *)

Module Torch.

(** Element types admitted by [Float[Tensor, ...]]. *)
Inductive dtype : Type := float16 | bfloat16 | float32 | float64.

(** Tensor types, by rank and element type. *)
Abbreviation tensor1 := (list R) (only parsing).
Abbreviation tensor2 := (list (list R)) (only parsing).
Abbreviation tensor3 := (list (list (list R))) (only parsing).
Abbreviation int_tensor2 := (list (list Z)) (only parsing).
Abbreviation bool_tensor2 := (list (list bool)) (only parsing).

Fixpoint map2 {A B C : Type} (f : A -> B -> C) (l1 : list A) (l2 : list B) : list C :=
  match l1, l2 with
  | a :: l1', b :: l2' => f a b :: map2 f l1' l2'
  | _, _ => []
  end.

Definition has_shape2 {A : Type} (B L : nat) (t : list (list A)) : Prop :=
  length t = B /\ Forall (fun row => length row = L) t.

Definition has_shape3 (B L V : nat) (t : tensor3) : Prop :=
  length t = B /\
  Forall (fun row => length row = L /\ Forall (fun v => length v = V) row) t.

(** Element access with a default, for stating pointwise properties. *)
Definition get2 {A : Type} (d : A) (t : list (list A)) (b s : nat) : A :=
  nth s (nth b t []) d.

Definition get3 (t : tensor3) (b s : nat) : list R :=
  nth s (nth b t []) [].

(** ** Elementwise operations on (batch, seq) tensors *)

Definition t2_map {A B : Type} (f : A -> B) (t : list (list A)) : list (list B) :=
  map (map f) t.

Definition t2_map2 {A B C : Type} (f : A -> B -> C)
    (x : list (list A)) (y : list (list B)) : list (list C) :=
  map2 (map2 f) x y.

Definition t_exp (t : tensor2) : tensor2 := t2_map exp t.
Definition t_neg (t : tensor2) : tensor2 := t2_map Ropp t.
Definition t_sub (x y : tensor2) : tensor2 := t2_map2 Rminus x y.
Definition t_mul (x y : tensor2) : tensor2 := t2_map2 Rmult x y.

(** [torch.clamp(x, lo, hi)] is [min(max(x, lo), hi)]. *)
Definition clamp (x lo hi : R) : R := Rmin (Rmax x lo) hi.
Definition t_clamp (t : tensor2) (lo hi : R) : tensor2 :=
  t2_map (fun x => clamp x lo hi) t.

(** [torch.max(x, y)], elementwise. *)
Definition t_max (x y : tensor2) : tensor2 := t2_map2 Rmax x y.

(** Comparisons give boolean tensors. *)
Definition Rltb (x y : R) : bool := if Rlt_dec x y then true else false.
Definition Rleb (x y : R) : bool := if Rle_dec x y then true else false.

Definition t_lt (x y : tensor2) : bool_tensor2 := t2_map2 Rltb x y.
Definition t_gt_scalar (x : tensor2) (c : R) : bool_tensor2 :=
  t2_map (fun v => Rltb c v) x.
Definition t_ge_scalar (x : tensor2) (c : R) : bool_tensor2 :=
  t2_map (fun v => Rleb c v) x.
Definition t_and (x y : bool_tensor2) : bool_tensor2 := t2_map2 andb x y.

(** [.float()] on a boolean tensor. *)
Definition b2r (b : bool) : R := if b then 1 else 0.
Definition t_float (t : bool_tensor2) : tensor2 := t2_map b2r t.

(** [.bool()] on an integer tensor: nonzero is true. *)
Definition z2b (z : Z) : bool := negb (z =? 0)%Z.
Definition t_bool (t : int_tensor2) : bool_tensor2 := t2_map z2b t.

(** ** Reductions *)

Definition Rsum (v : list R) : R := fold_right Rplus 0 v.

(** [.sum()] over all elements. *)
Definition t_sum (t : tensor2) : R := Rsum (map Rsum t).

(** [.numel()] of a rank-1 tensor. *)
Definition numel (v : list R) : nat := length v.

(** ** Operations along the vocabulary axis *)

Definition logsumexp1 (v : tensor1) : R := ln (Rsum (map exp v)).

Definition softmax1 (v : tensor1) : tensor1 :=
  map (fun x => exp x / Rsum (map exp v)) v.

(** [log_softmax] is a softmax followed by a logarithm. *)
Definition log_softmax1 (v : tensor1) : tensor1 := map ln (softmax1 v).

Definition t3_logsumexp (t : tensor3) : tensor2 := t2_map logsumexp1 t.
Definition t3_softmax (t : tensor3) : tensor3 := t2_map softmax1 t.
Definition t3_log_softmax (t : tensor3) : tensor3 := t2_map log_softmax1 t.
Definition t3_mul (x y : tensor3) : tensor3 := t2_map2 (map2 Rmult) x y.
Definition t3_sum_last (t : tensor3) : tensor2 := t2_map Rsum t.
Definition t3_div_scalar (t : tensor3) (c : R) : tensor3 :=
  t2_map (map (fun x => x / c)) t.

(** ** Gather along the last axis

    [torch.gather(x, dim=-1, index=i.unsqueeze(-1)).squeeze(-1)]: one
    element per position; an index outside [0, vocab) raises. *)

Definition gather1 (v : tensor1) (i : Z) : result R :=
  if ((0 <=? i) && (i <? Z.of_nat (length v)))%Z
  then Ok (nth (Z.to_nat i) v 0)
  else Raise (RuntimeError "index out of bounds").

Definition gather2 (x : list tensor1) (index : list Z) : result (list R) :=
  mapM (fun p => gather1 (fst p) (snd p)) (combine x index).

Definition gather3 (x : tensor3) (index : int_tensor2) : result tensor2 :=
  mapM (fun p => gather2 (fst p) (snd p)) (combine x index).

(** [torch.stack] of a Python list of tensors along a new first axis;
    an empty list has no result. *)
Definition stack {A : Type} (ts : list A) : result (list A) :=
  match ts with
  | [] => Raise (RuntimeError "stack expects a non-empty TensorList")
  | _ :: _ => Ok ts
  end.

(** ** Boolean-mask indexing, minimum and order statistics *)

(** [x[m]] for a boolean tensor [m] of the shape of [x]: the elements at
    true positions, in row-major order. *)
Definition select_row (x : list R) (m : list bool) : list R :=
  map fst (filter snd (combine x m)).

Definition masked_select (x : tensor2) (m : bool_tensor2) : list R :=
  concat (map2 select_row x m).

(** [v.min()]; an empty tensor has no minimum. *)
Definition t_min (v : list R) : result R :=
  match v with
  | [] => Raise (RuntimeError "min(): Expected reduction dim to be specified for input.numel() == 0")
  | x :: l => Ok (fold_right Rmin x l)
  end.

Fixpoint insert_sorted (x : R) (l : list R) : list R :=
  match l with
  | [] => [x]
  | y :: l' => if Rle_dec x y then x :: l else y :: insert_sorted x l'
  end.

Fixpoint sort (l : list R) : list R :=
  match l with
  | [] => []
  | x :: l' => insert_sorted x (sort l')
  end.

(** [torch.kthvalue(v, k).values]: the k-th smallest element, ranks
    counted from 1.  An empty tensor raises IndexError whatever the
    rank; on a non-empty one a rank outside [1, numel] raises
    RuntimeError. *)
Definition kthvalue (v : list R) (k : Z) : result R :=
  match v with
  | [] => Raise (IndexError "kthvalue(): Expected reduction dim 0 to have non-zero size.")
  | _ :: _ =>
      if ((1 <=? k) && (k <=? Z.of_nat (length v)))%Z
      then Ok (nth (Z.to_nat (k - 1)) (sort v) 0)
      else Raise (RuntimeError "kthvalue(): selected number k out of range for dimension 0")
  end.

(** ** Construction *)

(** [torch.zeros(B, 1, V)]. *)
Definition zeros (B V : nat) : tensor3 := repeat [repeat 0 V] B.

(** [torch.cat([x, y], dim=1)]. *)
Definition cat_dim1 (x y : tensor3) : tensor3 := map2 (@app (list R)) x y.

(** [x[:, :-1, :]]. *)
Definition drop_last_dim1 (x : tensor3) : tensor3 := map (@removelast (list R)) x.

End Torch.

Import Torch.

(** Python's [int(x)] on a float: truncation toward zero. *)
Definition py_int (x : R) : Z := if Rle_dec 0 x then Zfloor x else Zceil x.

(* ================================================================== *)
(** * loss.py *)
(* ================================================================== *)

(** A loss mask is an integer tensor on entry; after entropy selection
    the same variable holds the boolean tensor the selector returned.
    In a product with a float tensor an integer entry counts with its
    value and a boolean entry as 1 or 0. *)
Inductive mask : Type :=
| IntMask (m : int_tensor2)
| BoolMask (m : bool_tensor2).

Definition mask_values (m : mask) : tensor2 :=
  match m with
  | IntMask t => t2_map IZR t
  | BoolMask t => t2_map b2r t
  end.

(** [_masked_sum(tensor, mask)]: [(tensor * mask).sum()], for a tensor
    and a mask of one shape, as every call in loss.py passes them.  (On
    two different shapes the source broadcasts or raises; the product
    here runs over the common prefix.) *)
Definition _masked_sum (tensor : tensor2) (mask : mask) : R :=
  t_sum (t_mul tensor (mask_values mask)).

(** The checks of the [jaxtyped] decorator on a tensor annotated
    ["batch seq"] or ["batch seq vocab"], once the three sizes are bound:
    the tensor has exactly these sizes.  A failed check raises
    jaxtyping's TypeCheckError, for an argument before the body runs and
    for the result after it. *)
Definition has_shape2b {A : Type} (B L : nat) (t : list (list A)) : bool :=
  (length t =? B)%nat && forallb (fun row => (length row =? L)%nat) t.

Definition has_shape3b (B L V : nat) (t : tensor3) : bool :=
  (length t =? B)%nat
  && forallb (fun row => (length row =? L)%nat
                         && forallb (fun v => (length v =? V)%nat) row) t.

(** The body of [shift_logits(logits)].  The triple is [logits.shape],
    from which the source reads B and V. *)
Definition shift_logits (shape : nat * nat * nat) (logits : tensor3) : tensor3 :=
  let '(B, _, V) := shape in
  let logits := drop_last_dim1 logits in
  let zeros := zeros B V in
  let logits := cat_dim1 zeros logits in
  logits.

(** [shift_logits] as decorated: the result of the body is checked
    against the return annotation ["batch seq vocab"], with the sizes
    bound by the argument. *)
Definition shift_logits_jaxtyped (shape : nat * nat * nat) (logits : tensor3)
    : result tensor3 :=
  let '(B, L, V) := shape in
  let out := shift_logits shape logits in
  if has_shape3b B L V out then Ok out
  else Raise (TypeCheckError "Type-check error whilst checking the return value of shift_logits").

(** The two branches of [selective_log_softmax]. *)
Definition selective_log_softmax_logsumexp
    (logits : tensor3) (index : int_tensor2) : result tensor2 :=
  selected_logits <- gather3 logits index ;;
  logsumexp_values <- stack (map (fun lg => map logsumexp1 lg) logits) ;;
  let per_token_logps := t_sub selected_logits logsumexp_values in
  Ok per_token_logps.

Definition selective_log_softmax_rowwise
    (logits : tensor3) (index : int_tensor2) : result tensor2 :=
  per_token_logps <-
    mapM (fun p =>
            let row_logits := fst p in
            let row_labels := snd p in
            let row_logps := map log_softmax1 row_logits in
            gather2 row_logps row_labels)
         (combine logits index) ;;
  stack per_token_logps.

(** [selective_log_softmax(logits, index)]; [dt] is [logits.dtype]. *)
Definition selective_log_softmax
    (dt : dtype) (logits : tensor3) (index : int_tensor2) : result tensor2 :=
  match dt with
  | float32 | float64 => selective_log_softmax_logsumexp logits index
  | _ => selective_log_softmax_rowwise logits index
  end.

(** The naive implementation named in the docstring:
    [torch.gather(logits.log_softmax(-1), dim=-1, index=index.unsqueeze(-1)).squeeze(-1)]. *)
Definition naive_log_softmax_gather
    (logits : tensor3) (index : int_tensor2) : result tensor2 :=
  gather3 (t3_log_softmax logits) index.

(** The per-position entropy both [compute_entropy] and
    [highest_entropy_mask] form from their scores:
    [logsumexp(logits, -1) - sum(softmax(logits, -1) * logits, -1)],
    in exact arithmetic and for a non-empty vocabulary axis (on an empty
    one the source gives minus infinity, which is no real number). *)
Definition position_entropy (logits : tensor3) : tensor2 :=
  let pd := t3_softmax logits in
  t_sub (t3_logsumexp logits) (t3_sum_last (t3_mul pd logits)).

(** [compute_entropy(shifted_logits, loss_mask, temperature)]. *)
Definition compute_entropy
    (shifted_logits : tensor3) (loss_mask : int_tensor2) (temperature : R) : R :=
  let shifted_logits := t3_div_scalar shifted_logits temperature in
  let entropy := position_entropy shifted_logits in
  _masked_sum entropy (IntMask loss_mask).

(** [highest_entropy_mask(logits, loss_mask, percent)].  The product
    [percent * numel] is exact (the source rounds it before [int]). *)
Definition highest_entropy_mask
    (logits : tensor3) (loss_mask : int_tensor2) (percent : R) : result bool_tensor2 :=
  let entropy := position_entropy logits in
  let valid_entropy := masked_select entropy (t_bool loss_mask) in
  let k := py_int (percent * INR (numel valid_entropy)) in
  let k := if (k <? 1)%Z then 1%Z else k in
  threshold <-
    (if (k =? Z.of_nat (numel valid_entropy))%Z
     then m <- t_min valid_entropy ;; Ok (m - 1)
     else kthvalue valid_entropy (Z.of_nat (numel valid_entropy) - k + 1)) ;;
  let mask := t_and (t_ge_scalar entropy threshold) (t_bool loss_mask) in
  Ok mask.

(** [grpo_loss_clip]. *)
Definition grpo_loss_clip
    (dt : dtype) (shifted_logits : tensor3) (input_ids : int_tensor2)
    (advantages original_logprobs : tensor2) (loss_mask : int_tensor2)
    (temperature epsilon_low epsilon_high clip_ratio highest_entropy_percentage : R)
    : result (R * R * R) :=
  let shifted_logits := t3_div_scalar shifted_logits temperature in
  per_token_logps <- selective_log_softmax dt shifted_logits input_ids ;;
  let coef_1 := t_clamp (t_exp (t_sub per_token_logps original_logprobs)) 0 clip_ratio in
  let coef_2 := t_clamp coef_1 (1 - epsilon_low) (1 + epsilon_high) in
  let per_token_loss1 := t_mul (t_neg coef_1) advantages in
  let per_token_loss2 := t_mul (t_neg coef_2) advantages in
  let per_token_loss := t_max per_token_loss1 per_token_loss2 in
  let is_clipped := t_float (t_lt per_token_loss1 per_token_loss2) in
  let clipped_token_count := _masked_sum is_clipped (IntMask loss_mask) in
  loss_mask <-
    (if Rlt_dec highest_entropy_percentage 1
     then m <- highest_entropy_mask shifted_logits loss_mask highest_entropy_percentage ;;
          Ok (BoolMask m)
     else Ok (IntMask loss_mask)) ;;
  let loss := _masked_sum per_token_loss loss_mask in
  let ratio := _masked_sum coef_2 loss_mask in
  Ok (loss, ratio, clipped_token_count).

(** [grpo_loss_ratio]. *)
Definition grpo_loss_ratio
    (dt : dtype) (shifted_logits : tensor3) (input_ids : int_tensor2)
    (advantages original_logprobs : tensor2) (loss_mask : int_tensor2)
    (temperature clip_ratio highest_entropy_percentage : R)
    : result (R * R * R) :=
  let shifted_logits := t3_div_scalar shifted_logits temperature in
  per_token_logps <- selective_log_softmax dt shifted_logits input_ids ;;
  let raw_ratio := t_exp (t_sub per_token_logps original_logprobs) in
  let is_clipped := t_float (t_gt_scalar raw_ratio clip_ratio) in
  let clipped_token_count := _masked_sum is_clipped (IntMask loss_mask) in
  let ratio := t_clamp raw_ratio 0 clip_ratio in
  let loss := t_mul (t_neg ratio) advantages in
  loss_mask <-
    (if Rlt_dec highest_entropy_percentage 1
     then m <- highest_entropy_mask shifted_logits loss_mask highest_entropy_percentage ;;
          Ok (BoolMask m)
     else Ok (IntMask loss_mask)) ;;
  let loss := _masked_sum loss loss_mask in
  let ratio := _masked_sum ratio loss_mask in
  Ok (loss, ratio, clipped_token_count).

(** Modelled from the spec: the configuration classes of
    [prime_rl.trainer.config] ([ClippingConfig], [RatioConfig] and the
    union [GRPOVariantsConfig]) are imported by loss.py but not part of
    the sources at hand.  The fields are the ones the dispatcher reads;
    [OtherConfig] stands for any configuration object of another class,
    with the [type] attribute the error message prints and with the
    verdict of the decorator on it: whether the annotation
    [GRPOVariantsConfig] admits the object ([admitted]) is decided by
    the declaration of that union, which is not at hand. *)
Record ClippingConfig : Type := {
  clip_epsilon_low : R;
  clip_epsilon_high : R;
  clip_clip_ratio : R;
  clip_highest_entropy_ratio_loss : R
}.

Record RatioConfig : Type := {
  ratio_clip_ratio : R;
  ratio_highest_entropy_ratio_loss : R
}.

Inductive GRPOVariantsConfig : Type :=
| IsClippingConfig (c : ClippingConfig)
| IsRatioConfig (c : RatioConfig)
| OtherConfig (type : string) (admitted : bool).

Definition annotation_admits (grpo_loss_config : GRPOVariantsConfig) : bool :=
  match grpo_loss_config with
  | IsClippingConfig _ | IsRatioConfig _ => true
  | OtherConfig _ admitted => admitted
  end.

(** The decorator's check of the arguments of [grpo_loss]: the five
    tensors agree on [batch], [seq] and [vocab] (the triple is
    [shifted_logits.shape]) and the configuration is admitted by its
    annotation. *)
Definition grpo_loss_arguments_ok
    (shape : nat * nat * nat) (shifted_logits : tensor3) (input_ids : int_tensor2)
    (advantages original_logprobs : tensor2) (loss_mask : int_tensor2)
    (grpo_loss_config : GRPOVariantsConfig) : bool :=
  let '(B, L, V) := shape in
  has_shape3b B L V shifted_logits
  && has_shape2b B L input_ids
  && has_shape2b B L advantages
  && has_shape2b B L original_logprobs
  && has_shape2b B L loss_mask
  && annotation_admits grpo_loss_config.

(** [grpo_loss]: the dispatcher, as decorated.  The arguments are checked
    first; the body runs only when the check passes. *)
Definition grpo_loss
    (shape : nat * nat * nat)
    (dt : dtype) (shifted_logits : tensor3) (input_ids : int_tensor2)
    (advantages original_logprobs : tensor2) (loss_mask : int_tensor2)
    (temperature : R) (grpo_loss_config : GRPOVariantsConfig)
    : result (R * R * R) :=
  if grpo_loss_arguments_ok shape shifted_logits input_ids advantages
       original_logprobs loss_mask grpo_loss_config
  then
    match grpo_loss_config with
    | IsClippingConfig c =>
        grpo_loss_clip dt shifted_logits input_ids advantages original_logprobs
          loss_mask temperature
          (clip_epsilon_low c) (clip_epsilon_high c) (clip_clip_ratio c)
          (clip_highest_entropy_ratio_loss c)
    | IsRatioConfig c =>
        grpo_loss_ratio dt shifted_logits input_ids advantages original_logprobs
          loss_mask temperature
          (ratio_clip_ratio c) (ratio_highest_entropy_ratio_loss c)
    | OtherConfig type _ =>
        Raise (ValueError ("Invalid grpo_loss_type: " ++ type))
    end
  else Raise (TypeCheckError "Type-check error whilst checking the parameters of grpo_loss").

(** [compute_logprobs(model, input_ids, position_ids, temperature)].

    The model's forward pass ([prime_rl.trainer.model.forward]) is not
    part of the sources at hand: it is a parameter, an arbitrary function
    from the model and the two id tensors to a scores tensor, given with
    the element type and the shape the tensor object carries. *)
Record scores_tensor : Type := {
  scores_dtype : dtype;
  scores_shape : nat * nat * nat;
  scores_data : tensor3
}.

Section ComputeLogprobs.
Variable Model : Type.
Variable forward : Model -> int_tensor2 -> int_tensor2 -> scores_tensor.

Definition compute_logprobs (model : Model) (input_ids position_ids : int_tensor2)
    (temperature : R) : result tensor2 :=
  let logits := forward model input_ids position_ids in
  shifted_logits <- shift_logits_jaxtyped (scores_shape logits) (scores_data logits) ;;
  let shifted_logits := t3_div_scalar shifted_logits temperature in
  let logprobs := selective_log_softmax (scores_dtype logits) shifted_logits input_ids in
  logprobs.
End ComputeLogprobs.

(* ================================================================== *)
(** * Notions used to state the properties *)
(* ================================================================== *)

(** Number of true positions of a boolean mask, and of valid (nonzero)
    positions of a loss mask. *)
Definition count_true (m : bool_tensor2) : nat :=
  length (filter (fun b : bool => b) (concat m)).

Definition valid_count (loss_mask : int_tensor2) : nat :=
  count_true (t_bool loss_mask).

(** Every selected position is a valid position of the loss mask. *)
Definition mask_subset (m : bool_tensor2) (loss_mask : int_tensor2) : Prop :=
  forall b s, get2 false m b s = true -> get2 0%Z loss_mask b s <> 0%Z.

Definition ids_in_range (V : nat) (index : int_tensor2) : Prop :=
  Forall (Forall (fun i => (0 <= i < Z.of_nat V)%Z)) index.

Definition all_entries (P : R -> Prop) (t : tensor2) : Prop :=
  Forall (Forall P) t.

(** The entropy formula at one position: [logsumexp(v) - sum(softmax(v) * v)]. *)
Definition entropy1 (v : tensor1) : R :=
  logsumexp1 v - Rsum (map2 Rmult (softmax1 v) v).

(** The part of [highest_entropy_mask] after the entropy is formed: the
    rank threshold over the valid entropies and the final mask. *)
Definition select_top (entropy : tensor2) (loss_mask : int_tensor2) (percent : R)
    : result bool_tensor2 :=
  let valid_entropy := masked_select entropy (t_bool loss_mask) in
  let k := py_int (percent * INR (numel valid_entropy)) in
  let k := if (k <? 1)%Z then 1%Z else k in
  threshold <-
    (if (k =? Z.of_nat (numel valid_entropy))%Z
     then m <- t_min valid_entropy ;; Ok (m - 1)
     else kthvalue valid_entropy (Z.of_nat (numel valid_entropy) - k + 1)) ;;
  Ok (t_and (t_ge_scalar entropy threshold) (t_bool loss_mask)).

(** The rank [highest_entropy_mask] computes from the percentage and the
    number of valid positions: [int(percent * numel)], raised to 1. *)
Definition selector_rank (percent : R) (n : nat) : Z :=
  let k := py_int (percent * INR n) in
  if (k <? 1)%Z then 1%Z else k.

(** The part of [highest_entropy_mask] after the rank [k] is computed:
    the threshold for that rank over the valid entropies and the final
    mask. *)
Definition select_rank (entropy : tensor2) (loss_mask : int_tensor2) (k : Z)
    : result bool_tensor2 :=
  let valid_entropy := masked_select entropy (t_bool loss_mask) in
  threshold <-
    (if (k =? Z.of_nat (numel valid_entropy))%Z
     then m <- t_min valid_entropy ;; Ok (m - 1)
     else kthvalue valid_entropy (Z.of_nat (numel valid_entropy) - k + 1)) ;;
  let mask := t_and (t_ge_scalar entropy threshold) (t_bool loss_mask) in
  Ok mask.

(** Tensor sum, scaling and per-position offsets, used to state how the
    reducer and the extractor respond to them. *)
Definition t_add (x y : tensor2) : tensor2 := t2_map2 Rplus x y.
Definition t_scale (c : R) (x : tensor2) : tensor2 := t2_map (Rmult c) x.
Definition t3_offset (logits : tensor3) (offsets : tensor2) : tensor3 :=
  t2_map2 (fun v c => map (fun x => x + c) v) logits offsets.

(** All entries of an integer mask are 0 or 1. *)
Definition binary_mask (m : int_tensor2) : Prop :=
  Forall (Forall (fun z => z = 0%Z \/ z = 1%Z)) m.

(** The log-probability of token [i] under the scores [v]: the selected
    score minus the logsumexp of the vector. *)
Definition token_logprob (v : tensor1) (i : Z) : R :=
  nth (Z.to_nat i) v 0 - logsumexp1 v.

(** A forward pass used in concrete runs of [compute_logprobs]: it
    returns the same float32 scores of shape (1, 2, 2) for every input. *)
Definition example_forward (model : unit) (input_ids position_ids : int_tensor2)
    : scores_tensor :=
  {| scores_dtype := float32;
     scores_shape := (1, 2, 2)%nat;
     scores_data := [[[1; 2]; [0; 3]]] |}.

(** [r] is a nearest integer of [x] (whatever the rule for ties). *)
Definition is_round (x : R) (r : Z) : Prop := Rabs (IZR r - x) <= / 2.

(** Scores used in concrete runs of the selector: one batch row, two
    positions, three vocabulary entries; the softmax weights are
    proportional to (1, 4, 4) and (2, 2, 5). *)
Definition example_scores : tensor3 :=
  [[[0; ln 4; ln 4]; [ln 2; ln 2; ln 5]]].

Definition example_mask : int_tensor2 := [[1%Z; 1%Z]].

(** The local tensors of [grpo_loss_clip], as functions of the extracted
    log-probabilities. *)
Section ClipLocals.
Variables per_token_logps original_logprobs advantages : tensor2.
Variables epsilon_low epsilon_high clip_ratio : R.

Definition clip_coef_1 : tensor2 :=
  t_clamp (t_exp (t_sub per_token_logps original_logprobs)) 0 clip_ratio.
Definition clip_coef_2 : tensor2 :=
  t_clamp clip_coef_1 (1 - epsilon_low) (1 + epsilon_high).
Definition clip_per_token_loss1 : tensor2 := t_mul (t_neg clip_coef_1) advantages.
Definition clip_per_token_loss2 : tensor2 := t_mul (t_neg clip_coef_2) advantages.
Definition clip_per_token_loss : tensor2 :=
  t_max clip_per_token_loss1 clip_per_token_loss2.
Definition clip_is_clipped : tensor2 :=
  t_float (t_lt clip_per_token_loss1 clip_per_token_loss2).
End ClipLocals.

(** The local tensors of [grpo_loss_ratio]. *)
Section RatioLocals.
Variables per_token_logps original_logprobs advantages : tensor2.
Variable clip_ratio : R.

Definition ratio_raw_ratio : tensor2 :=
  t_exp (t_sub per_token_logps original_logprobs).
Definition ratio_is_clipped : tensor2 :=
  t_float (t_gt_scalar ratio_raw_ratio clip_ratio).
Definition ratio_ratio : tensor2 := t_clamp ratio_raw_ratio 0 clip_ratio.
Definition ratio_loss : tensor2 := t_mul (t_neg ratio_ratio) advantages.
End RatioLocals.

(** The five tensor arguments of the dispatcher and of the engines agree
    on [batch], [seq] and [vocab]. *)
Definition engine_shapes (B L V : nat) (shifted_logits : tensor3)
    (input_ids : int_tensor2) (advantages original_logprobs : tensor2)
    (loss_mask : int_tensor2) : Prop :=
  has_shape3 B L V shifted_logits /\ has_shape2 B L input_ids
  /\ has_shape2 B L advantages /\ has_shape2 B L original_logprobs
  /\ has_shape2 B L loss_mask.

(** The mask both engines reduce over: narrowed by the selector when the
    percentage is below 1, the loss mask itself otherwise. *)
Definition final_mask (scaled_logits : tensor3) (loss_mask : int_tensor2)
    (highest_entropy_percentage : R) : result mask :=
  if Rlt_dec highest_entropy_percentage 1
  then m <- highest_entropy_mask scaled_logits loss_mask highest_entropy_percentage ;;
       Ok (BoolMask m)
  else Ok (IntMask loss_mask).

(* ================================================================== *)
(** * General lemmas on lists and results *)
(* ================================================================== *)

Lemma map2_length {A B C : Type} (f : A -> B -> C) (l1 : list A) (l2 : list B) :
  length (map2 f l1 l2) = Nat.min (length l1) (length l2).
Proof.
  revert l2; induction l1 as [|a l1 IH]; intros [|b l2]; simpl; auto.
Qed.

Lemma map2_nth {A B C : Type} (f : A -> B -> C) (l1 : list A) (l2 : list B)
    (n : nat) (da : A) (db : B) (dc : C) :
  (n < length l1)%nat -> (n < length l2)%nat ->
  nth n (map2 f l1 l2) dc = f (nth n l1 da) (nth n l2 db).
Proof.
  revert l2 n; induction l1 as [|a l1 IH]; intros [|b l2] [|n]; simpl; intros; try lia; auto.
  apply IH; lia.
Qed.


Lemma map2_repeat_l {A B C : Type} (f : A -> B -> C) (a : A) (l : list B) :
  map2 f (repeat a (length l)) l = map (f a) l.
Proof. induction l as [|b l IH]; simpl; auto. now rewrite IH. Qed.


Lemma bind_inv {A B : Type} (m : result A) (f : A -> result B) (b : B) :
  (x <- m ;; f x) = Ok b -> exists a, m = Ok a /\ f a = Ok b.
Proof. destruct m as [a|e]; simpl; intros H; [eauto | discriminate]. Qed.

Lemma has_shape2_nth {A : Type} (B L : nat) (t : list (list A)) (b : nat) :
  has_shape2 B L t -> (b < B)%nat -> length (nth b t []) = L.
Proof.
  intros [Hl Hr] Hb. rewrite Forall_forall in Hr. apply Hr, nth_In. lia.
Qed.

Lemma get2_t2_map {A B : Type} (f : A -> B) (t : list (list A)) (da : A) (b s : nat) :
  (b < length t)%nat -> (s < length (nth b t []))%nat ->
  get2 (f da) (t2_map f t) b s = f (get2 da t b s).
Proof.
  intros Hb Hs. unfold get2, t2_map.
  change (@nil B) with (map f []). rewrite map_nth. apply map_nth.
Qed.

Lemma get2_t2_map2 {A B C : Type} (f : A -> B -> C)
    (x : list (list A)) (y : list (list B)) (da : A) (db : B) (dc : C) (N M b s : nat) :
  has_shape2 N M x -> has_shape2 N M y -> (b < N)%nat -> (s < M)%nat ->
  get2 dc (t2_map2 f x y) b s = f (get2 da x b s) (get2 db y b s).
Proof.
  intros Hx Hy Hb Hs. unfold get2, t2_map2.
  pose proof (has_shape2_nth _ _ _ _ Hx Hb) as Lx.
  pose proof (has_shape2_nth _ _ _ _ Hy Hb) as Ly.
  destruct Hx as [Hx _], Hy as [Hy _].
  rewrite (map2_nth (map2 f) x y b [] [] []) by lia.
  apply map2_nth; lia.
Qed.

Lemma get2_map {A B : Type} (f : A -> B) (t : list (list A)) (da : A) (dc : B)
    (N M b s : nat) :
  has_shape2 N M t -> (b < N)%nat -> (s < M)%nat ->
  get2 dc (t2_map f t) b s = f (get2 da t b s).
Proof.
  intros Ht Hb Hs. pose proof (has_shape2_nth _ _ _ _ Ht Hb) as Lt.
  destruct Ht as [Hl _]. rewrite <- (get2_t2_map f t da b s) by lia.
  unfold get2, t2_map. apply nth_indep.
  rewrite (nth_indep _ [] (map f [])) by (rewrite length_map; lia).
  rewrite map_nth, length_map. lia.
Qed.

Lemma has_shape2_t2_map {A B : Type} (f : A -> B) (t : list (list A)) (N M : nat) :
  has_shape2 N M t -> has_shape2 N M (t2_map f t).
Proof.
  intros [Hl Hr]. split; unfold t2_map.
  - now rewrite length_map.
  - rewrite Forall_map. eapply Forall_impl; [|exact Hr].
    intros row H. now rewrite length_map.
Qed.

Lemma has_shape2_t2_map2 {A B C : Type} (f : A -> B -> C)
    (x : list (list A)) (y : list (list B)) (N M : nat) :
  has_shape2 N M x -> has_shape2 N M y -> has_shape2 N M (t2_map2 f x y).
Proof.
  unfold has_shape2, t2_map2. revert y N.
  induction x as [|r x IH]; intros [|r' y] N [Hx Fx] [Hy Fy]; simpl in *; subst;
    try discriminate; try (split; [reflexivity | constructor]).
  inversion Fx; inversion Fy; subst.
  destruct (IH y (length x)) as [Hl Hf]; [split; auto | split; auto; lia |].
  split; [now rewrite Hl | constructor; auto].
  rewrite map2_length. lia.
Qed.

(* ================================================================== *)
(** * The shape checks of the decorator *)
(* ================================================================== *)

Lemma has_shape2b_spec {A : Type} (B L : nat) (t : list (list A)) :
  has_shape2b B L t = true <-> has_shape2 B L t.
Proof.
  unfold has_shape2b, has_shape2.
  rewrite andb_true_iff, Nat.eqb_eq, forallb_forall, Forall_forall.
  split; intros [H1 H2]; (split; [exact H1|]); intros row Hrow;
    apply Nat.eqb_eq, H2, Hrow.
Qed.

Lemma has_shape3b_spec (B L V : nat) (t : tensor3) :
  has_shape3b B L V t = true <-> has_shape3 B L V t.
Proof.
  unfold has_shape3b, has_shape3.
  rewrite andb_true_iff, Nat.eqb_eq, forallb_forall, Forall_forall.
  split; intros [H1 H2]; (split; [exact H1|]); intros row Hrow;
    specialize (H2 row Hrow).
  - apply andb_true_iff in H2. destruct H2 as [Hl Hv].
    apply Nat.eqb_eq in Hl. rewrite forallb_forall in Hv.
    split; [exact Hl|]. apply Forall_forall. intros v Hin.
    apply Nat.eqb_eq, Hv, Hin.
  - destruct H2 as [Hl Hv]. rewrite Forall_forall in Hv.
    apply andb_true_iff. split; [now apply Nat.eqb_eq|].
    apply forallb_forall. intros v Hin. apply Nat.eqb_eq, Hv, Hin.
Qed.

Lemma grpo_loss_arguments_ok_spec (B L V : nat) (shifted_logits : tensor3)
    (input_ids : int_tensor2) (advantages original_logprobs : tensor2)
    (loss_mask : int_tensor2) (cfg : GRPOVariantsConfig) :
  grpo_loss_arguments_ok (B, L, V) shifted_logits input_ids advantages
    original_logprobs loss_mask cfg = true
  <-> engine_shapes B L V shifted_logits input_ids advantages original_logprobs
        loss_mask
      /\ annotation_admits cfg = true.
Proof.
  unfold grpo_loss_arguments_ok, engine_shapes.
  rewrite !andb_true_iff, has_shape3b_spec, !has_shape2b_spec. tauto.
Qed.

(* ================================================================== *)
(** * Score shifter *)
(* ================================================================== *)

Lemma shift_logits_rows (B L V : nat) (logits : tensor3) :
  length logits = B ->
  shift_logits (B, L, V) logits = map (fun row => repeat 0 V :: removelast row) logits.
Proof.
  intros HB. unfold shift_logits, cat_dim1, zeros, drop_last_dim1.
  rewrite <- HB, <- (length_map (@removelast (list R)) logits).
  rewrite map2_repeat_l, map_map. reflexivity.
Qed.

Lemma nth_removelast {A : Type} (l : list A) (n : nat) (d : A) :
  (S n < length l)%nat -> nth n (removelast l) d = nth n l d.
Proof.
  revert n; induction l as [|a l IH]; intros n H; simpl in *; [lia|].
  destruct l as [|a' l]; simpl in *; [lia|].
  destruct n as [|n]; [reflexivity|]. apply IH. simpl; lia.
Qed.

Lemma length_removelast {A : Type} (l : list A) :
  length (removelast l) = (length l - 1)%nat.
Proof.
  induction l as [|a l IH]; simpl; [reflexivity|].
  destruct l as [|a' l]; simpl in *; [reflexivity | lia].
Qed.

Lemma Forall_removelast {A : Type} (P : A -> Prop) (l : list A) :
  Forall P l -> Forall P (removelast l).
Proof.
  induction l as [|a l IH]; intros H; simpl; [constructor|].
  inversion H; subst. destruct l; [constructor | constructor; auto].
Qed.

Lemma has_shape3_shifted (B L V : nat) (logits : tensor3) :
  has_shape3 B L V logits -> (1 <= L)%nat ->
  has_shape3 B L V (map (fun row => repeat 0 V :: removelast row) logits).
Proof.
  intros [HB HF] HL.
  split; [now rewrite length_map|].
  rewrite Forall_map. eapply Forall_impl; [|exact HF].
  intros row [Hlen Hv]. simpl. split.
  - rewrite length_removelast. lia.
  - constructor; [apply repeat_length | now apply Forall_removelast].
Qed.

Lemma shift_logits_jaxtyped_returns (B L V : nat) (logits : tensor3) :
  has_shape3 B L V logits -> (1 <= L)%nat ->
  shift_logits_jaxtyped (B, L, V) logits = Ok (shift_logits (B, L, V) logits).
Proof.
  intros Hshape HL. pose proof Hshape as [HB _].
  pose proof (has_shape3_shifted B L V logits Hshape HL) as Hout.
  unfold shift_logits_jaxtyped.
  rewrite (shift_logits_rows B L V logits HB).
  now rewrite (proj2 (has_shape3b_spec B L V _) Hout).
Qed.

(** C4: for scores of shape (batch, seq, vocab), a sequence having at
    least one position, the decorated [shift_logits] returns (its return
    annotation is met): the result has the same shape, its position 0
    is the all-zero vector and its position i > 0 is input position
    i-1, so the last input position is dropped. *)
Theorem shift_logits_correct (B L V : nat) (logits : tensor3) :
  has_shape3 B L V logits -> (1 <= L)%nat ->
  shift_logits_jaxtyped (B, L, V) logits = Ok (shift_logits (B, L, V) logits)
  /\ has_shape3 B L V (shift_logits (B, L, V) logits)
  /\ (forall b, (b < B)%nat ->
        get3 (shift_logits (B, L, V) logits) b 0 = repeat 0 V)
  /\ (forall b i, (b < B)%nat -> (0 < i < L)%nat ->
        get3 (shift_logits (B, L, V) logits) b i = get3 logits b (i - 1)).
Proof.
  intros Hshape HL. pose proof Hshape as [HB HF].
  pose proof (has_shape3_shifted B L V logits Hshape HL) as Hout.
  rewrite (shift_logits_jaxtyped_returns B L V logits Hshape HL).
  rewrite (shift_logits_rows B L V logits HB).
  split; [|split; [|split]].
  - reflexivity.
  - exact Hout.
  - intros b Hb. unfold get3.
    rewrite (nth_indep _ [] (repeat 0 V :: removelast []))
      by (rewrite length_map; lia).
    rewrite (map_nth (fun row => repeat 0 V :: removelast row)). reflexivity.
  - intros b i Hb Hi. unfold get3.
    rewrite (nth_indep _ [] (repeat 0 V :: removelast []))
      by (rewrite length_map; lia).
    rewrite (map_nth (fun row => repeat 0 V :: removelast row)).
    destruct i as [|i]; [lia|]. simpl. rewrite Nat.sub_0_r.
    apply nth_removelast.
    rewrite Forall_forall in HF.
    destruct (HF (nth b logits [])) as [Hlen _]; [apply nth_In; lia | lia].
Qed.

Lemma shift_logits_correct_witness :
  has_shape3 1 2 1 [[[1]; [2]]] /\ (1 <= 2)%nat
  /\ get3 (shift_logits (1, 2, 1)%nat [[[1]; [2]]]) 0 1 = [1].
Proof.
  assert (H : has_shape3 1 2 1 [[[1]; [2]]]).
  { split; [reflexivity|]. repeat constructor. }
  split; [exact H | split; [lia|]].
  destruct (shift_logits_correct 1 2 1 [[[1]; [2]]] H) as (_ & _ & _ & Hi); [lia|].
  apply (Hi 0%nat 1%nat); lia.
Defined.

(** On scores without a position (seq = 0, batch >= 1) the slice [:-1]
    of the empty axis is empty and the zero position is still
    prepended: the body builds one position where the input has none,
    the return annotation is not met and the decorated function
    raises. *)
Lemma shift_logits_jaxtyped_no_position (B V : nat) (logits : tensor3) :
  has_shape3 B 0 V logits -> (1 <= B)%nat ->
  raises (shift_logits_jaxtyped (B, 0%nat, V) logits).
Proof.
  intros [HB HF] H1. unfold shift_logits_jaxtyped.
  rewrite (shift_logits_rows B 0 V logits HB).
  destruct (has_shape3b B 0 V _) eqn:E; [|eexists; reflexivity].
  apply has_shape3b_spec in E. destruct E as [_ E].
  destruct logits as [|row rest]; [simpl in HB; lia|].
  simpl in E. inversion E as [|x l [Hlen _] _]; subst. discriminate.
Qed.

(* ================================================================== *)
(** * Dispatcher *)
(* ================================================================== *)

(** C6: a configuration that is neither a clip-policy nor a ratio-policy
    configuration makes [grpo_loss] raise before any tensor computation,
    for all tensors: when the decorator admits the arguments the body
    raises [ValueError] naming the configuration's type, and otherwise
    the decorator has raised its type-check error; no result of an
    engine and no error of an engine comes back (on well-shaped tensors
    with a token id out of range both engines raise RuntimeError, the
    dispatcher still ValueError).  On tensors that agree on batch, seq
    and vocab a clip-policy configuration is routed to [grpo_loss_clip]
    and a ratio-policy configuration to [grpo_loss_ratio], each with the
    hyperparameters of that configuration; on tensors that do not agree
    the decorator raises for every configuration. *)
Theorem grpo_loss_dispatch
    (B L V : nat) (dt : dtype) (shifted_logits : tensor3) (input_ids : int_tensor2)
    (advantages original_logprobs : tensor2) (loss_mask : int_tensor2)
    (temperature : R) :
  (engine_shapes B L V shifted_logits input_ids advantages original_logprobs
     loss_mask ->
   (forall type,
      grpo_loss (B, L, V) dt shifted_logits input_ids advantages
        original_logprobs loss_mask temperature (OtherConfig type true)
      = Raise (ValueError ("Invalid grpo_loss_type: " ++ type)))
   /\ (forall c,
      grpo_loss (B, L, V) dt shifted_logits input_ids advantages
        original_logprobs loss_mask temperature (IsClippingConfig c)
      = grpo_loss_clip dt shifted_logits input_ids advantages original_logprobs
          loss_mask temperature (clip_epsilon_low c) (clip_epsilon_high c)
          (clip_clip_ratio c) (clip_highest_entropy_ratio_loss c))
   /\ (forall c,
      grpo_loss (B, L, V) dt shifted_logits input_ids advantages
        original_logprobs loss_mask temperature (IsRatioConfig c)
      = grpo_loss_ratio dt shifted_logits input_ids advantages original_logprobs
          loss_mask temperature (ratio_clip_ratio c)
          (ratio_highest_entropy_ratio_loss c)))
  /\ (forall type admitted,
      exists e,
        grpo_loss (B, L, V) dt shifted_logits input_ids advantages
          original_logprobs loss_mask temperature (OtherConfig type admitted)
        = Raise e
        /\ (e = ValueError ("Invalid grpo_loss_type: " ++ type)
            \/ exists msg, e = TypeCheckError msg))
  /\ (forall type,
      exists msg,
        grpo_loss (B, L, V) dt shifted_logits input_ids advantages
          original_logprobs loss_mask temperature (OtherConfig type false)
        = Raise (TypeCheckError msg))
  /\ (~ engine_shapes B L V shifted_logits input_ids advantages
         original_logprobs loss_mask ->
      forall cfg, exists msg,
        grpo_loss (B, L, V) dt shifted_logits input_ids advantages
          original_logprobs loss_mask temperature cfg
        = Raise (TypeCheckError msg))
  /\ (forall type epsilon_low epsilon_high clip_ratio p,
      grpo_loss (1, 1, 1)%nat dt [[[0]]] [[5%Z]] [[0]] [[0]] [[1%Z]] temperature
        (OtherConfig type true)
      = Raise (ValueError ("Invalid grpo_loss_type: " ++ type))
      /\ grpo_loss_clip dt [[[0]]] [[5%Z]] [[0]] [[0]] [[1%Z]] temperature
           epsilon_low epsilon_high clip_ratio p
         = Raise (RuntimeError "index out of bounds")
      /\ grpo_loss_ratio dt [[[0]]] [[5%Z]] [[0]] [[0]] [[1%Z]] temperature
           clip_ratio p
         = Raise (RuntimeError "index out of bounds")).
Proof.
  split; [|split; [|split; [|split]]].
  - intros Hs.
    assert (Hok : forall cfg, annotation_admits cfg = true ->
              grpo_loss_arguments_ok (B, L, V) shifted_logits input_ids advantages
                original_logprobs loss_mask cfg = true).
    { intros cfg Hc. apply grpo_loss_arguments_ok_spec. now split. }
    split; [|split]; intros x; unfold grpo_loss; now rewrite Hok.
  - intros type admitted. unfold grpo_loss.
    destruct (grpo_loss_arguments_ok _ _ _ _ _ _ _);
      eexists; (split; [reflexivity|]); [left; reflexivity | right; eexists; reflexivity].
  - intros type. unfold grpo_loss.
    destruct (grpo_loss_arguments_ok _ _ _ _ _ _ _) eqn:E; [|eexists; reflexivity].
    apply grpo_loss_arguments_ok_spec in E. destruct E as [_ E]. discriminate.
  - intros Hn cfg. unfold grpo_loss.
    destruct (grpo_loss_arguments_ok _ _ _ _ _ _ _) eqn:E; [|eexists; reflexivity].
    apply grpo_loss_arguments_ok_spec in E. tauto.
  - intros type epsilon_low epsilon_high clip_ratio p.
    split; [reflexivity|]. destruct dt; split; reflexivity.
Qed.

Lemma grpo_loss_dispatch_witness :
  engine_shapes 1 1 1 [[[0]]] [[0%Z]] [[1]] [[0]] [[1%Z]]
  /\ grpo_loss (1, 1, 1)%nat float32 [[[0]]] [[0%Z]] [[1]] [[0]] [[1%Z]] 1
       (OtherConfig "dpo" true)
     = Raise (ValueError "Invalid grpo_loss_type: dpo")
  /\ grpo_loss (1, 1, 1)%nat float32 [[[0]]] [[0%Z]] [[1]] [[0]] [[1%Z]] 1
       (IsRatioConfig {| ratio_clip_ratio := 5;
                         ratio_highest_entropy_ratio_loss := 1 |})
     = grpo_loss_ratio float32 [[[0]]] [[0%Z]] [[1]] [[0]] [[1%Z]] 1 5 1.
Proof.
  assert (Hs : engine_shapes 1 1 1 [[[0]]] [[0%Z]] [[1]] [[0]] [[1%Z]]).
  { unfold engine_shapes, has_shape3, has_shape2.
    repeat split; repeat constructor. }
  destruct (grpo_loss_dispatch 1 1 1 float32 [[[0]]] [[0%Z]] [[1]] [[0]] [[1%Z]] 1)
    as [Hd _].
  destruct (Hd Hs) as (Ho & _ & Hr).
  split; [exact Hs | split].
  - exact (Ho "dpo"%string).
  - exact (Hr {| ratio_clip_ratio := 5; ratio_highest_entropy_ratio_loss := 1 |}).
Defined.

(* ================================================================== *)
(** * Exponentials, logsumexp and softmax *)
(* ================================================================== *)

Lemma ln_le (x y : R) : 0 < x -> x <= y -> ln x <= ln y.
Proof.
  intros Hx [Hlt | ->]; [left; now apply ln_increasing | right; reflexivity].
Qed.

Lemma Rsum_exp_nonneg (v : list R) : 0 <= Rsum (map exp v).
Proof.
  induction v as [|x v IH]; simpl; [lra|].
  pose proof (exp_pos x). lra.
Qed.

Lemma Rsum_exp_pos (v : list R) : v <> [] -> 0 < Rsum (map exp v).
Proof.
  destruct v as [|x v]; [congruence|]. intros _. simpl.
  pose proof (exp_pos x). pose proof (Rsum_exp_nonneg v). lra.
Qed.

Lemma exp_le_Rsum (v : list R) (x : R) : In x v -> exp x <= Rsum (map exp v).
Proof.
  induction v as [|y v IH]; simpl; [tauto|].
  intros [-> | Hin].
  - pose proof (Rsum_exp_nonneg v). lra.
  - pose proof (exp_pos y). specialize (IH Hin). lra.
Qed.

Lemma le_logsumexp1 (v : list R) (x : R) : In x v -> x <= logsumexp1 v.
Proof.
  intros Hin. unfold logsumexp1. rewrite <- (ln_exp x) at 1.
  apply ln_le; [apply exp_pos | now apply exp_le_Rsum].
Qed.

(** One entry of [log_softmax]: the logarithm of the softmax entry is
    the score minus the logsumexp of its row. *)
Lemma ln_softmax_entry (v : list R) (x : R) :
  In x v -> ln (exp x / Rsum (map exp v)) = x - logsumexp1 v.
Proof.
  intros Hin. unfold logsumexp1, Rdiv.
  assert (HS : 0 < Rsum (map exp v)).
  { apply Rsum_exp_pos. intros ->. exact Hin. }
  rewrite ln_mult; [| apply exp_pos | now apply Rinv_0_lt_compat].
  rewrite ln_exp, ln_Rinv by exact HS. lra.
Qed.

Lemma weighted_scores_bound (S M : R) (l : list R) :
  0 < S -> (forall x, In x l -> x <= M) ->
  Rsum (map2 Rmult (map (fun x => exp x / S) l) l) <= M * (Rsum (map exp l) / S).
Proof.
  intros HS. induction l as [|a l IH]; intros HM; simpl.
  - unfold Rdiv. lra.
  - assert (Ha : a <= M) by (apply HM; now left).
    assert (IH' := IH (fun x Hx => HM x (or_intror Hx))).
    assert (Hw : 0 < exp a / S).
    { apply Rdiv_lt_0_compat; [apply exp_pos | exact HS]. }
    assert (Hstep : exp a / S * a <= M * (exp a / S)) by nra.
    unfold Rdiv in *. rewrite Rmult_plus_distr_r, Rmult_plus_distr_l. lra.
Qed.

Lemma entropy1_nonneg (v : list R) : v <> [] -> 0 <= entropy1 v.
Proof.
  intros Hv. unfold entropy1.
  assert (HS : 0 < Rsum (map exp v)) by now apply Rsum_exp_pos.
  pose proof (weighted_scores_bound (Rsum (map exp v)) (logsumexp1 v) v HS
                (le_logsumexp1 v)) as H.
  unfold softmax1. replace (Rsum (map exp v) / Rsum (map exp v)) with 1 in H
    by (field; lra).
  lra.
Qed.

Lemma map2_map_map {A B C D : Type} (f : B -> C -> D) (g : A -> B) (h : A -> C)
    (l : list A) :
  map2 f (map g l) (map h l) = map (fun a => f (g a) (h a)) l.
Proof. induction l as [|a l IH]; simpl; [reflexivity | now rewrite IH]. Qed.

Lemma map2_map_id {A B C : Type} (f : B -> A -> C) (g : A -> B) (l : list A) :
  map2 f (map g l) l = map (fun a => f (g a) a) l.
Proof. induction l as [|a l IH]; simpl; [reflexivity | now rewrite IH]. Qed.

(** The entropy tensor is the entropy formula applied at each position. *)
Lemma position_entropy_pointwise (logits : tensor3) :
  position_entropy logits = t2_map entropy1 logits.
Proof.
  unfold position_entropy, t_sub, t3_logsumexp, t3_sum_last, t3_mul, t3_softmax,
    t2_map2, t2_map.
  rewrite map2_map_id, map_map, map2_map_map.
  apply map_ext. intros row.
  rewrite map2_map_id, map_map, map2_map_map. reflexivity.
Qed.

Lemma has_shape3_div (B L V : nat) (logits : tensor3) (c : R) :
  has_shape3 B L V logits -> has_shape3 B L V (t3_div_scalar logits c).
Proof.
  intros [HB HF]. split; unfold t3_div_scalar, t2_map.
  - now rewrite length_map.
  - rewrite Forall_map. eapply Forall_impl; [|exact HF].
    intros row [Hl Hv]. split; [now rewrite length_map|].
    rewrite Forall_map. eapply Forall_impl; [|exact Hv].
    intros v Hlen. now rewrite length_map.
Qed.

Lemma position_entropy_nonneg (B L V : nat) (logits : tensor3) :
  has_shape3 B L V logits -> (1 <= V)%nat ->
  all_entries (fun e => 0 <= e) (position_entropy logits).
Proof.
  intros [_ HF] HV. rewrite position_entropy_pointwise.
  unfold all_entries, t2_map. rewrite Forall_map.
  eapply Forall_impl; [|exact HF]. intros row [_ Hv].
  rewrite Forall_map. eapply Forall_impl; [|exact Hv].
  intros v Hlen. apply entropy1_nonneg. intros ->. simpl in Hlen. lia.
Qed.

(** X29: in exact arithmetic, for scores of shape (batch, seq, vocab)
    with a non-empty vocabulary axis, the entropy
    [logsumexp(scores) - sum(softmax(scores) * scores)] is >= 0 at every
    position, both on the scores the selector receives and on the
    temperature-divided scores [compute_entropy] reduces.  (The sign of
    the value the source computes in floating point, within rounding
    distance of 0, is outside this statement.) *)
Theorem entropy_formula_nonneg (B L V : nat) (logits : tensor3) (temperature : R) :
  has_shape3 B L V logits -> (1 <= V)%nat ->
  all_entries (fun e => 0 <= e) (position_entropy logits)
  /\ all_entries (fun e => 0 <= e)
       (position_entropy (t3_div_scalar logits temperature)).
Proof.
  intros Hs HV. split.
  - exact (position_entropy_nonneg B L V logits Hs HV).
  - apply (position_entropy_nonneg B L V); [now apply has_shape3_div | exact HV].
Qed.

Lemma entropy_formula_nonneg_witness :
  has_shape3 1 2 2 [[[1; 2]; [0; 3]]] /\ (1 <= 2)%nat
  /\ all_entries (fun e => 0 <= e) (position_entropy [[[1; 2]; [0; 3]]]).
Proof.
  assert (H : has_shape3 1 2 2 [[[1; 2]; [0; 3]]]).
  { split; [reflexivity|]. repeat constructor. }
  split; [exact H|]. split; [lia|].
  apply (entropy_formula_nonneg 1 2 2 [[[1; 2]; [0; 3]]] 1 H). lia.
Defined.

(* ================================================================== *)
(** * Selective log-probability extractor *)
(* ================================================================== *)

Lemma mapM_length {A B : Type} (f : A -> result B) (l : list A) (r : list B) :
  mapM f l = Ok r -> length r = length l.
Proof.
  revert r; induction l as [|a l IH]; simpl; intros r H.
  - now inversion H.
  - destruct (f a) as [b|e]; simpl in H; [|discriminate].
    destruct (mapM f l) as [bs|e]; simpl in H; [|discriminate].
    inversion H; subst. simpl. now rewrite (IH bs).
Qed.

Lemma mapM_Forall {A B : Type} (f : A -> result B) (P : B -> Prop) (l : list A) :
  (forall a, In a l -> exists b, f a = Ok b /\ P b) ->
  exists r, mapM f l = Ok r /\ Forall P r.
Proof.
  induction l as [|a l IH]; intros H; simpl.
  - exists []. split; [reflexivity | constructor].
  - destruct (H a (or_introl eq_refl)) as (b & Hb & Pb).
    destruct IH as (bs & Hbs & Pbs); [intros; apply H; now right|].
    exists (b :: bs). rewrite Hb, Hbs. split; [reflexivity | now constructor].
Qed.

Lemma mapM_combine_map_l {A A' B C : Type} (f : A' * B -> result C) (g : A -> A')
    (l : list A) (idx : list B) :
  mapM f (combine (map g l) idx)
  = mapM (fun p => f (g (fst p), snd p)) (combine l idx).
Proof.
  revert idx; induction l as [|a l IH]; intros [|i idx]; simpl; try reflexivity.
  now rewrite IH.
Qed.

Lemma gather1_log_softmax (v : tensor1) (i : Z) :
  gather1 (log_softmax1 v) i = (x <- gather1 v i ;; Ok (x - logsumexp1 v)).
Proof.
  unfold gather1, log_softmax1, softmax1. rewrite !length_map.
  destruct ((0 <=? i) && (i <? Z.of_nat (length v)))%Z eqn:Hr; simpl; [|reflexivity].
  apply andb_true_iff in Hr. destruct Hr as [H0 H1].
  apply Z.leb_le in H0. apply Z.ltb_lt in H1.
  assert (Hn : (Z.to_nat i < length v)%nat) by lia.
  f_equal. rewrite map_map.
  rewrite (nth_indep _ 0 ((fun x => ln (exp x / Rsum (map exp v))) 0))
    by (rewrite length_map; exact Hn).
  rewrite (map_nth (fun x => ln (exp x / Rsum (map exp v)))).
  apply ln_softmax_entry. now apply nth_In.
Qed.

Lemma gather2_log_softmax (xs : list tensor1) (labels : list Z) :
  gather2 (map log_softmax1 xs) labels
  = (r <- gather2 xs labels ;; Ok (map2 Rminus r (map logsumexp1 xs))).
Proof.
  unfold gather2. revert labels.
  induction xs as [|x xs IH]; intros [|i labels]; simpl; try reflexivity.
  rewrite gather1_log_softmax. destruct (gather1 x i) as [b|e]; simpl; [|reflexivity].
  rewrite IH.
  destruct (mapM (fun p => gather1 (fst p) (snd p)) (combine xs labels))
    as [bs|e]; reflexivity.
Qed.

Lemma gather3_log_softmax (logits : tensor3) (index : int_tensor2) :
  gather3 (t3_log_softmax logits) index
  = (sel <- gather3 logits index ;;
     Ok (t_sub sel (map (fun lg => map logsumexp1 lg) logits))).
Proof.
  unfold gather3, t3_log_softmax, t2_map, t_sub, t2_map2. revert index.
  induction logits as [|row logits IH]; intros [|labels index]; simpl; try reflexivity.
  rewrite gather2_log_softmax.
  destruct (gather2 row labels) as [b|e]; simpl; [|reflexivity].
  rewrite IH.
  destruct (mapM (fun p => gather2 (fst p) (snd p)) (combine logits index))
    as [bs|e]; reflexivity.
Qed.

(** On a non-empty batch the logsumexp branch is the naive
    implementation, errors included. *)
Lemma logsumexp_branch_naive (logits : tensor3) (index : int_tensor2) :
  logits <> [] ->
  selective_log_softmax_logsumexp logits index = naive_log_softmax_gather logits index.
Proof.
  intros Hne. unfold selective_log_softmax_logsumexp, naive_log_softmax_gather.
  rewrite gather3_log_softmax.
  destruct (gather3 logits index) as [sel|e]; simpl; [|reflexivity].
  destruct logits; [congruence | reflexivity].
Qed.

(** The row-wise branch is the naive implementation followed by the
    stacking of its rows. *)
Lemma rowwise_branch_naive (logits : tensor3) (index : int_tensor2) :
  selective_log_softmax_rowwise logits index
  = (r <- naive_log_softmax_gather logits index ;; stack r).
Proof.
  unfold selective_log_softmax_rowwise, naive_log_softmax_gather, gather3,
    t3_log_softmax, t2_map.
  rewrite mapM_combine_map_l. reflexivity.
Qed.

Lemma gather1_in_range (v : tensor1) (i : Z) :
  (0 <= i < Z.of_nat (length v))%Z ->
  exists x, gather1 (log_softmax1 v) i = Ok x /\ x <= 0.
Proof.
  intros Hi. rewrite gather1_log_softmax. unfold gather1.
  replace ((0 <=? i) && (i <? Z.of_nat (length v)))%Z with true
    by (symmetry; apply andb_true_iff; split; [apply Z.leb_le | apply Z.ltb_lt]; lia).
  simpl. eexists; split; [reflexivity|].
  assert (In (nth (Z.to_nat i) v 0) v) by (apply nth_In; lia).
  pose proof (le_logsumexp1 v _ H). lra.
Qed.

Lemma naive_succeeds (B L V : nat) (logits : tensor3) (index : int_tensor2) :
  has_shape3 B L V logits -> has_shape2 B L index -> ids_in_range V index ->
  exists r, naive_log_softmax_gather logits index = Ok r
            /\ has_shape2 B L r /\ all_entries (fun x => x <= 0) r.
Proof.
  intros [HB HF] [HB' HF'] Hids.
  unfold naive_log_softmax_gather, gather3.
  destruct (mapM_Forall
              (fun p => gather2 (fst p) (snd p))
              (fun row => length row = L /\ Forall (fun x => x <= 0) row)
              (combine (t3_log_softmax logits) index)) as (r & Hr & Pr).
  - intros [row labels] Hin. simpl.
    pose proof (in_combine_l _ _ _ _ Hin) as Hrow.
    pose proof (in_combine_r _ _ _ _ Hin) as Hlab.
    unfold t3_log_softmax, t2_map in Hrow. apply in_map_iff in Hrow.
    destruct Hrow as (row0 & <- & Hrow0).
    rewrite Forall_forall in HF, HF'. unfold ids_in_range in Hids.
    rewrite Forall_forall in Hids.
    destruct (HF _ Hrow0) as [Hlen Hv]. specialize (HF' _ Hlab).
    specialize (Hids _ Hlab). cbv beta in HF', Hids. unfold gather2.
    destruct (mapM_Forall (fun p => gather1 (fst p) (snd p)) (fun x => x <= 0)
                (combine (map log_softmax1 row0) labels)) as (b & Hb & Pb).
    + intros [v i] Hin'. simpl.
      pose proof (in_combine_l _ _ _ _ Hin') as Hv'.
      pose proof (in_combine_r _ _ _ _ Hin') as Hi'.
      apply in_map_iff in Hv'. destruct Hv' as (v0 & <- & Hv0).
      apply gather1_in_range.
      rewrite Forall_forall in Hv, Hids. rewrite (Hv _ Hv0). now apply Hids.
    + exists b. split; [exact Hb | split; [|exact Pb]].
      apply mapM_length in Hb. rewrite Hb, length_combine, length_map. lia.
  - exists r. split; [exact Hr | split].
    + split.
      * apply mapM_length in Hr. rewrite Hr, length_combine.
        unfold t3_log_softmax, t2_map. rewrite length_map. lia.
      * eapply Forall_impl; [|exact Pr]. now intros row [H _].
    + eapply Forall_impl; [|exact Pr]. now intros row [_ H].
Qed.

(** When the naive implementation returns a non-empty batch, both
    branches return the same tensor. *)
Lemma branches_return_naive (logits : tensor3) (index : int_tensor2) (r : tensor2) :
  logits <> [] -> r <> [] ->
  naive_log_softmax_gather logits index = Ok r ->
  selective_log_softmax_logsumexp logits index = Ok r
  /\ selective_log_softmax_rowwise logits index = Ok r.
Proof.
  intros Hl Hr Hn. split.
  - rewrite logsumexp_branch_naive; assumption.
  - rewrite rowwise_branch_naive, Hn. simpl. destruct r; [congruence | reflexivity].
Qed.

Lemma has_shape2_nonempty {A : Type} (B L : nat) (t : list (list A)) :
  has_shape2 B L t -> (1 <= B)%nat -> t <> [].
Proof. intros [Hlen _] HB ->. simpl in Hlen. lia. Qed.

Lemma has_shape3_nonempty (B L V : nat) (t : tensor3) :
  has_shape3 B L V t -> (1 <= B)%nat -> t <> [].
Proof. intros [Hlen _] HB ->. simpl in Hlen. lia. Qed.

Lemma extractor_returns (B L V : nat) (dt : dtype) (logits : tensor3)
    (index : int_tensor2) :
  has_shape3 B L V logits -> has_shape2 B L index -> ids_in_range V index ->
  (1 <= B)%nat ->
  exists r, selective_log_softmax dt logits index = Ok r.
Proof.
  intros Hl Hi Hids HB.
  destruct (naive_succeeds B L V logits index Hl Hi Hids) as (r & Hr & Hs & _).
  destruct (branches_return_naive logits index r
              (has_shape3_nonempty B L V logits Hl HB)
              (has_shape2_nonempty B L r Hs HB) Hr) as [H1 H2].
  exists r. destruct dt; assumption.
Qed.

(** C3 on every non-empty batch: for scores of shape (batch, seq, vocab)
    with batch >= 1 and token ids in [0, vocab), the logsumexp branch (taken
    for float32 and float64) and the row-wise log_softmax branch (taken
    for the other element types) both return, in exact arithmetic, the
    result of the naive gather(log_softmax(scores), token_ids); hence
    they agree with each other, and every entry of the result is <= 0. *)
Theorem selective_log_softmax_correct (B L V : nat) (logits : tensor3)
    (index : int_tensor2) :
  has_shape3 B L V logits -> has_shape2 B L index -> ids_in_range V index ->
  (1 <= B)%nat ->
  exists r,
    naive_log_softmax_gather logits index = Ok r
    /\ selective_log_softmax_logsumexp logits index = Ok r
    /\ selective_log_softmax_rowwise logits index = Ok r
    /\ (forall dt, selective_log_softmax dt logits index = Ok r)
    /\ has_shape2 B L r
    /\ all_entries (fun x => x <= 0) r.
Proof.
  intros Hl Hi Hids HB.
  destruct (naive_succeeds B L V logits index Hl Hi Hids) as (r & Hr & Hs & Hle).
  destruct (branches_return_naive logits index r
              (has_shape3_nonempty B L V logits Hl HB)
              (has_shape2_nonempty B L r Hs HB) Hr) as [H1 H2].
  exists r. split; [exact Hr|]. split; [exact H1|]. split; [exact H2|].
  split; [intros []; assumption|]. split; assumption.
Qed.

Lemma selective_log_softmax_correct_witness :
  has_shape3 1 1 2 [[[0; 1]]] /\ has_shape2 1 1 [[1%Z]] /\ ids_in_range 2 [[1%Z]]
  /\ (1 <= 1)%nat
  /\ exists r, (forall dt, selective_log_softmax dt [[[0; 1]]] [[1%Z]] = Ok r)
               /\ all_entries (fun x => x <= 0) r.
Proof.
  assert (H1 : has_shape3 1 1 2 [[[0; 1]]]).
  { split; [reflexivity|]. repeat constructor. }
  assert (H2 : has_shape2 1 1 [[1%Z]]).
  { split; [reflexivity|]. repeat constructor. }
  assert (H3 : ids_in_range 2 [[1%Z]]).
  { repeat constructor; simpl; lia. }
  split; [exact H1|]. split; [exact H2|]. split; [exact H3|]. split; [lia|].
  destruct (selective_log_softmax_correct 1 1 2 [[[0; 1]]] [[1%Z]] H1 H2 H3)
    as (r & _ & _ & _ & Hdt & _ & Hle); [lia|].
  exists r. split; assumption.
Defined.

(** C3 (the code departs from the claim and from its docstring): on an
    empty batch, scores of shape (0, 1, 1) and token ids of shape (0, 1),
    the naive gather(log_softmax(scores), token_ids) returns the empty
    tensor, while both branches of [selective_log_softmax] stack the
    rows of a Python list, which has no result when the list is empty:
    the extractor raises for every element type. *)
Lemma selective_log_softmax_empty_batch :
  has_shape3 0 1 1 [] /\ has_shape2 0 1 (@nil (list Z)) /\ ids_in_range 1 []
  /\ naive_log_softmax_gather [] [] = Ok []
  /\ (forall dt, selective_log_softmax dt [] []
                 = Raise (RuntimeError "stack expects a non-empty TensorList"))
  /\ (forall dt, raises (selective_log_softmax dt [] []))
  /\ (forall dt, selective_log_softmax dt [] [] <> naive_log_softmax_gather [] []).
Proof.
  split; [split; [reflexivity | constructor]|].
  split; [split; [reflexivity | constructor]|].
  split; [constructor|]. split; [reflexivity|]. split; [|split].
  - intros []; reflexivity.
  - intros []; eexists; reflexivity.
  - intros []; discriminate.
Qed.

(* ================================================================== *)
(** * Sorting and order statistics *)
(* ================================================================== *)

Lemma insert_sorted_perm (x : R) (l : list R) :
  Permutation (insert_sorted x l) (x :: l).
Proof.
  induction l as [|y l IH]; simpl; [reflexivity|].
  destruct (Rle_dec x y); [reflexivity|].
  rewrite IH. apply perm_swap.
Qed.

Lemma sort_perm (l : list R) : Permutation (sort l) l.
Proof.
  induction l as [|x l IH]; simpl; [reflexivity|].
  rewrite insert_sorted_perm. now constructor.
Qed.

Lemma sort_length (l : list R) : length (sort l) = length l.
Proof. apply Permutation_length, sort_perm. Qed.

Lemma insert_sorted_sorted (x : R) (l : list R) :
  StronglySorted Rle l -> StronglySorted Rle (insert_sorted x l).
Proof.
  induction 1 as [|y l Hs IH Hy]; simpl.
  - constructor; constructor.
  - destruct (Rle_dec x y) as [Hxy | Hxy].
    + constructor; [now constructor|].
      constructor; [exact Hxy|].
      eapply Forall_impl; [|exact Hy]. intros z Hz. lra.
    + constructor; [exact IH|].
      apply (Permutation_Forall (Permutation_sym (insert_sorted_perm x l))).
      constructor; [lra | exact Hy].
Qed.

Lemma sort_sorted (l : list R) : StronglySorted Rle (sort l).
Proof.
  induction l as [|x l IH]; simpl; [constructor | now apply insert_sorted_sorted].
Qed.


Lemma filter_length_perm {A : Type} (f : A -> bool) (l l' : list A) :
  Permutation l l' -> length (filter f l) = length (filter f l').
Proof.
  induction 1 as [| a l l' _ IH | a b l | l l' l'' _ IH1 _ IH2]; simpl.
  - reflexivity.
  - destruct (f a); simpl; now rewrite IH.
  - destruct (f a), (f b); reflexivity.
  - now rewrite IH1.
Qed.

Lemma filter_all {A : Type} (f : A -> bool) (l : list A) :
  Forall (fun a => f a = true) l -> filter f l = l.
Proof.
  induction 1 as [|a l Ha _ IH]; simpl; [reflexivity|]. now rewrite Ha, IH.
Qed.

Lemma Rleb_true (x y : R) : Rleb x y = true <-> x <= y.
Proof. unfold Rleb. destruct (Rle_dec x y); split; intros; auto; discriminate. Qed.

Lemma Rltb_true (x y : R) : Rltb x y = true <-> x < y.
Proof. unfold Rltb. destruct (Rlt_dec x y); split; intros; auto; discriminate. Qed.

(** In a sorted list at least [length s - j] elements are at least the
    element of index [j]. *)
Lemma count_ge_sorted (s : list R) :
  StronglySorted Rle s ->
  forall j, (j < length s)%nat ->
    (length s - j <= length (filter (Rleb (nth j s 0%R)) s))%nat.
Proof.
  induction 1 as [|a s Hs IH Ha]; intros j Hj; simpl in *; [lia|].
  destruct j as [|j].
  - rewrite (proj2 (Rleb_true a a)) by lra. simpl.
    rewrite filter_all; [lia|].
    eapply Forall_impl; [|exact Ha]. intros z Hz. now apply Rleb_true.
  - specialize (IH j ltac:(lia)).
    destruct (Rleb (nth j s 0) a); simpl; lia.
Qed.

Lemma kthvalue_in_range (v : list R) (k : Z) :
  (1 <= k <= Z.of_nat (length v))%Z ->
  kthvalue v k = Ok (nth (Z.to_nat (k - 1)) (sort v) 0).
Proof.
  intros Hk. unfold kthvalue. destruct v as [|x l]; [simpl in Hk; lia|].
  replace ((1 <=? k) && (k <=? Z.of_nat (length (x :: l))))%Z with true
    by (symmetry; apply andb_true_iff; split; apply Z.leb_le; lia).
  reflexivity.
Qed.

Lemma kthvalue_ok_inv (v : list R) (k : Z) (thr : R) :
  kthvalue v k = Ok thr ->
  (1 <= k <= Z.of_nat (length v))%Z /\ thr = nth (Z.to_nat (k - 1)) (sort v) 0.
Proof.
  unfold kthvalue. destruct v as [|x l]; [discriminate|].
  destruct ((1 <=? k) && (k <=? Z.of_nat (length (x :: l))))%Z eqn:E;
    [|discriminate].
  intros H. inversion H; subst thr.
  apply andb_true_iff in E. destruct E as [E1 E2].
  apply Z.leb_le in E1. apply Z.leb_le in E2. split; [lia | reflexivity].
Qed.

Lemma kthvalue_out_of_range (v : list R) (k : Z) :
  ~ (1 <= k <= Z.of_nat (length v))%Z -> raises (kthvalue v k).
Proof.
  intros Hk. unfold kthvalue. destruct v as [|x l]; [eexists; reflexivity|].
  replace ((1 <=? k) && (k <=? Z.of_nat (length (x :: l))))%Z with false.
  - eexists; reflexivity.
  - symmetry. apply andb_false_iff.
    destruct (Z.leb_spec 1 k); [right; apply Z.leb_gt; lia | left; reflexivity].
Qed.

(** The threshold read at rank [n - k + 1] keeps at least [k] elements. *)
Lemma kthvalue_count (v : list R) (k : Z) :
  (1 <= k <= Z.of_nat (length v))%Z ->
  exists thr,
    kthvalue v (Z.of_nat (length v) - k + 1) = Ok thr
    /\ (k <= Z.of_nat (length (filter (Rleb thr) v)))%Z.
Proof.
  intros Hk.
  eexists; split; [apply kthvalue_in_range; lia|].
  set (j := Z.to_nat (Z.of_nat (length v) - k + 1 - 1)).
  assert (Hj : (j < length (sort v))%nat) by (rewrite sort_length; unfold j; lia).
  pose proof (count_ge_sorted (sort v) (sort_sorted v) j Hj) as Hc.
  rewrite (filter_length_perm _ (sort v) v (sort_perm v)) in Hc.
  rewrite sort_length in Hc. unfold j in *. lia.
Qed.

Lemma fold_Rmin_le (x : R) (l : list R) :
  fold_right Rmin x l <= x /\ Forall (fun e => fold_right Rmin x l <= e) l.
Proof.
  induction l as [|a l [IH1 IH2]]; simpl.
  - split; [lra | constructor].
  - pose proof (Rmin_l a (fold_right Rmin x l)).
    pose proof (Rmin_r a (fold_right Rmin x l)).
    split; [lra|]. constructor; [assumption|].
    eapply Forall_impl; [|exact IH2]. intros e He. simpl in He. lra.
Qed.

(** The sentinel threshold [min - 1] keeps every element. *)
Lemma t_min_count (v : list R) :
  v <> [] ->
  exists m, t_min v = Ok m /\ filter (Rleb (m - 1)) v = v.
Proof.
  destruct v as [|x l]; [congruence|]. intros _. simpl t_min.
  eexists; split; [reflexivity|].
  destruct (fold_Rmin_le x l) as [H1 H2].
  apply filter_all. constructor.
  - apply Rleb_true. lra.
  - eapply Forall_impl; [|exact H2]. intros e He. apply Rleb_true. simpl in He. lra.
Qed.

(* ================================================================== *)
(** * Entropy-based token selector *)
(* ================================================================== *)

Lemma highest_entropy_mask_select_top (logits : tensor3) (loss_mask : int_tensor2)
    (percent : R) :
  highest_entropy_mask logits loss_mask percent
  = select_top (position_entropy logits) loss_mask percent.
Proof. reflexivity. Qed.

Lemma select_row_cons (x : R) (xr : list R) (b : bool) (mr : list bool) :
  select_row (x :: xr) (b :: mr)
  = if b then x :: select_row xr mr else select_row xr mr.
Proof. unfold select_row. simpl. destruct b; reflexivity. Qed.

Lemma select_row_length_le (xr : list R) (mr : list bool) :
  (length (select_row xr mr) <= length (filter (fun b : bool => b) mr))%nat.
Proof.
  revert mr; induction xr as [|x xr IH]; intros [|b mr]; simpl; try lia.
  rewrite select_row_cons. specialize (IH mr). destruct b; simpl; lia.
Qed.

Lemma select_row_length (xr : list R) (mr : list bool) :
  length xr = length mr ->
  length (select_row xr mr) = length (filter (fun b : bool => b) mr).
Proof.
  revert mr; induction xr as [|x xr IH]; intros [|b mr] H; simpl in *;
    try discriminate; [reflexivity|].
  rewrite select_row_cons. specialize (IH mr ltac:(lia)). destruct b; simpl; lia.
Qed.

Lemma masked_select_length_le (x : tensor2) (m : bool_tensor2) :
  (length (masked_select x m) <= count_true m)%nat.
Proof.
  unfold masked_select, count_true. revert m.
  induction x as [|xr x IH]; intros [|mr m]; simpl; try lia.
  rewrite filter_app, !length_app.
  pose proof (select_row_length_le xr mr). specialize (IH m). lia.
Qed.

Lemma masked_select_length (B L : nat) (x : tensor2) (m : bool_tensor2) :
  has_shape2 B L x -> has_shape2 B L m ->
  length (masked_select x m) = count_true m.
Proof.
  unfold masked_select, count_true, has_shape2. revert B m.
  induction x as [|xr x IH]; intros B [|mr m] [Hx Fx] [Hm Fm]; simpl in *;
    subst; try discriminate; [reflexivity|].
  inversion Fx; inversion Fm; subst.
  rewrite filter_app, !length_app.
  rewrite (select_row_length xr mr) by lia.
  rewrite (IH (length x) m); [reflexivity | split; auto | split; auto; lia].
Qed.

(** The number of selected positions is the number of valid entropies
    that reach the threshold. *)
Lemma select_row_count (thr : R) (xr : list R) (mr : list bool) :
  length (filter (fun b : bool => b) (map2 andb (map (fun v => Rleb thr v) xr) mr))
  = length (filter (Rleb thr) (select_row xr mr)).
Proof.
  revert mr; induction xr as [|x xr IH]; intros [|b mr]; simpl; try reflexivity.
  rewrite select_row_cons. specialize (IH mr).
  destruct b, (Rleb thr x) eqn:E; simpl; rewrite ?E; simpl; lia.
Qed.

Lemma selected_count (thr : R) (x : tensor2) (m : bool_tensor2) :
  count_true (t_and (t_ge_scalar x thr) m)
  = length (filter (Rleb thr) (masked_select x m)).
Proof.
  unfold count_true, t_and, t_ge_scalar, t2_map2, t2_map, masked_select. revert m.
  induction x as [|xr x IH]; intros [|mr m]; simpl; try reflexivity.
  rewrite !filter_app, !length_app, select_row_count, IH. reflexivity.
Qed.

Lemma nth_map2_andb_r (l1 l2 : list bool) (n : nat) :
  nth n (map2 andb l1 l2) false = true -> nth n l2 false = true.
Proof.
  revert l2 n; induction l1 as [|a l1 IH]; intros [|b l2] [|n]; simpl;
    try discriminate.
  - intros H. apply andb_true_iff in H. tauto.
  - apply IH.
Qed.

Lemma t_and_subset (a m : bool_tensor2) (b s : nat) :
  get2 false (t_and a m) b s = true -> get2 false m b s = true.
Proof.
  unfold get2, t_and, t2_map2. revert m b.
  induction a as [|ar a IH]; intros [|mr m] [|b]; simpl; intros H;
    try (destruct s; discriminate).
  - now apply nth_map2_andb_r in H.
  - now apply IH.
Qed.

Lemma t_bool_valid (loss_mask : int_tensor2) (b s : nat) :
  get2 false (t_bool loss_mask) b s = true -> get2 0%Z loss_mask b s <> 0%Z.
Proof.
  unfold get2, t_bool, t2_map.
  change (@nil bool) with (map z2b []). rewrite map_nth.
  change false with (z2b 0). rewrite map_nth. unfold z2b.
  intros H E. rewrite E in H. discriminate.
Qed.

Lemma select_top_subset (entropy : tensor2) (loss_mask : int_tensor2) (p : R)
    (m : bool_tensor2) :
  select_top entropy loss_mask p = Ok m -> mask_subset m loss_mask.
Proof.
  unfold select_top. intros H. apply bind_inv in H. destruct H as (thr & _ & H).
  inversion H; subst. intros b s Hb.
  apply t_bool_valid. eapply t_and_subset. exact Hb.
Qed.

Lemma has_shape3_position_entropy (B L V : nat) (logits : tensor3) :
  has_shape3 B L V logits -> has_shape2 B L (position_entropy logits).
Proof.
  intros [HB HF]. rewrite position_entropy_pointwise. apply has_shape2_t2_map.
  split; [exact HB|]. eapply Forall_impl; [|exact HF]. now intros row [H _].
Qed.

(** Python's [int] of [p * n] for 0 < p < 1 is the floor, and lies in
    [0, n - 1]. *)
Lemma py_int_fraction (p : R) (n : nat) :
  0 < p < 1 -> (1 <= n)%nat ->
  py_int (p * INR n) = Zfloor (p * INR n)
  /\ (0 <= Zfloor (p * INR n) <= Z.of_nat n - 1)%Z.
Proof.
  intros Hp Hn.
  assert (HN : 1 <= INR n) by (change 1 with (INR 1); apply le_INR; lia).
  assert (H0 : 0 <= p * INR n) by nra.
  unfold py_int. destruct (Rle_dec 0 (p * INR n)); [|contradiction].
  split; [reflexivity|].
  pose proof (Zfloor_bound (p * INR n)) as [Hlo Hhi].
  split.
  - apply Zfloor_lub. simpl. exact H0.
  - assert (Hlt : IZR (Zfloor (p * INR n)) < IZR (Z.of_nat n)).
    { rewrite <- INR_IZR_INZ. nra. }
    apply lt_IZR in Hlt. lia.
Qed.

Lemma select_top_cardinality (B L : nat) (entropy : tensor2)
    (loss_mask : int_tensor2) (p : R) :
  has_shape2 B L entropy -> has_shape2 B L loss_mask ->
  (1 <= valid_count loss_mask)%nat -> 0 < p < 1 ->
  exists m,
    select_top entropy loss_mask p = Ok m
    /\ has_shape2 B L m
    /\ (Z.max 1 (Zfloor (p * INR (valid_count loss_mask))) <= Z.of_nat (count_true m))%Z.
Proof.
  intros He Hm HN Hp. unfold select_top.
  assert (Hb : has_shape2 B L (t_bool loss_mask)) by now apply has_shape2_t2_map.
  pose proof (masked_select_length B L entropy (t_bool loss_mask) He Hb) as Hlen.
  fold (valid_count loss_mask) in Hlen. unfold numel. rewrite Hlen.
  set (N := valid_count loss_mask) in *.
  destruct (py_int_fraction p N Hp HN) as [-> Hfl].
  set (k0 := Zfloor (p * INR N)) in *.
  set (k := if (k0 <? 1)%Z then 1%Z else k0).
  assert (Hk : k = Z.max 1 k0).
  { unfold k. destruct (Z.ltb_spec k0 1); lia. }
  assert (Hshape : forall thr,
             has_shape2 B L (t_and (t_ge_scalar entropy thr) (t_bool loss_mask))).
  { intros thr. apply has_shape2_t2_map2; [now apply has_shape2_t2_map | exact Hb]. }
  destruct (Z.eqb_spec k (Z.of_nat N)) as [Heq | Hneq].
  - destruct (t_min_count (masked_select entropy (t_bool loss_mask))) as (mn & Hmn & Hall).
    { intros E. rewrite E in Hlen. simpl in Hlen. lia. }
    rewrite Hmn. simpl. eexists; split; [reflexivity|]. split; [apply Hshape|].
    rewrite selected_count, Hall, Hlen. lia.
  - destruct (kthvalue_count (masked_select entropy (t_bool loss_mask)) k)
      as (thr & Hthr & Hc); [rewrite Hlen; lia|].
    rewrite Hlen in Hthr. rewrite Hthr. simpl.
    eexists; split; [reflexivity|]. split; [apply Hshape|].
    rewrite selected_count. lia.
Qed.

(** C2, as amended: for scores and a loss mask of one shape with
    N >= 1 valid positions and a percentage p in (0,1), the selector
    returns a mask of that shape that selects at least
    max(1, floor(p*N)) positions (the source truncates with [int], it
    does not round), and every selected position is a valid position of
    the loss mask. *)
Theorem highest_entropy_mask_cardinality (B L V : nat) (logits : tensor3)
    (loss_mask : int_tensor2) (p : R) :
  has_shape3 B L V logits -> has_shape2 B L loss_mask ->
  (1 <= valid_count loss_mask)%nat -> 0 < p < 1 ->
  exists m,
    highest_entropy_mask logits loss_mask p = Ok m
    /\ has_shape2 B L m
    /\ (Z.max 1 (Zfloor (p * INR (valid_count loss_mask))) <= Z.of_nat (count_true m))%Z
    /\ mask_subset m loss_mask.
Proof.
  intros Hl Hm HN Hp. rewrite highest_entropy_mask_select_top.
  destruct (select_top_cardinality B L (position_entropy logits) loss_mask p
              (has_shape3_position_entropy B L V logits Hl) Hm HN Hp)
    as (m & Hsel & Hs & Hc).
  exists m. split; [exact Hsel|]. split; [exact Hs|]. split; [exact Hc|].
  now apply (select_top_subset (position_entropy logits) loss_mask p).
Qed.

(** Without a valid position the rank int(p * 0) = 0 is forced up to 1,
    which is not the number of valid positions, so the order statistic
    of rank 0 - 1 + 1 = 0 is asked of an empty tensor. *)
Lemma select_top_no_valid_kthvalue (entropy : tensor2) (loss_mask : int_tensor2)
    (p : R) :
  valid_count loss_mask = 0%nat ->
  select_top entropy loss_mask p
  = (threshold <- kthvalue [] 0 ;;
     Ok (t_and (t_ge_scalar entropy threshold) (t_bool loss_mask))).
Proof.
  intros HN. unfold select_top.
  pose proof (masked_select_length_le entropy (t_bool loss_mask)) as Hle.
  fold (valid_count loss_mask) in Hle. rewrite HN in Hle.
  destruct (masked_select entropy (t_bool loss_mask)) as [|e l];
    [|simpl in Hle; lia].
  unfold numel. simpl length. simpl INR. rewrite Rmult_0_r.
  unfold py_int. destruct (Rle_dec 0 0) as [_|H]; [|lra].
  replace (Zfloor 0) with 0%Z by (symmetry; apply Zfloor_eq; simpl; lra).
  reflexivity.
Qed.

Lemma select_top_no_valid (entropy : tensor2) (loss_mask : int_tensor2) (p : R) :
  valid_count loss_mask = 0%nat -> raises (select_top entropy loss_mask p).
Proof.
  intros HN. rewrite (select_top_no_valid_kthvalue entropy loss_mask p HN).
  eexists. reflexivity.
Qed.

(** C1 (the code departs from the claim): when the loss mask has zero
    valid positions [highest_entropy_mask] does not return the
    all-false mask, it raises, for every percentage: no valid entropy
    is left, the rank is forced up to 1, and the order statistic is
    looked up in an empty tensor, which raises IndexError.  No guard
    for the empty case is written in the source; the error comes out of
    the rank arithmetic. *)
Theorem highest_entropy_mask_no_valid (logits : tensor3) (loss_mask : int_tensor2)
    (p : R) :
  valid_count loss_mask = 0%nat ->
  (exists msg, highest_entropy_mask logits loss_mask p = Raise (IndexError msg))
  /\ raises (highest_entropy_mask logits loss_mask p)
  /\ forall m, highest_entropy_mask logits loss_mask p <> Ok m.
Proof.
  intros HN. rewrite highest_entropy_mask_select_top.
  rewrite (select_top_no_valid_kthvalue (position_entropy logits) loss_mask p HN).
  split; [eexists; reflexivity|].
  split; [eexists; reflexivity | intros m; discriminate].
Qed.

Lemma highest_entropy_mask_no_valid_witness :
  valid_count [[0%Z; 0%Z]] = 0%nat
  /\ raises (highest_entropy_mask [[[1; 2]; [3; 4]]] [[0%Z; 0%Z]] (/ 2)).
Proof.
  split; [reflexivity|].
  apply (highest_entropy_mask_no_valid [[[1; 2]; [3; 4]]] [[0%Z; 0%Z]] (/ 2)).
  reflexivity.
Defined.

(** The same at one input: with an all-zero loss mask and percentage 1/2
    the call does not return the all-false mask that an empty selection
    would be. *)
Lemma highest_entropy_mask_all_masked_raises :
  valid_count [[0%Z; 0%Z]] = 0%nat /\ 0 < / 2 < 1
  /\ highest_entropy_mask [[[1; 2]; [3; 4]]] [[0%Z; 0%Z]] (/ 2)
     <> Ok [[false; false]].
Proof.
  split; [reflexivity|]. split; [lra|].
  rewrite highest_entropy_mask_select_top.
  destruct (select_top_no_valid (position_entropy [[[1; 2]; [3; 4]]])
              [[0%Z; 0%Z]] (/ 2) eq_refl) as [e He].
  rewrite He. discriminate.
Qed.

(* ================================================================== *)
(** * Loss-variant engines *)
(* ================================================================== *)

(** Each engine extracts the log-probabilities from the
    temperature-divided scores, forms its per-token tensors, takes the
    clipped-token count over the loss mask it was given, and reduces the
    loss and the ratio over [final_mask]. *)
Lemma grpo_loss_clip_unfold
    (dt : dtype) (shifted_logits : tensor3) (input_ids : int_tensor2)
    (advantages original_logprobs : tensor2) (loss_mask : int_tensor2)
    (temperature epsilon_low epsilon_high clip_ratio p : R) :
  grpo_loss_clip dt shifted_logits input_ids advantages original_logprobs loss_mask
    temperature epsilon_low epsilon_high clip_ratio p
  = (logps <- selective_log_softmax dt (t3_div_scalar shifted_logits temperature)
                input_ids ;;
     fm <- final_mask (t3_div_scalar shifted_logits temperature) loss_mask p ;;
     Ok (_masked_sum
           (clip_per_token_loss logps original_logprobs advantages
              epsilon_low epsilon_high clip_ratio) fm,
         _masked_sum
           (clip_coef_2 logps original_logprobs epsilon_low epsilon_high clip_ratio) fm,
         _masked_sum
           (clip_is_clipped logps original_logprobs advantages
              epsilon_low epsilon_high clip_ratio) (IntMask loss_mask))).
Proof. reflexivity. Qed.

Lemma grpo_loss_ratio_unfold
    (dt : dtype) (shifted_logits : tensor3) (input_ids : int_tensor2)
    (advantages original_logprobs : tensor2) (loss_mask : int_tensor2)
    (temperature clip_ratio p : R) :
  grpo_loss_ratio dt shifted_logits input_ids advantages original_logprobs loss_mask
    temperature clip_ratio p
  = (logps <- selective_log_softmax dt (t3_div_scalar shifted_logits temperature)
                input_ids ;;
     fm <- final_mask (t3_div_scalar shifted_logits temperature) loss_mask p ;;
     Ok (_masked_sum (ratio_loss logps original_logprobs advantages clip_ratio) fm,
         _masked_sum (ratio_ratio logps original_logprobs clip_ratio) fm,
         _masked_sum (ratio_is_clipped logps original_logprobs clip_ratio)
           (IntMask loss_mask))).
Proof. reflexivity. Qed.

Lemma final_mask_below_one (scaled_logits : tensor3) (loss_mask : int_tensor2) (p : R) :
  p < 1 ->
  final_mask scaled_logits loss_mask p
  = (m <- highest_entropy_mask scaled_logits loss_mask p ;; Ok (BoolMask m)).
Proof. intros Hp. unfold final_mask. destruct (Rlt_dec p 1); [reflexivity | lra]. Qed.

Lemma final_mask_skip (scaled_logits : tensor3) (loss_mask : int_tensor2) (p : R) :
  1 <= p -> final_mask scaled_logits loss_mask p = Ok (IntMask loss_mask).
Proof. intros Hp. unfold final_mask. destruct (Rlt_dec p 1); [lra | reflexivity]. Qed.

Lemma engine_result_inv {X : Type} (mlogps : result X) (mfm : result mask)
    (f g h : X -> mask -> R) (l r c : R) :
  (logps <- mlogps ;; fm <- mfm ;; Ok (f logps fm, g logps fm, h logps fm))
  = Ok (l, r, c) ->
  exists logps fm, mlogps = Ok logps /\ mfm = Ok fm
                   /\ l = f logps fm /\ r = g logps fm /\ c = h logps fm.
Proof.
  destruct mlogps as [logps|e]; simpl; [|discriminate].
  destruct mfm as [fm|e]; simpl; [|discriminate].
  intros H. inversion H. exists logps, fm. repeat split; reflexivity.
Qed.

(** Both engines return a result on well-shaped inputs with a non-empty
    batch, ids in range and either no selection (p >= 1) or a selection
    over at least one valid position (0 < p < 1). *)
Lemma engines_succeed (B L V : nat)
    (dt : dtype) (shifted_logits : tensor3) (input_ids : int_tensor2)
    (advantages original_logprobs : tensor2) (loss_mask : int_tensor2)
    (temperature epsilon_low epsilon_high clip_ratio p : R) :
  has_shape3 B L V shifted_logits -> has_shape2 B L input_ids ->
  has_shape2 B L loss_mask -> ids_in_range V input_ids -> (1 <= B)%nat ->
  1 <= p \/ (0 < p < 1 /\ (1 <= valid_count loss_mask)%nat) ->
  (exists out,
      grpo_loss_clip dt shifted_logits input_ids advantages original_logprobs
        loss_mask temperature epsilon_low epsilon_high clip_ratio p = Ok out)
  /\ (exists out,
      grpo_loss_ratio dt shifted_logits input_ids advantages original_logprobs
        loss_mask temperature clip_ratio p = Ok out).
Proof.
  intros Hl Hi Hm Hids HB Hp.
  pose proof (has_shape3_div B L V shifted_logits temperature Hl) as Hl'.
  destruct (extractor_returns B L V dt _ input_ids Hl' Hi Hids HB) as (lp & Hlp).
  assert (Hfm : exists fm,
             final_mask (t3_div_scalar shifted_logits temperature) loss_mask p = Ok fm).
  { destruct Hp as [Hp | [Hp HN]].
    - rewrite final_mask_skip by exact Hp. eauto.
    - rewrite final_mask_below_one by lra.
      rewrite highest_entropy_mask_select_top.
      destruct (select_top_cardinality B L _ loss_mask p
                  (has_shape3_position_entropy B L V _ Hl') Hm HN Hp)
        as (m & -> & _). simpl. eauto. }
  destruct Hfm as (fm & Hfm).
  rewrite grpo_loss_clip_unfold, grpo_loss_ratio_unfold, Hlp, Hfm. simpl.
  split; eexists; reflexivity.
Qed.

Lemma exp_2_gt_5 : 5 < exp 2.
Proof.
  replace 2 with (/ 2 + / 2 + (/ 2 + / 2)) by lra.
  rewrite !exp_plus.
  pose proof (exp_ineq1_le (/ 2)) as H.
  assert (H2 : 9 / 4 <= exp (/ 2) * exp (/ 2)) by nra.
  nra.
Qed.

Lemma clamp_above (x hi : R) : 0 <= hi -> hi <= x -> clamp x 0 hi = hi.
Proof.
  intros H0 Hx. unfold clamp. rewrite Rmax_left by lra. apply Rmin_right. exact Hx.
Qed.

(** A call on a single position with a one-entry vocabulary: the
    extracted log-probability is 0. *)
Lemma extractor_single_zero :
  selective_log_softmax float32 (t3_div_scalar [[[0]]] 1) [[0%Z]] = Ok [[0]].
Proof.
  unfold selective_log_softmax, selective_log_softmax_logsumexp. simpl.
  unfold logsumexp1. simpl.
  replace (0 / 1) with 0 by field. rewrite exp_0, Rplus_0_r, ln_1.
  unfold t_sub, t2_map2. simpl. rewrite Rminus_diag. reflexivity.
Qed.

(** Over a single valid position the masked sum is the entry itself. *)
Lemma masked_sum_single (t : tensor2) :
  has_shape2 1 1 t -> _masked_sum t (IntMask [[1%Z]]) = get2 0 t 0 0.
Proof.
  intros [Hlen Hrow].
  destruct t as [|row [|row' t]]; try discriminate.
  inversion Hrow as [|r rs Hr _]; subst.
  destruct row as [|x [|x' row]]; try discriminate.
  unfold _masked_sum, t_sum, t_mul, get2. simpl. ring.
Qed.

(** C7: in the ratio-policy engine with clip_ratio = 5, at a position
    where the extracted log-probability minus the reference
    log-probability is 2, the raw ratio is e^2 > 5, the clipped indicator
    is 1, the clamped ratio is 5 and the per-token loss is -5 times the
    advantage of that position; these are the tensors the engine
    reduces. *)
Theorem ratio_policy_scenario (B L : nat)
    (per_token_logps original_logprobs advantages : tensor2) (b s : nat) :
  has_shape2 B L per_token_logps -> has_shape2 B L original_logprobs ->
  has_shape2 B L advantages -> (b < B)%nat -> (s < L)%nat ->
  get2 0 per_token_logps b s - get2 0 original_logprobs b s = 2 ->
  get2 0 (ratio_raw_ratio per_token_logps original_logprobs) b s = exp 2
  /\ 5 < exp 2
  /\ get2 0 (ratio_is_clipped per_token_logps original_logprobs 5) b s = 1
  /\ get2 0 (ratio_ratio per_token_logps original_logprobs 5) b s = 5
  /\ get2 0 (ratio_loss per_token_logps original_logprobs advantages 5) b s
     = - 5 * get2 0 advantages b s
  /\ forall dt shifted_logits input_ids loss_mask temperature p,
       selective_log_softmax dt (t3_div_scalar shifted_logits temperature) input_ids
       = Ok per_token_logps ->
       grpo_loss_ratio dt shifted_logits input_ids advantages original_logprobs
         loss_mask temperature 5 p
       = (fm <- final_mask (t3_div_scalar shifted_logits temperature) loss_mask p ;;
          Ok (_masked_sum
                (ratio_loss per_token_logps original_logprobs advantages 5) fm,
              _masked_sum (ratio_ratio per_token_logps original_logprobs 5) fm,
              _masked_sum (ratio_is_clipped per_token_logps original_logprobs 5)
                (IntMask loss_mask))).
Proof.
  intros Hlp Ho Ha Hb Hs Hd.
  assert (Hsub : has_shape2 B L (t_sub per_token_logps original_logprobs))
    by now apply has_shape2_t2_map2.
  assert (Hraw : get2 0 (ratio_raw_ratio per_token_logps original_logprobs) b s = exp 2).
  { unfold ratio_raw_ratio, t_exp.
    rewrite (get2_map exp _ 0 0 B L b s Hsub Hb Hs). unfold t_sub.
    rewrite (get2_t2_map2 Rminus _ _ 0 0 0 B L b s Hlp Ho Hb Hs). now rewrite Hd. }
  assert (Hrs : has_shape2 B L (ratio_raw_ratio per_token_logps original_logprobs))
    by now apply has_shape2_t2_map.
  pose proof exp_2_gt_5 as He.
  assert (Hclamp : get2 0 (ratio_ratio per_token_logps original_logprobs 5) b s = 5).
  { unfold ratio_ratio, t_clamp.
    rewrite (get2_map (fun x => clamp x 0 5) _ 0 0 B L b s Hrs Hb Hs), Hraw.
    apply clamp_above; lra. }
  split; [exact Hraw|]. split; [exact He|]. split; [|split; [exact Hclamp|split]].
  - unfold ratio_is_clipped, t_float, t_gt_scalar.
    rewrite (get2_map b2r _ false 0 B L b s) by (try apply has_shape2_t2_map; assumption).
    rewrite (get2_map (fun v => Rltb 5 v) _ 0 false B L b s Hrs Hb Hs), Hraw.
    rewrite (proj2 (Rltb_true 5 (exp 2)) He). reflexivity.
  - unfold ratio_loss, t_mul, t_neg.
    rewrite (get2_t2_map2 Rmult _ _ 0 0 0 B L b s); try assumption.
    + rewrite (get2_map Ropp _ 0 0 B L b s); try assumption.
      * rewrite Hclamp. ring.
      * unfold ratio_ratio, t_clamp. now apply has_shape2_t2_map.
    + apply has_shape2_t2_map. unfold ratio_ratio, t_clamp. now apply has_shape2_t2_map.
  - intros dt shifted_logits input_ids loss_mask temperature p Hx.
    rewrite grpo_loss_ratio_unfold, Hx. reflexivity.
Qed.

Lemma ratio_policy_scenario_witness :
  get2 0 [[0]] 0 0 - get2 0 [[-2]] 0 0 = 2
  /\ selective_log_softmax float32 (t3_div_scalar [[[0]]] 1) [[0%Z]] = Ok [[0]]
  /\ grpo_loss_ratio float32 [[[0]]] [[0%Z]] [[7]] [[-2]] [[1%Z]] 1 5 1
     = Ok (- 5 * 7, 5, 1).
Proof.
  assert (S : forall x : R, has_shape2 1 1 [[x]])
    by (intros x; split; [reflexivity | repeat constructor]).
  assert (Hd : get2 0 [[0]] 0 0 - get2 0 [[-2]] 0 0 = 2) by (unfold get2; simpl; lra).
  pose proof extractor_single_zero as Hx.
  destruct (ratio_policy_scenario 1 1 [[0]] [[-2]] [[7]] 0 0 (S 0) (S (-2)) (S 7)
              (le_n 1) (le_n 1) Hd) as (_ & _ & H1 & H2 & H3 & Hrun).
  split; [exact Hd|]. split; [exact Hx|].
  rewrite (Hrun float32 [[[0]]] [[0%Z]] [[1%Z]] 1 1 Hx).
  rewrite final_mask_skip by lra. simpl bind.
  rewrite !masked_sum_single, H1, H2, H3.
  - unfold get2. simpl. reflexivity.
  - unfold ratio_is_clipped, t_float, t_gt_scalar, ratio_raw_ratio, t_exp, t_sub.
    now apply has_shape2_t2_map, has_shape2_t2_map, has_shape2_t2_map,
      has_shape2_t2_map2.
  - unfold ratio_ratio, t_clamp, ratio_raw_ratio, t_exp, t_sub.
    now apply has_shape2_t2_map, has_shape2_t2_map, has_shape2_t2_map2.
  - unfold ratio_loss, t_mul, t_neg, ratio_ratio, t_clamp, ratio_raw_ratio, t_exp, t_sub.
    apply has_shape2_t2_map2; [|apply S].
    now apply has_shape2_t2_map, has_shape2_t2_map, has_shape2_t2_map,
      has_shape2_t2_map2.
Defined.


Lemma tensor2_ext (B L : nat) (x y : tensor2) :
  has_shape2 B L x -> has_shape2 B L y ->
  (forall b s, (b < B)%nat -> (s < L)%nat -> get2 0 x b s = get2 0 y b s) ->
  x = y.
Proof.
  intros Hx Hy H. apply (nth_ext x y [] []).
  - destruct Hx, Hy. lia.
  - intros b Hb. assert (Hb' : (b < B)%nat) by (destruct Hx; lia).
    apply (nth_ext _ _ 0 0).
    + rewrite (has_shape2_nth B L x b Hx Hb'), (has_shape2_nth B L y b Hy Hb').
      reflexivity.
    + intros s Hs. rewrite (has_shape2_nth B L x b Hx Hb') in Hs. now apply H.
Qed.

Section ClipZeroAdvantage.
Variables B L : nat.
Variables per_token_logps original_logprobs advantages : tensor2.
Variables epsilon_low epsilon_high clip_ratio : R.
Hypothesis Hlp : has_shape2 B L per_token_logps.
Hypothesis Ho : has_shape2 B L original_logprobs.
Hypothesis Ha : has_shape2 B L advantages.

Let coef_1 := clip_coef_1 per_token_logps original_logprobs clip_ratio.
Let coef_2 :=
  clip_coef_2 per_token_logps original_logprobs epsilon_low epsilon_high clip_ratio.
Let loss1 := clip_per_token_loss1 per_token_logps original_logprobs advantages clip_ratio.
Let loss2 :=
  clip_per_token_loss2 per_token_logps original_logprobs advantages
    epsilon_low epsilon_high clip_ratio.
Let is_clipped :=
  clip_is_clipped per_token_logps original_logprobs advantages
    epsilon_low epsilon_high clip_ratio.

Lemma clip_coef_1_shape : has_shape2 B L coef_1.
Proof.
  unfold coef_1, clip_coef_1, t_clamp, t_exp, t_sub.
  now apply has_shape2_t2_map, has_shape2_t2_map, has_shape2_t2_map2.
Qed.

Lemma clip_coef_2_shape : has_shape2 B L coef_2.
Proof.
  unfold coef_2, clip_coef_2, t_clamp. apply has_shape2_t2_map, clip_coef_1_shape.
Qed.

Lemma clip_loss1_shape : has_shape2 B L loss1.
Proof.
  unfold loss1, clip_per_token_loss1, t_mul, t_neg.
  apply has_shape2_t2_map2; [apply has_shape2_t2_map, clip_coef_1_shape | exact Ha].
Qed.

Lemma clip_loss2_shape : has_shape2 B L loss2.
Proof.
  unfold loss2, clip_per_token_loss2, t_mul, t_neg.
  apply has_shape2_t2_map2; [apply has_shape2_t2_map, clip_coef_2_shape | exact Ha].
Qed.

Lemma clip_is_clipped_shape : has_shape2 B L is_clipped.
Proof.
  unfold is_clipped, clip_is_clipped, t_float, t_lt.
  apply has_shape2_t2_map, has_shape2_t2_map2; [apply clip_loss1_shape | apply clip_loss2_shape].
Qed.

Lemma clip_losses_zero_advantage (b s : nat) :
  (b < B)%nat -> (s < L)%nat -> get2 0 advantages b s = 0 ->
  get2 0 loss1 b s = 0 /\ get2 0 loss2 b s = 0.
Proof.
  intros Hb Hs H0. split.
  - unfold loss1, clip_per_token_loss1, t_mul.
    rewrite (get2_t2_map2 Rmult _ _ 0 0 0 B L b s); try assumption.
    + rewrite H0. ring.
    + apply has_shape2_t2_map, clip_coef_1_shape.
  - unfold loss2, clip_per_token_loss2, t_mul.
    rewrite (get2_t2_map2 Rmult _ _ 0 0 0 B L b s); try assumption.
    + rewrite H0. ring.
    + apply has_shape2_t2_map, clip_coef_2_shape.
Qed.

Lemma clip_is_clipped_zero_advantage (b s : nat) :
  (b < B)%nat -> (s < L)%nat -> get2 0 advantages b s = 0 ->
  get2 0 is_clipped b s = 0.
Proof.
  intros Hb Hs H0.
  destruct (clip_losses_zero_advantage b s Hb Hs H0) as [E1 E2].
  unfold is_clipped, clip_is_clipped, t_float, t_lt. fold loss1 loss2.
  rewrite (get2_map b2r _ false 0 B L b s); try assumption.
  - rewrite (get2_t2_map2 Rltb loss1 loss2 0 0 false B L b s
               clip_loss1_shape clip_loss2_shape Hb Hs).
    rewrite E1, E2. unfold Rltb.
    destruct (Rlt_dec 0 0); [lra | reflexivity].
  - apply has_shape2_t2_map2; [apply clip_loss1_shape | apply clip_loss2_shape].
Qed.

Lemma clip_count_ignores_zero_advantage (mask1 mask2 : int_tensor2) :
  has_shape2 B L mask1 -> has_shape2 B L mask2 ->
  (forall b s, (b < B)%nat -> (s < L)%nat ->
     get2 0 advantages b s <> 0 -> get2 0%Z mask1 b s = get2 0%Z mask2 b s) ->
  _masked_sum is_clipped (IntMask mask1) = _masked_sum is_clipped (IntMask mask2).
Proof.
  intros H1 H2 Hagree. unfold _masked_sum. f_equal. simpl mask_values.
  assert (S1 : has_shape2 B L (t2_map IZR mask1)) by now apply has_shape2_t2_map.
  assert (S2 : has_shape2 B L (t2_map IZR mask2)) by now apply has_shape2_t2_map.
  apply (tensor2_ext B L); unfold t_mul.
  - apply has_shape2_t2_map2; [apply clip_is_clipped_shape | exact S1].
  - apply has_shape2_t2_map2; [apply clip_is_clipped_shape | exact S2].
  - intros b s Hb Hs.
    rewrite (get2_t2_map2 Rmult _ _ 0 0 0 B L b s clip_is_clipped_shape S1 Hb Hs).
    rewrite (get2_t2_map2 Rmult _ _ 0 0 0 B L b s clip_is_clipped_shape S2 Hb Hs).
    destruct (Req_dec (get2 0 advantages b s) 0) as [E | NE].
    + rewrite (clip_is_clipped_zero_advantage b s Hb Hs E). ring.
    + rewrite (get2_map IZR mask1 0%Z 0 B L b s H1 Hb Hs).
      rewrite (get2_map IZR mask2 0%Z 0 B L b s H2 Hb Hs).
      now rewrite (Hagree b s Hb Hs NE).
Qed.
End ClipZeroAdvantage.

(** C10: in the clip-policy engine, at a position whose advantage is
    exactly 0 both candidate losses are 0, the strict comparison
    L1 < L2 is false and the clipped indicator is 0, whatever the ratio
    and the clip bounds are; the term of that position in the
    clipped-token count is 0, and the count does not change when the
    loss mask changes at such positions only. *)
Theorem clip_zero_advantage_not_clipped (B L : nat)
    (per_token_logps original_logprobs advantages : tensor2)
    (epsilon_low epsilon_high clip_ratio : R) (loss_mask : int_tensor2) (b s : nat) :
  has_shape2 B L per_token_logps -> has_shape2 B L original_logprobs ->
  has_shape2 B L advantages -> has_shape2 B L loss_mask ->
  (b < B)%nat -> (s < L)%nat ->
  get2 0 advantages b s = 0 ->
  let is_clipped :=
    clip_is_clipped per_token_logps original_logprobs advantages
      epsilon_low epsilon_high clip_ratio in
  get2 0 (clip_per_token_loss1 per_token_logps original_logprobs advantages
            clip_ratio) b s = 0
  /\ get2 0 (clip_per_token_loss2 per_token_logps original_logprobs advantages
               epsilon_low epsilon_high clip_ratio) b s = 0
  /\ get2 0 is_clipped b s = 0
  /\ get2 0 (t_mul is_clipped (mask_values (IntMask loss_mask))) b s = 0
  /\ (forall mask',
        has_shape2 B L mask' ->
        (forall b' s', (b' < B)%nat -> (s' < L)%nat ->
           get2 0 advantages b' s' <> 0 ->
           get2 0%Z loss_mask b' s' = get2 0%Z mask' b' s') ->
        _masked_sum is_clipped (IntMask loss_mask)
        = _masked_sum is_clipped (IntMask mask'))
  /\ (forall dt shifted_logits input_ids temperature p,
        selective_log_softmax dt (t3_div_scalar shifted_logits temperature) input_ids
        = Ok per_token_logps ->
        exists loss ratio,
          grpo_loss_clip dt shifted_logits input_ids advantages original_logprobs
            loss_mask temperature epsilon_low epsilon_high clip_ratio p
          = (fm <- final_mask (t3_div_scalar shifted_logits temperature) loss_mask p ;;
             Ok (loss fm, ratio fm, _masked_sum is_clipped (IntMask loss_mask)))).
Proof.
  intros Hlp Ho Ha Hm Hb Hs H0 is_clipped.
  destruct (clip_losses_zero_advantage B L per_token_logps original_logprobs
              advantages epsilon_low epsilon_high clip_ratio Hlp Ho Ha b s Hb Hs H0)
    as [E1 E2].
  pose proof (clip_is_clipped_zero_advantage B L per_token_logps original_logprobs
                advantages epsilon_low epsilon_high clip_ratio Hlp Ho Ha b s Hb Hs H0)
    as E3.
  split; [exact E1|]. split; [exact E2|]. split; [exact E3|]. split; [|split].
  - unfold t_mul.
    rewrite (get2_t2_map2 Rmult _ _ 0 0 0 B L b s).
    + fold is_clipped in E3. rewrite E3. ring.
    + apply clip_is_clipped_shape; assumption.
    + simpl. now apply has_shape2_t2_map.
    + exact Hb.
    + exact Hs.
  - intros mask' Hm' Hagree.
    apply (clip_count_ignores_zero_advantage B L); assumption.
  - intros dt shifted_logits input_ids temperature p Hx.
    eexists (fun fm => _), (fun fm => _).
    rewrite grpo_loss_clip_unfold, Hx. reflexivity.
Qed.

Lemma clip_zero_advantage_not_clipped_witness :
  get2 0 [[0]] 0 0 = 0
  /\ get2 0 (clip_is_clipped [[0]] [[-2]] [[0]] (/ 5) (/ 5) 5) 0 0 = 0
  /\ exists loss ratio,
       grpo_loss_clip float32 [[[0]]] [[0%Z]] [[0]] [[-2]] [[1%Z]] 1 (/ 5) (/ 5) 5 1
       = Ok (loss, ratio, 0).
Proof.
  assert (S : forall x : R, has_shape2 1 1 [[x]])
    by (intros x; split; [reflexivity | repeat constructor]).
  assert (SZ : has_shape2 1 1 [[1%Z]]) by (split; [reflexivity | repeat constructor]).
  destruct (clip_zero_advantage_not_clipped 1 1 [[0]] [[-2]] [[0]] (/ 5) (/ 5) 5
              [[1%Z]] 0 0 (S 0) (S (-2)) (S 0) SZ (le_n 1) (le_n 1) eq_refl)
    as (_ & _ & H0 & _ & _ & Hrun).
  split; [reflexivity|]. split; [exact H0|].
  destruct (Hrun float32 [[[0]]] [[0%Z]] 1 1 extractor_single_zero)
    as (loss & ratio & E).
  exists (loss (IntMask [[1%Z]])), (ratio (IntMask [[1%Z]])).
  rewrite E, final_mask_skip by lra. simpl bind.
  rewrite masked_sum_single, H0; [reflexivity|].
  apply clip_is_clipped_shape; apply S.
Defined.

(* ================================================================== *)
(** * Concrete runs of the selector *)
(* ================================================================== *)

Lemma ln_4 : ln 4 = 2 * ln 2.
Proof.
  replace 4 with (2 * 2) by lra. rewrite ln_mult by lra. ring.
Qed.

Lemma ln_2_pos : 0 < ln 2.
Proof. rewrite <- ln_1. apply ln_increasing; lra. Qed.

(** 5^5 < 2^12 and 2^9 < 5^4, read through the logarithm. *)
Lemma ln_2_5_bounds : 5 * ln 5 < 12 * ln 2 /\ 9 * ln 2 < 4 * ln 5.
Proof.
  split.
  - assert (H : ln (5 ^ 5) < ln (2 ^ 12)) by (apply ln_increasing; simpl; lra).
    rewrite !ln_pow in H by lra. simpl INR in H. lra.
  - assert (H : ln (2 ^ 9) < ln (5 ^ 4)) by (apply ln_increasing; simpl; lra).
    rewrite !ln_pow in H by lra. simpl INR in H. lra.
Qed.

Lemma entropy1_3 (x1 x2 x3 w1 w2 w3 : R) :
  exp x1 = w1 -> exp x2 = w2 -> exp x3 = w3 ->
  entropy1 [x1; x2; x3]
  = ln (w1 + w2 + w3) - (w1 * x1 + w2 * x2 + w3 * x3) / (w1 + w2 + w3).
Proof.
  intros H1 H2 H3.
  assert (P1 := exp_pos x1). assert (P2 := exp_pos x2). assert (P3 := exp_pos x3).
  rewrite H1 in P1. rewrite H2 in P2. rewrite H3 in P3.
  unfold entropy1, logsumexp1, softmax1. simpl. rewrite H1, H2, H3.
  replace (w1 + (w2 + (w3 + 0))) with (w1 + w2 + w3) by ring.
  field. lra.
Qed.

Lemma exp_ln_over_half (w : R) : 0 < w -> exp (ln w / / 2) = w * w.
Proof.
  intros Hw. replace (ln w / / 2) with (ln w + ln w) by (field; lra).
  rewrite exp_plus, exp_ln by exact Hw. reflexivity.
Qed.


(** Entropies of the example at the scores as given: the second position
    has the higher entropy. *)
Lemma example_entropy_order :
  entropy1 [0; ln 4; ln 4] < entropy1 [ln 2; ln 2; ln 5].
Proof.
  rewrite (entropy1_3 0 (ln 4) (ln 4) 1 4 4)
    by (try apply exp_0; apply exp_ln; lra).
  rewrite (entropy1_3 (ln 2) (ln 2) (ln 5) 2 2 5) by (apply exp_ln; lra).
  replace (1 + 4 + 4) with 9 by lra. replace (2 + 2 + 5) with 9 by lra.
  rewrite ln_4. destruct ln_2_5_bounds as [H1 H2]. pose proof ln_2_pos. lra.
Qed.

(** With temperature 1/2 the order is reversed. *)
Lemma example_entropy_order_half :
  entropy1 [ln 2 / / 2; ln 2 / / 2; ln 5 / / 2]
  < entropy1 [0 / / 2; ln 4 / / 2; ln 4 / / 2].
Proof.
  rewrite (entropy1_3 (0 / / 2) (ln 4 / / 2) (ln 4 / / 2) 1 (4 * 4) (4 * 4)).
  - rewrite (entropy1_3 (ln 2 / / 2) (ln 2 / / 2) (ln 5 / / 2) (2 * 2) (2 * 2) (5 * 5))
      by (apply exp_ln_over_half; lra).
    replace (1 + 4 * 4 + 4 * 4) with 33 by lra.
    replace (2 * 2 + 2 * 2 + 5 * 5) with 33 by lra.
    rewrite ln_4. destruct ln_2_5_bounds as [H1 H2]. pose proof ln_2_pos. lra.
  - replace (0 / / 2) with 0 by (field; lra). apply exp_0.
  - apply exp_ln_over_half; lra.
  - apply exp_ln_over_half; lra.
Qed.

Lemma example_entropy_order_one :
  entropy1 [0 / 1; ln 4 / 1; ln 4 / 1] < entropy1 [ln 2 / 1; ln 2 / 1; ln 5 / 1].
Proof.
  replace (0 / 1) with 0 by field. replace (ln 4 / 1) with (ln 4) by field.
  replace (ln 2 / 1) with (ln 2) by field. replace (ln 5 / 1) with (ln 5) by field.
  exact example_entropy_order.
Qed.

Lemma rank_one_of_two (p : R) :
  0 < p < 1 ->
  (if (py_int (p * INR 2) <? 1)%Z then 1%Z else py_int (p * INR 2)) = 1%Z.
Proof.
  intros Hp. destruct (py_int_fraction p 2 Hp) as [-> Hfl]; [lia|].
  destruct (Z.ltb_spec (Zfloor (p * INR 2)) 1); lia.
Qed.

(** Of two valid positions with distinct entropies and a percentage in
    (0,1), the selector keeps exactly the one with the higher entropy. *)
Lemma select_top_pair_second (a b p : R) :
  0 < p < 1 -> a < b ->
  select_top [[a; b]] example_mask p = Ok [[false; true]].
Proof.
  intros Hp Hab. unfold select_top, example_mask.
  change (masked_select [[a; b]] (t_bool [[1%Z; 1%Z]])) with [a; b].
  change (numel [a; b]) with 2%nat. rewrite (rank_one_of_two p Hp).
  simpl. unfold kthvalue. simpl.
  destruct (Rle_dec a b) as [_|N]; [|lra]. simpl.
  unfold t_and, t_ge_scalar, t2_map2, t2_map, Rleb. simpl.
  destruct (Rle_dec b a) as [N|_]; [lra|].
  destruct (Rle_dec b b) as [_|N]; [reflexivity | lra].
Qed.

Lemma select_top_pair_first (a b p : R) :
  0 < p < 1 -> b < a ->
  select_top [[a; b]] example_mask p = Ok [[true; false]].
Proof.
  intros Hp Hab. unfold select_top, example_mask.
  change (masked_select [[a; b]] (t_bool [[1%Z; 1%Z]])) with [a; b].
  change (numel [a; b]) with 2%nat. rewrite (rank_one_of_two p Hp).
  simpl. unfold kthvalue. simpl.
  destruct (Rle_dec a b) as [N|_]; [lra|]. simpl.
  unfold t_and, t_ge_scalar, t2_map2, t2_map, Rleb. simpl.
  destruct (Rle_dec a a) as [_|N]; [|lra].
  destruct (Rle_dec a b) as [N|_]; [lra | reflexivity].
Qed.

Lemma example_selection (p : R) :
  0 < p < 1 ->
  highest_entropy_mask example_scores example_mask p = Ok [[false; true]].
Proof.
  intros Hp. rewrite highest_entropy_mask_select_top, position_entropy_pointwise.
  apply select_top_pair_second; [exact Hp | exact example_entropy_order].
Qed.

Lemma example_selection_one (p : R) :
  0 < p < 1 ->
  highest_entropy_mask (t3_div_scalar example_scores 1) example_mask p
  = Ok [[false; true]].
Proof.
  intros Hp. rewrite highest_entropy_mask_select_top, position_entropy_pointwise.
  apply select_top_pair_second; [exact Hp | exact example_entropy_order_one].
Qed.

Lemma example_selection_half (p : R) :
  0 < p < 1 ->
  highest_entropy_mask (t3_div_scalar example_scores (/ 2)) example_mask p
  = Ok [[true; false]].
Proof.
  intros Hp. rewrite highest_entropy_mask_select_top, position_entropy_pointwise.
  apply select_top_pair_first; [exact Hp | exact example_entropy_order_half].
Qed.

Lemma example_shapes :
  has_shape3 1 2 3 example_scores /\ has_shape2 1 2 example_mask
  /\ valid_count example_mask = 2%nat.
Proof.
  split; [|split].
  - split; [reflexivity|]. repeat constructor.
  - split; [reflexivity|]. repeat constructor.
  - reflexivity.
Qed.

Lemma highest_entropy_mask_cardinality_witness :
  has_shape3 1 2 3 example_scores /\ has_shape2 1 2 example_mask
  /\ (1 <= valid_count example_mask)%nat /\ 0 < / 2 < 1
  /\ exists m,
       highest_entropy_mask example_scores example_mask (/ 2) = Ok m
       /\ (1 <= Z.of_nat (count_true m))%Z
       /\ mask_subset m example_mask.
Proof.
  destruct example_shapes as (H1 & H2 & H3).
  assert (HN : (1 <= valid_count example_mask)%nat) by (rewrite H3; lia).
  assert (Hp : 0 < / 2 < 1) by lra.
  split; [exact H1|]. split; [exact H2|]. split; [exact HN|]. split; [exact Hp|].
  destruct (highest_entropy_mask_cardinality 1 2 3 example_scores example_mask (/ 2)
              H1 H2 HN Hp) as (m & Hm & _ & Hc & Hsub).
  exists m. split; [exact Hm|]. split; [lia | exact Hsub].
Defined.

(** C2 as stated fails: with N = 2 valid positions of distinct entropy
    and p = 7/8 the product p*N is 7/4, whose nearest integer is 2, but
    [int] truncates it to 1 and exactly one position is selected. *)
Lemma highest_entropy_mask_truncates :
  has_shape3 1 2 3 example_scores /\ has_shape2 1 2 example_mask
  /\ valid_count example_mask = 2%nat /\ 0 < 7 / 8 < 1
  /\ highest_entropy_mask example_scores example_mask (7 / 8) = Ok [[false; true]]
  /\ (forall r, is_round (7 / 8 * INR (valid_count example_mask)) r -> r = 2%Z)
  /\ ~ (Z.max 1 2 <= Z.of_nat (count_true [[false; true]]))%Z.
Proof.
  destruct example_shapes as (H1 & H2 & H3).
  split; [exact H1|]. split; [exact H2|]. split; [exact H3|].
  split; [lra|]. split; [apply example_selection; lra|]. split.
  - intros r Hr. rewrite H3 in Hr. unfold is_round in Hr. simpl INR in Hr.
    assert (L1 : IZR 1 < IZR r).
    { unfold Rabs in Hr. destruct (Rcase_abs (IZR r - 7 / 8 * (1 + 1))); lra. }
    assert (L2 : IZR r < IZR 3).
    { unfold Rabs in Hr. destruct (Rcase_abs (IZR r - 7 / 8 * (1 + 1))); lra. }
    apply lt_IZR in L1. apply lt_IZR in L2. lia.
  - unfold count_true. simpl. lia.
Qed.

(** C9: whenever the entropy-selection percentage is below 1, both
    engines reduce over the mask the selector returns on the
    temperature-divided scores, the tensor the log-probabilities are
    extracted from; the selector depends on the scores it is handed only
    through their entropy, with no temperature of its own; and on the
    same unscaled scores the selection differs between temperature 1 and
    temperature 1/2. *)
Theorem selection_on_scaled_scores :
  (forall dt shifted_logits input_ids advantages original_logprobs loss_mask
          temperature epsilon_low epsilon_high clip_ratio p,
      p < 1 ->
      grpo_loss_clip dt shifted_logits input_ids advantages original_logprobs
        loss_mask temperature epsilon_low epsilon_high clip_ratio p
      = (logps <- selective_log_softmax dt
                    (t3_div_scalar shifted_logits temperature) input_ids ;;
         m <- highest_entropy_mask
                (t3_div_scalar shifted_logits temperature) loss_mask p ;;
         Ok (_masked_sum
               (clip_per_token_loss logps original_logprobs advantages
                  epsilon_low epsilon_high clip_ratio) (BoolMask m),
             _masked_sum
               (clip_coef_2 logps original_logprobs epsilon_low epsilon_high
                  clip_ratio) (BoolMask m),
             _masked_sum
               (clip_is_clipped logps original_logprobs advantages
                  epsilon_low epsilon_high clip_ratio) (IntMask loss_mask))))
  /\ (forall dt shifted_logits input_ids advantages original_logprobs loss_mask
             temperature clip_ratio p,
      p < 1 ->
      grpo_loss_ratio dt shifted_logits input_ids advantages original_logprobs
        loss_mask temperature clip_ratio p
      = (logps <- selective_log_softmax dt
                    (t3_div_scalar shifted_logits temperature) input_ids ;;
         m <- highest_entropy_mask
                (t3_div_scalar shifted_logits temperature) loss_mask p ;;
         Ok (_masked_sum (ratio_loss logps original_logprobs advantages clip_ratio)
               (BoolMask m),
             _masked_sum (ratio_ratio logps original_logprobs clip_ratio) (BoolMask m),
             _masked_sum (ratio_is_clipped logps original_logprobs clip_ratio)
               (IntMask loss_mask))))
  /\ (forall logits logits' loss_mask p,
      position_entropy logits = position_entropy logits' ->
      highest_entropy_mask logits loss_mask p
      = highest_entropy_mask logits' loss_mask p)
  /\ (highest_entropy_mask (t3_div_scalar example_scores 1) example_mask (/ 2)
      = Ok [[false; true]]
      /\ highest_entropy_mask (t3_div_scalar example_scores (/ 2)) example_mask (/ 2)
         = Ok [[true; false]]).
Proof.
  split; [|split; [|split; [|split]]].
  - intros. rewrite grpo_loss_clip_unfold, final_mask_below_one by assumption.
    destruct (selective_log_softmax dt _ input_ids) as [lp|e]; simpl; [|reflexivity].
    destruct (highest_entropy_mask _ loss_mask p) as [m|e]; reflexivity.
  - intros. rewrite grpo_loss_ratio_unfold, final_mask_below_one by assumption.
    destruct (selective_log_softmax dt _ input_ids) as [lp|e]; simpl; [|reflexivity].
    destruct (highest_entropy_mask _ loss_mask p) as [m|e]; reflexivity.
  - intros logits logits' loss_mask p E.
    rewrite !highest_entropy_mask_select_top, E. reflexivity.
  - apply example_selection_one; lra.
  - apply example_selection_half; lra.
Qed.

Lemma selection_on_scaled_scores_witness :
  / 2 < 1
  /\ grpo_loss_ratio float32 example_scores [[0%Z; 0%Z]] [[1; 1]] [[0; 0]]
       example_mask (/ 2) 5 (/ 2)
     = (logps <- selective_log_softmax float32
                   (t3_div_scalar example_scores (/ 2)) [[0%Z; 0%Z]] ;;
        m <- highest_entropy_mask (t3_div_scalar example_scores (/ 2))
               example_mask (/ 2) ;;
        Ok (_masked_sum (ratio_loss logps [[0; 0]] [[1; 1]] 5) (BoolMask m),
            _masked_sum (ratio_ratio logps [[0; 0]] 5) (BoolMask m),
            _masked_sum (ratio_is_clipped logps [[0; 0]] 5) (IntMask example_mask))).
Proof.
  assert (Hp : / 2 < 1) by lra.
  split; [exact Hp|].
  exact (proj1 (proj2 selection_on_scaled_scores) float32 example_scores
           [[0%Z; 0%Z]] [[1; 1]] [[0; 0]] example_mask (/ 2) 5 (/ 2) Hp).
Defined.

(* ================================================================== *)
(** * Masked reducer *)
(* ================================================================== *)

Lemma Rsum_map2_zero_r (xs ws : list R) :
  Forall (fun w => w = 0) ws -> Rsum (map2 Rmult xs ws) = 0.
Proof.
  intros H. revert xs. induction H as [|w ws Hw _ IH]; intros [|x xs]; simpl;
    try reflexivity.
  rewrite IH, Hw. ring.
Qed.

Lemma t_sum_mul_zero_r (x w : tensor2) :
  Forall (Forall (fun e => e = 0)) w -> t_sum (t_mul x w) = 0.
Proof.
  intros H. unfold t_sum, t_mul, t2_map2. revert x.
  induction H as [|wr w Hwr _ IH]; intros [|xr x]; simpl; try reflexivity.
  rewrite IH, (Rsum_map2_zero_r xr wr Hwr). ring.
Qed.

(** X1: on a tensor (of finite entries) and a mask of one (batch, seq)
    shape, a mask without a valid position reduces the tensor to 0: an
    all-zero integer mask and an all-false boolean mask. *)
Theorem masked_sum_zero_mask (B L : nat) (tensor : tensor2) :
  has_shape2 B L tensor ->
  (forall loss_mask : int_tensor2,
      has_shape2 B L loss_mask ->
      Forall (Forall (fun z => z = 0%Z)) loss_mask ->
      _masked_sum tensor (IntMask loss_mask) = 0)
  /\ (forall m : bool_tensor2,
      has_shape2 B L m ->
      Forall (Forall (fun b => b = false)) m ->
      _masked_sum tensor (BoolMask m) = 0).
Proof.
  intros _.
  split; intros m _ H; unfold _masked_sum; apply t_sum_mul_zero_r; simpl;
    unfold t2_map; rewrite Forall_map; (eapply Forall_impl; [|exact H]);
    intros row Hrow; rewrite Forall_map; (eapply Forall_impl; [|exact Hrow]);
    intros e ->; reflexivity.
Qed.

Lemma masked_sum_zero_mask_witness :
  has_shape2 1 2 [[3; 4]] /\ has_shape2 1 2 [[0%Z; 0%Z]]
  /\ Forall (Forall (fun z => z = 0%Z)) [[0%Z; 0%Z]]
  /\ _masked_sum [[3; 4]] (IntMask [[0%Z; 0%Z]]) = 0.
Proof.
  assert (Ht : has_shape2 1 2 [[3; 4]]) by (split; [reflexivity | repeat constructor]).
  assert (Hm : has_shape2 1 2 [[0%Z; 0%Z]])
    by (split; [reflexivity | repeat constructor]).
  assert (H : Forall (Forall (fun z => z = 0%Z)) [[0%Z; 0%Z]])
    by (repeat constructor).
  split; [exact Ht|]. split; [exact Hm|]. split; [exact H|].
  exact (proj1 (masked_sum_zero_mask 1 2 [[3; 4]] Ht) [[0%Z; 0%Z]] Hm H).
Defined.

Lemma Rsum_map2_add (xs ys ws : list R) :
  length xs = length ys ->
  Rsum (map2 Rmult (map2 Rplus xs ys) ws)
  = Rsum (map2 Rmult xs ws) + Rsum (map2 Rmult ys ws).
Proof.
  revert ys ws. induction xs as [|x xs IH]; intros [|y ys] [|w ws] H; simpl in *;
    try discriminate; try lra.
  rewrite (IH ys ws) by lia. ring.
Qed.

Lemma Rsum_map2_scale (c : R) (xs ws : list R) :
  Rsum (map2 Rmult (map (Rmult c) xs) ws) = c * Rsum (map2 Rmult xs ws).
Proof.
  revert ws. induction xs as [|x xs IH]; intros [|w ws]; simpl; try lra.
  rewrite IH. ring.
Qed.

Lemma t_sum_mul_add (B L : nat) (x y w : tensor2) :
  has_shape2 B L x -> has_shape2 B L y ->
  t_sum (t_mul (t_add x y) w) = t_sum (t_mul x w) + t_sum (t_mul y w).
Proof.
  unfold has_shape2, t_sum, t_mul, t_add, t2_map2. revert B y w.
  induction x as [|xr x IH]; intros B [|yr y] [|wr w] [Hx Fx] [Hy Fy]; simpl in *;
    subst; try discriminate; try lra.
  inversion Fx; inversion Fy; subst.
  rewrite (IH (length x) y w); [| split; auto | split; auto; lia].
  rewrite Rsum_map2_add by lia. ring.
Qed.

Lemma t_sum_mul_scale (c : R) (x w : tensor2) :
  t_sum (t_mul (t_scale c x) w) = c * t_sum (t_mul x w).
Proof.
  unfold t_sum, t_mul, t_scale, t2_map2, t2_map. revert w.
  induction x as [|xr x IH]; intros [|wr w]; simpl; try lra.
  rewrite IH, Rsum_map2_scale. ring.
Qed.

(** X2: under a fixed mask the reducer is linear in its tensor
    argument: the masked sum of x + y (two tensors of one shape) is the
    sum of the masked sums, and scaling the tensor scales the masked
    sum. *)
Theorem masked_sum_linear (B L : nat) (x y : tensor2) (c : R) (m : mask) :
  has_shape2 B L x -> has_shape2 B L y ->
  _masked_sum (t_add x y) m = _masked_sum x m + _masked_sum y m
  /\ _masked_sum (t_scale c x) m = c * _masked_sum x m.
Proof.
  intros Hx Hy. unfold _masked_sum. split.
  - now apply (t_sum_mul_add B L).
  - apply t_sum_mul_scale.
Qed.

Lemma masked_sum_linear_witness :
  has_shape2 1 2 [[1; 2]] /\ has_shape2 1 2 [[3; 4]]
  /\ _masked_sum (t_add [[1; 2]] [[3; 4]]) (IntMask [[1%Z; 0%Z]])
     = _masked_sum [[1; 2]] (IntMask [[1%Z; 0%Z]])
       + _masked_sum [[3; 4]] (IntMask [[1%Z; 0%Z]]).
Proof.
  assert (S : forall a b : R, has_shape2 1 2 [[a; b]])
    by (intros a b; split; [reflexivity | repeat constructor]).
  split; [apply S|]. split; [apply S|].
  exact (proj1 (masked_sum_linear 1 2 [[1; 2]] [[3; 4]] 1 (IntMask [[1%Z; 0%Z]])
                  (S 1 2) (S 3 4))).
Defined.

(** X3: positions where the loss mask is 0 never influence the masked
    sum: two tensors that agree wherever the mask is nonzero have the
    same masked sum. *)
Theorem masked_sum_ignores_masked_out (B L : nat) (x y : tensor2)
    (loss_mask : int_tensor2) :
  has_shape2 B L x -> has_shape2 B L y -> has_shape2 B L loss_mask ->
  (forall b s, (b < B)%nat -> (s < L)%nat ->
     get2 0%Z loss_mask b s <> 0%Z -> get2 0 x b s = get2 0 y b s) ->
  _masked_sum x (IntMask loss_mask) = _masked_sum y (IntMask loss_mask).
Proof.
  intros Hx Hy Hm Hagree. unfold _masked_sum. f_equal. simpl mask_values.
  assert (Sm : has_shape2 B L (t2_map IZR loss_mask)) by now apply has_shape2_t2_map.
  apply (tensor2_ext B L); unfold t_mul.
  - now apply has_shape2_t2_map2.
  - now apply has_shape2_t2_map2.
  - intros b s Hb Hs.
    rewrite (get2_t2_map2 Rmult _ _ 0 0 0 B L b s Hx Sm Hb Hs).
    rewrite (get2_t2_map2 Rmult _ _ 0 0 0 B L b s Hy Sm Hb Hs).
    rewrite (get2_map IZR loss_mask 0%Z 0 B L b s Hm Hb Hs).
    destruct (Z.eq_dec (get2 0%Z loss_mask b s) 0) as [E | NE].
    + rewrite E. simpl. ring.
    + now rewrite (Hagree b s Hb Hs NE).
Qed.

Lemma masked_sum_ignores_masked_out_witness :
  _masked_sum [[1; 2]] (IntMask [[1%Z; 0%Z]])
  = _masked_sum [[1; 5]] (IntMask [[1%Z; 0%Z]]).
Proof.
  assert (S : forall a b : R, has_shape2 1 2 [[a; b]])
    by (intros a b; split; [reflexivity | repeat constructor]).
  assert (SZ : has_shape2 1 2 [[1%Z; 0%Z]])
    by (split; [reflexivity | repeat constructor]).
  apply (masked_sum_ignores_masked_out 1 2 [[1; 2]] [[1; 5]] [[1%Z; 0%Z]]
           (S 1 2) (S 1 5) SZ).
  intros [|b] [|[|s]] Hb Hs Hm; try lia; try reflexivity.
  exfalso. apply Hm. reflexivity.
Defined.

Lemma Rsum_map2_scale_r (c : R) (xs ws : list R) :
  Rsum (map2 Rmult xs (map (Rmult c) ws)) = c * Rsum (map2 Rmult xs ws).
Proof.
  revert ws. induction xs as [|x xs IH]; intros [|w ws]; simpl; try lra.
  rewrite IH. ring.
Qed.

(** X4: the reducer multiplies by the mask entries as they are: an
    integer mask is a weight, not a flag.  Multiplying every mask entry
    by an integer c multiplies the masked sum by c (a mask entry 2
    counts its position twice). *)
Theorem masked_sum_mask_weight (tensor : tensor2) (loss_mask : int_tensor2) (c : Z) :
  _masked_sum tensor (IntMask (t2_map (Z.mul c) loss_mask))
  = IZR c * _masked_sum tensor (IntMask loss_mask).
Proof.
  unfold _masked_sum, t_sum, t_mul, t2_map2. simpl mask_values. unfold t2_map.
  revert loss_mask.
  induction tensor as [|xr x IH]; intros [|mr m]; simpl; try lra.
  rewrite IH, !map_map.
  rewrite (map_ext (fun z => IZR (c * z)) (fun z => IZR c * IZR z))
    by (intros z; apply mult_IZR).
  rewrite <- (map_map IZR (Rmult (IZR c))), Rsum_map2_scale_r. ring.
Qed.

(* ================================================================== *)
(** * Score shifter: the last position *)
(* ================================================================== *)

Lemma removelast_ext {A : Type} (l l' : list A) (d : A) :
  length l = length l' ->
  (forall i, (S i < length l)%nat -> nth i l d = nth i l' d) ->
  removelast l = removelast l'.
Proof.
  intros Hlen H. apply (nth_ext _ _ d d).
  - rewrite !length_removelast. lia.
  - intros i Hi. rewrite length_removelast in Hi.
    rewrite !nth_removelast by lia. apply H. lia.
Qed.

(** X5: the shifter never reads the last input position: two scores
    tensors of one shape that agree at every position but the last are
    shifted to the same tensor. *)
Theorem shift_logits_ignores_last (B L V : nat) (logits logits' : tensor3) :
  has_shape3 B L V logits -> has_shape3 B L V logits' ->
  (forall b i, (b < B)%nat -> (S i < L)%nat -> get3 logits b i = get3 logits' b i) ->
  shift_logits (B, L, V) logits = shift_logits (B, L, V) logits'.
Proof.
  intros [HB HF] [HB' HF'] Hagree.
  rewrite (shift_logits_rows B L V logits HB), (shift_logits_rows B L V logits' HB').
  apply (nth_ext _ _ (repeat 0 V :: removelast []) (repeat 0 V :: removelast [])).
  - rewrite !length_map. lia.
  - intros b Hb. rewrite length_map in Hb.
    rewrite !(map_nth (fun row => repeat 0 V :: removelast row)). f_equal.
    rewrite Forall_forall in HF, HF'.
    destruct (HF (nth b logits [])) as [Hl _]; [apply nth_In; lia|].
    destruct (HF' (nth b logits' [])) as [Hl' _]; [apply nth_In; lia|].
    apply (removelast_ext _ _ []); [lia|].
    intros i Hi. apply (Hagree b i); lia.
Qed.

Lemma shift_logits_ignores_last_witness :
  shift_logits (1, 2, 1)%nat [[[1]; [2]]] = shift_logits (1, 2, 1)%nat [[[1]; [7]]].
Proof.
  assert (S : forall a b : R, has_shape3 1 2 1 [[[a]; [b]]])
    by (intros a b; split; [reflexivity | repeat constructor]).
  apply (shift_logits_ignores_last 1 2 1 _ _ (S 1 2) (S 1 7)).
  intros [|b] [|i] Hb Hi; try lia. reflexivity.
Defined.

(* ================================================================== *)
(** * Entropy: upper bound and uniform scores *)
(* ================================================================== *)

Lemma ln_le_minus_1 (z : R) : 0 < z -> ln z <= z - 1.
Proof.
  intros Hz. pose proof (exp_ineq1_le (ln z)) as H.
  rewrite exp_ln in H by exact Hz. lra.
Qed.

Lemma weighted_scores_lower (S n c : R) (l : list R) :
  0 < S -> 0 < n -> c = ln S - ln n ->
  c * (Rsum (map exp l) / S) - (INR (length l) / n - Rsum (map exp l) / S)
  <= Rsum (map2 Rmult (map (fun x => exp x / S) l) l).
Proof.
  intros HS Hn Hc. induction l as [|a l IH].
  - simpl. unfold Rdiv. lra.
  - change (length (a :: l)) with (Datatypes.S (length l)). rewrite S_INR.
    simpl map. simpl map2. simpl Rsum.
    assert (He : 0 < exp a) by apply exp_pos.
    assert (Hz : c - a <= S / (n * exp a) - 1).
    { rewrite <- (ln_exp a) at 1. rewrite Hc.
      replace (ln S - ln n - ln (exp a)) with (ln (S / (n * exp a))).
      - apply ln_le_minus_1. apply Rdiv_lt_0_compat; [exact HS | nra].
      - unfold Rdiv. rewrite ln_mult, ln_Rinv, ln_mult; try lra; try nra.
        apply Rinv_0_lt_compat. nra. }
    assert (Hw : 0 < exp a / S) by (apply Rdiv_lt_0_compat; assumption).
    assert (Hstep : exp a / S * (c - a) <= / n - exp a / S).
    { replace (/ n - exp a / S) with (exp a / S * (S / (n * exp a) - 1))
        by (field; lra).
      apply Rmult_le_compat_l; lra. }
    unfold Rdiv in *. lra.
Qed.

Lemma entropy1_le_ln (v : list R) : v <> [] -> entropy1 v <= ln (INR (length v)).
Proof.
  intros Hv. unfold entropy1.
  assert (HS : 0 < Rsum (map exp v)) by now apply Rsum_exp_pos.
  assert (Hn : 0 < INR (length v)).
  { apply lt_0_INR. destruct v; [congruence | simpl; lia]. }
  pose proof (weighted_scores_lower (Rsum (map exp v)) (INR (length v))
                (ln (Rsum (map exp v)) - ln (INR (length v))) v HS Hn eq_refl) as H.
  replace (Rsum (map exp v) / Rsum (map exp v)) with 1 in H by (field; lra).
  replace (INR (length v) / INR (length v)) with 1 in H by (field; lra).
  unfold softmax1, logsumexp1. lra.
Qed.

(** X6: the entropy at every position is at most ln(vocab), for scores
    of shape (batch, seq, vocab) with a non-empty vocabulary axis. *)
Theorem entropy_at_most_ln_vocab (B L V : nat) (logits : tensor3) :
  has_shape3 B L V logits -> (1 <= V)%nat ->
  all_entries (fun e => e <= ln (INR V)) (position_entropy logits).
Proof.
  intros [_ HF] HV. rewrite position_entropy_pointwise.
  unfold all_entries, t2_map. rewrite Forall_map.
  eapply Forall_impl; [|exact HF]. intros row [_ Hv].
  rewrite Forall_map. eapply Forall_impl; [|exact Hv].
  intros v Hlen. rewrite <- Hlen. apply entropy1_le_ln.
  intros ->. simpl in Hlen. lia.
Qed.

Lemma entropy_at_most_ln_vocab_witness :
  has_shape3 1 2 2 [[[1; 2]; [0; 3]]] /\ (1 <= 2)%nat
  /\ all_entries (fun e => e <= ln (INR 2)) (position_entropy [[[1; 2]; [0; 3]]]).
Proof.
  assert (H : has_shape3 1 2 2 [[[1; 2]; [0; 3]]]).
  { split; [reflexivity|]. repeat constructor. }
  split; [exact H|]. split; [lia|].
  apply (entropy_at_most_ln_vocab 1 2 2 [[[1; 2]; [0; 3]]] H). lia.
Defined.

Lemma Rsum_map_repeat (f : R -> R) (c : R) (n : nat) :
  Rsum (map f (repeat c n)) = INR n * f c.
Proof.
  induction n as [|n IH]; [simpl; ring|].
  rewrite S_INR. simpl. rewrite IH. ring.
Qed.

Lemma Rsum_map2_repeat (f : R -> R) (c : R) (n : nat) :
  Rsum (map2 Rmult (map f (repeat c n)) (repeat c n)) = INR n * (f c * c).
Proof.
  induction n as [|n IH]; [simpl; ring|].
  rewrite S_INR. simpl. rewrite IH. ring.
Qed.

(** A constant score vector has the entropy of the uniform distribution. *)
Lemma entropy1_uniform (c : R) (n : nat) :
  (1 <= n)%nat -> entropy1 (repeat c n) = ln (INR n).
Proof.
  intros Hn. assert (HN : 0 < INR n) by (apply lt_0_INR; lia).
  unfold entropy1, logsumexp1, softmax1.
  rewrite Rsum_map2_repeat, Rsum_map_repeat.
  pose proof (exp_pos c) as He.
  rewrite ln_mult, ln_exp by assumption. field. split; lra.
Qed.

Lemma get2_position_entropy (B L V : nat) (logits : tensor3) (b s : nat) :
  has_shape3 B L V logits -> (b < B)%nat -> (s < L)%nat ->
  get2 0 (position_entropy logits) b s = entropy1 (get3 logits b s).
Proof.
  intros [HB HF] Hb Hs. rewrite position_entropy_pointwise.
  apply (get2_map entropy1 logits [] 0 B L b s); [|exact Hb | exact Hs].
  split; [exact HB|]. eapply Forall_impl; [|exact HF]. now intros row [H _].
Qed.

Lemma get3_div_scalar (B L V : nat) (logits : tensor3) (c : R) (b s : nat) :
  has_shape3 B L V logits -> (b < B)%nat -> (s < L)%nat ->
  get3 (t3_div_scalar logits c) b s = map (fun x => x / c) (get3 logits b s).
Proof.
  intros [HB HF] Hb Hs. unfold t3_div_scalar.
  apply (get2_map (map (fun x => x / c)) logits [] [] B L b s); [|exact Hb | exact Hs].
  split; [exact HB|]. eapply Forall_impl; [|exact HF]. now intros row [H _].
Qed.

Lemma shifted_first_position (B L V : nat) (logits : tensor3) (c : R) (b : nat) :
  has_shape3 B L V logits -> (1 <= L)%nat -> (b < B)%nat ->
  get3 (t3_div_scalar (shift_logits (B, L, V) logits) c) b 0 = repeat (0 / c) V.
Proof.
  intros Hl HL Hb.
  assert (Hsh : has_shape3 B L V (shift_logits (B, L, V) logits)).
  { destruct Hl as [HB HF]. rewrite (shift_logits_rows B L V logits HB).
    split; [now rewrite length_map|].
    rewrite Forall_map. eapply Forall_impl; [|exact HF].
    intros row [Hlen Hv]. simpl. split.
    - rewrite length_removelast. lia.
    - constructor; [apply repeat_length | now apply Forall_removelast]. }
  rewrite (get3_div_scalar B L V _ c b 0 Hsh Hb) by lia.
  destruct Hl as [HB HF]. rewrite (shift_logits_rows B L V logits HB).
  unfold get3.
  rewrite (nth_indep _ [] (repeat 0 V :: removelast []))
    by (rewrite length_map; lia).
  rewrite (map_nth (fun row => repeat 0 V :: removelast row)). simpl.
  rewrite map_repeat. reflexivity.
Qed.

Lemma has_shape3_shift_div (B L V : nat) (logits : tensor3) (c : R) :
  has_shape3 B L V logits -> (1 <= L)%nat ->
  has_shape3 B L V (t3_div_scalar (shift_logits (B, L, V) logits) c).
Proof.
  intros [HB HF] HL. apply has_shape3_div.
  rewrite (shift_logits_rows B L V logits HB).
  split; [now rewrite length_map|].
  rewrite Forall_map. eapply Forall_impl; [|exact HF].
  intros row [Hlen Hv]. simpl. split.
  - rewrite length_removelast. lia.
  - constructor; [apply repeat_length | now apply Forall_removelast].
Qed.

(** X7: in exact arithmetic, on shifted scores divided by a nonzero
    temperature, the first position of every sequence (the prepended
    zero vector) has entropy ln(vocab), the largest entropy a position
    can have in exact arithmetic. *)
Theorem shifted_first_position_entropy (B L V : nat) (logits : tensor3)
    (temperature : R) (b : nat) :
  has_shape3 B L V logits -> (1 <= L)%nat -> (1 <= V)%nat -> (b < B)%nat ->
  temperature <> 0 ->
  let scaled := t3_div_scalar (shift_logits (B, L, V) logits) temperature in
  get2 0 (position_entropy scaled) b 0 = ln (INR V)
  /\ all_entries (fun e => e <= ln (INR V)) (position_entropy scaled).
Proof.
  intros Hl HL HV Hb _ scaled.
  pose proof (has_shape3_shift_div B L V logits temperature Hl HL) as Hs.
  split.
  - rewrite (get2_position_entropy B L V scaled b 0 Hs Hb) by lia.
    unfold scaled. rewrite (shifted_first_position B L V logits temperature b Hl HL Hb).
    now apply entropy1_uniform.
  - rewrite position_entropy_pointwise.
    destruct Hs as [_ HF]. unfold all_entries, t2_map. rewrite Forall_map.
    eapply Forall_impl; [|exact HF]. intros row [_ Hv].
    rewrite Forall_map. eapply Forall_impl; [|exact Hv].
    intros v Hlen. rewrite <- Hlen. apply entropy1_le_ln.
    intros ->. simpl in Hlen. lia.
Qed.

Lemma shifted_first_position_entropy_witness :
  has_shape3 1 2 2 [[[1; 2]; [0; 3]]] /\ (1 <= 2)%nat /\ (0 < 1)%nat /\ 2 <> 0
  /\ get2 0 (position_entropy
               (t3_div_scalar (shift_logits (1, 2, 2)%nat [[[1; 2]; [0; 3]]]) 2)) 0 0
     = ln (INR 2).
Proof.
  assert (H : has_shape3 1 2 2 [[[1; 2]; [0; 3]]]).
  { split; [reflexivity|]. repeat constructor. }
  assert (H2 : 2 <> 0) by lra.
  split; [exact H|]. split; [lia|]. split; [lia|]. split; [exact H2|].
  apply (shifted_first_position_entropy 1 2 2 [[[1; 2]; [0; 3]]] 2 0 H);
    try lia; exact H2.
Defined.

Lemma ln_INR_nonneg (n : nat) : (1 <= n)%nat -> 0 <= ln (INR n).
Proof.
  intros Hn. rewrite <- ln_1. apply ln_le; [lra|].
  change 1 with (INR 1). apply le_INR. exact Hn.
Qed.

Lemma position_entropy_range (B L V : nat) (logits : tensor3) :
  has_shape3 B L V logits -> (1 <= V)%nat ->
  all_entries (fun e => 0 <= e <= ln (INR V)) (position_entropy logits).
Proof.
  intros [_ HF] HV. rewrite position_entropy_pointwise.
  unfold all_entries, t2_map. rewrite Forall_map.
  eapply Forall_impl; [|exact HF]. intros row [_ Hv].
  rewrite Forall_map. eapply Forall_impl; [|exact Hv].
  intros v Hlen.
  assert (Hne : v <> []) by (intros ->; simpl in Hlen; lia).
  split; [now apply entropy1_nonneg | rewrite <- Hlen; now apply entropy1_le_ln].
Qed.

Lemma masked_row_bounds (c : R) (xs : list R) (ms : list Z) :
  0 <= c -> Forall (fun e => 0 <= e <= c) xs ->
  Forall (fun z => z = 0%Z \/ z = 1%Z) ms ->
  0 <= Rsum (map2 Rmult xs (map IZR ms))
  <= c * INR (length (filter (fun b : bool => b) (map z2b ms))).
Proof.
  intros Hc Hx. revert ms.
  induction Hx as [|x xs Hx0 _ IH]; intros ms Hm.
  - simpl. pose proof (pos_INR (length (filter (fun b : bool => b) (map z2b ms)))).
    split; [lra | nra].
  - destruct Hm as [|z ms Hz Hm]; simpl.
    + lra.
    + specialize (IH ms Hm). destruct Hz as [-> | ->].
      * simpl. lra.
      * change (0 <= x * 1 + Rsum (map2 Rmult xs (map IZR ms))
                <= c * INR (S (length (filter (fun b : bool => b) (map z2b ms))))).
        rewrite S_INR. lra.
Qed.

Lemma masked_sum_bounds (c : R) (x : tensor2) (m : int_tensor2) :
  0 <= c -> all_entries (fun e => 0 <= e <= c) x -> binary_mask m ->
  0 <= _masked_sum x (IntMask m) <= c * INR (valid_count m).
Proof.
  intros Hc Hx. unfold _masked_sum, t_sum, t_mul, t2_map2, valid_count, count_true,
    t_bool, binary_mask. simpl mask_values. unfold t2_map. revert m.
  induction Hx as [|xr x Hxr _ IH]; intros m Hm.
  - simpl.
    pose proof (pos_INR (length (filter (fun b : bool => b) (concat (map (map z2b) m))))).
    split; [lra | nra].
  - destruct Hm as [|mr m Hmr Hm]; simpl.
    + lra.
    + rewrite filter_app, length_app, plus_INR.
      pose proof (masked_row_bounds c xr mr Hc Hxr Hmr). specialize (IH m Hm). lra.
Qed.

(** X8: in exact arithmetic, for scores with a non-empty vocabulary axis
    and a loss mask of zeros and ones, [compute_entropy] returns a value
    between 0 and N * ln(vocab), N being the number of valid
    positions. *)
Theorem compute_entropy_bounds (B L V : nat) (shifted_logits : tensor3)
    (loss_mask : int_tensor2) (temperature : R) :
  has_shape3 B L V shifted_logits -> (1 <= V)%nat -> binary_mask loss_mask ->
  0 <= compute_entropy shifted_logits loss_mask temperature
  <= INR (valid_count loss_mask) * ln (INR V).
Proof.
  intros Hl HV Hm. unfold compute_entropy.
  pose proof (position_entropy_range B L V (t3_div_scalar shifted_logits temperature)
                (has_shape3_div B L V shifted_logits temperature Hl) HV) as Hr.
  pose proof (masked_sum_bounds (ln (INR V)) _ loss_mask (ln_INR_nonneg V HV) Hr Hm).
  lra.
Qed.

Lemma compute_entropy_bounds_witness :
  has_shape3 1 2 2 [[[1; 2]; [0; 3]]] /\ (1 <= 2)%nat /\ binary_mask [[1%Z; 0%Z]]
  /\ 0 <= compute_entropy [[[1; 2]; [0; 3]]] [[1%Z; 0%Z]] 2
     <= INR (valid_count [[1%Z; 0%Z]]) * ln (INR 2).
Proof.
  assert (H : has_shape3 1 2 2 [[[1; 2]; [0; 3]]]).
  { split; [reflexivity|]. repeat constructor. }
  assert (Hm : binary_mask [[1%Z; 0%Z]]).
  { constructor; [|constructor].
    constructor; [right; reflexivity|].
    constructor; [left; reflexivity | constructor]. }
  split; [exact H|]. split; [lia|]. split; [exact Hm|].
  apply (compute_entropy_bounds 1 2 2 [[[1; 2]; [0; 3]]] [[1%Z; 0%Z]] 2 H);
    [lia | exact Hm].
Defined.

(* ================================================================== *)
(** * Extractor: closed form, offsets, out-of-range ids *)
(* ================================================================== *)

Lemma mapM_ok_map {A B : Type} (f : A -> result B) (g : A -> B) (l : list A) :
  (forall a, In a l -> f a = Ok (g a)) -> mapM f l = Ok (map g l).
Proof.
  induction l as [|a l IH]; intros H; simpl; [reflexivity|].
  rewrite (H a (or_introl eq_refl)), IH by (intros; apply H; now right).
  reflexivity.
Qed.

Lemma mapM_raises {A B : Type} (f : A -> result B) (l : list A) (a : A) :
  In a l -> raises (f a) -> raises (mapM f l).
Proof.
  induction l as [|x l IH]; simpl; [tauto|].
  intros [-> | Hin] Hr.
  - destruct Hr as [e He]. rewrite He. now exists e.
  - destruct (f x) as [b|e]; simpl; [|now exists e].
    destruct (IH Hin Hr) as [e He]. rewrite He. now exists e.
Qed.

Lemma map_combine_map2 {A B C : Type} (g : A -> B -> C) (l : list A) (l' : list B) :
  map (fun p => g (fst p) (snd p)) (combine l l') = map2 g l l'.
Proof.
  revert l'; induction l as [|a l IH]; intros [|b l']; simpl; try reflexivity.
  now rewrite IH.
Qed.

Lemma has_shape3_to_2 (B L V : nat) (t : tensor3) :
  has_shape3 B L V t -> has_shape2 B L t.
Proof.
  intros [HB HF]. split; [exact HB|].
  eapply Forall_impl; [|exact HF]. now intros row [H _].
Qed.

Lemma has_shape3_get3_length (B L V : nat) (t : tensor3) (b s : nat) :
  has_shape3 B L V t -> (b < B)%nat -> (s < L)%nat -> length (get3 t b s) = V.
Proof.
  intros [HB HF] Hb Hs. rewrite Forall_forall in HF.
  destruct (HF (nth b t [])) as [Hlen Hv]; [apply nth_In; lia|].
  rewrite Forall_forall in Hv. apply Hv. unfold get3. apply nth_In. lia.
Qed.

Lemma ids_in_range_get2 (B L V : nat) (index : int_tensor2) (b s : nat) :
  has_shape2 B L index -> ids_in_range V index -> (b < B)%nat -> (s < L)%nat ->
  (0 <= get2 0%Z index b s < Z.of_nat V)%Z.
Proof.
  intros Hi Hids Hb Hs. pose proof (has_shape2_nth B L index b Hi Hb) as Hlen.
  destruct Hi as [HB _]. unfold ids_in_range in Hids. rewrite Forall_forall in Hids.
  assert (Hrow : Forall (fun i => (0 <= i < Z.of_nat V)%Z) (nth b index []))
    by (apply Hids, nth_In; lia).
  rewrite Forall_forall in Hrow. apply Hrow. unfold get2. apply nth_In. lia.
Qed.

Lemma gather1_token_logprob (v : tensor1) (i : Z) :
  (0 <= i < Z.of_nat (length v))%Z ->
  gather1 (log_softmax1 v) i = Ok (token_logprob v i).
Proof.
  intros Hi. rewrite gather1_log_softmax. unfold gather1.
  replace ((0 <=? i) && (i <? Z.of_nat (length v)))%Z with true
    by (symmetry; apply andb_true_iff; split; [apply Z.leb_le | apply Z.ltb_lt]; lia).
  reflexivity.
Qed.

Lemma gather2_closed_form (V : nat) (row : list tensor1) (labels : list Z) :
  Forall (fun v => length v = V) row ->
  Forall (fun i => (0 <= i < Z.of_nat V)%Z) labels ->
  gather2 (map log_softmax1 row) labels = Ok (map2 token_logprob row labels).
Proof.
  intros Hrow Hlab. unfold gather2.
  rewrite (mapM_combine_map_l (fun p => gather1 (fst p) (snd p)) log_softmax1).
  rewrite <- map_combine_map2. apply mapM_ok_map.
  intros [v i] Hin. simpl. apply gather1_token_logprob.
  rewrite Forall_forall in Hrow, Hlab.
  rewrite (Hrow v (in_combine_l _ _ _ _ Hin)). apply Hlab.
  exact (in_combine_r _ _ _ _ Hin).
Qed.

Lemma naive_closed_form (B L V : nat) (logits : tensor3) (index : int_tensor2) :
  has_shape3 B L V logits -> has_shape2 B L index -> ids_in_range V index ->
  naive_log_softmax_gather logits index = Ok (t2_map2 token_logprob logits index).
Proof.
  intros [HB HF] [HB' HF'] Hids.
  unfold naive_log_softmax_gather, gather3, t3_log_softmax, t2_map.
  rewrite (mapM_combine_map_l (fun p => gather2 (fst p) (snd p)) (map log_softmax1)).
  unfold t2_map2. rewrite <- map_combine_map2. apply mapM_ok_map.
  intros [row labels] Hin. simpl.
  rewrite Forall_forall in HF. unfold ids_in_range in Hids.
  rewrite Forall_forall in Hids.
  destruct (HF row (in_combine_l _ _ _ _ Hin)) as [_ Hv].
  apply (gather2_closed_form V); [exact Hv|].
  apply Hids. exact (in_combine_r _ _ _ _ Hin).
Qed.

(** On a non-empty batch with ids in range, both branches return the
    selected score minus the logsumexp at every position. *)
Lemma extractor_closed_form (B L V : nat) (dt : dtype) (logits : tensor3)
    (index : int_tensor2) :
  has_shape3 B L V logits -> has_shape2 B L index -> ids_in_range V index ->
  (1 <= B)%nat ->
  selective_log_softmax dt logits index = Ok (t2_map2 token_logprob logits index).
Proof.
  intros Hl Hi Hids HB.
  pose proof (naive_closed_form B L V logits index Hl Hi Hids) as Hn.
  assert (Hs : has_shape2 B L (t2_map2 token_logprob logits index)).
  { apply has_shape2_t2_map2; [now apply (has_shape3_to_2 B L V) | exact Hi]. }
  destruct (branches_return_naive logits index _
              (has_shape3_nonempty B L V logits Hl HB)
              (has_shape2_nonempty B L _ Hs HB) Hn) as [H1 H2].
  destruct dt; assumption.
Qed.

Lemma get2_token_logprob (B L V : nat) (logits : tensor3) (index : int_tensor2)
    (b s : nat) :
  has_shape3 B L V logits -> has_shape2 B L index -> (b < B)%nat -> (s < L)%nat ->
  get2 0 (t2_map2 token_logprob logits index) b s
  = token_logprob (get3 logits b s) (get2 0%Z index b s).
Proof.
  intros Hl Hi Hb Hs.
  exact (get2_t2_map2 token_logprob logits index [] 0%Z 0 B L b s
           (has_shape3_to_2 B L V logits Hl) Hi Hb Hs).
Qed.

Lemma Rsum_exp_offset (c : R) (v : list R) :
  Rsum (map exp (map (fun x => x + c) v)) = exp c * Rsum (map exp v).
Proof.
  induction v as [|x v IH]; simpl; [ring|]. rewrite IH, exp_plus. ring.
Qed.

Lemma token_logprob_offset (c : R) (v : list R) (i : Z) :
  (0 <= i < Z.of_nat (length v))%Z ->
  token_logprob (map (fun x => x + c) v) i = token_logprob v i.
Proof.
  intros Hi. unfold token_logprob, logsumexp1.
  assert (Hne : v <> []) by (intros ->; simpl in Hi; lia).
  rewrite (nth_indep _ 0 ((fun x => x + c) 0)) by (rewrite length_map; lia).
  rewrite (map_nth (fun x => x + c)), Rsum_exp_offset.
  rewrite ln_mult, ln_exp; [ring | apply exp_pos | now apply Rsum_exp_pos].
Qed.

Lemma has_shape3_offset (B L V : nat) (logits : tensor3) (offsets : tensor2) :
  has_shape3 B L V logits -> has_shape2 B L offsets ->
  has_shape3 B L V (t3_offset logits offsets).
Proof.
  unfold has_shape3, has_shape2, t3_offset, t2_map2. revert B offsets.
  induction logits as [|row logits IH]; intros B [|orow offsets] [HB HF] [HB' HF'];
    simpl in *; subst; try discriminate; [split; [reflexivity | constructor]|].
  inversion HF as [|? ? [Hlen Hv] HF0]; inversion HF'; subst.
  destruct (IH (length logits) offsets) as [Hl Hf];
    [split; auto | split; auto; lia |].
  split; [now rewrite Hl|]. constructor; [|exact Hf]. split.
  - rewrite map2_length. lia.
  - clear - Hv. revert orow. induction Hv as [|v row' Hv0 _ IHv]; intros [|c orow];
      simpl; constructor; [now rewrite length_map | apply IHv].
Qed.

Lemma get3_offset (B L V : nat) (logits : tensor3) (offsets : tensor2) (b s : nat) :
  has_shape3 B L V logits -> has_shape2 B L offsets -> (b < B)%nat -> (s < L)%nat ->
  get3 (t3_offset logits offsets) b s
  = map (fun x => x + get2 0 offsets b s) (get3 logits b s).
Proof.
  intros Hl Ho Hb Hs.
  exact (get2_t2_map2 (fun v c => map (fun x => x + c) v) logits offsets [] 0 []
           B L b s (has_shape3_to_2 B L V logits Hl) Ho Hb Hs).
Qed.

(** X9: adding, at each position, one constant to all the scores of that
    position does not change the extracted log-probabilities, on either
    branch (softmax is invariant under a shift of the scores). *)
Theorem selective_log_softmax_offset_invariant (B L V : nat) (dt : dtype)
    (logits : tensor3) (offsets : tensor2) (index : int_tensor2) :
  has_shape3 B L V logits -> has_shape2 B L offsets -> has_shape2 B L index ->
  ids_in_range V index -> (1 <= B)%nat ->
  selective_log_softmax dt (t3_offset logits offsets) index
  = selective_log_softmax dt logits index.
Proof.
  intros Hl Ho Hi Hids HB.
  pose proof (has_shape3_offset B L V logits offsets Hl Ho) as Hl'.
  rewrite (extractor_closed_form B L V dt _ index Hl' Hi Hids HB).
  rewrite (extractor_closed_form B L V dt logits index Hl Hi Hids HB).
  f_equal. apply (tensor2_ext B L).
  - apply has_shape2_t2_map2; [now apply (has_shape3_to_2 B L V) | exact Hi].
  - apply has_shape2_t2_map2; [now apply (has_shape3_to_2 B L V) | exact Hi].
  - intros b s Hb Hs.
    rewrite (get2_token_logprob B L V _ index b s Hl' Hi Hb Hs).
    rewrite (get2_token_logprob B L V logits index b s Hl Hi Hb Hs).
    rewrite (get3_offset B L V logits offsets b s Hl Ho Hb Hs).
    apply token_logprob_offset.
    rewrite (has_shape3_get3_length B L V logits b s Hl Hb Hs).
    now apply (ids_in_range_get2 B L).
Qed.

Lemma selective_log_softmax_offset_invariant_witness :
  has_shape3 1 1 2 [[[0; 1]]] /\ has_shape2 1 1 [[5]] /\ has_shape2 1 1 [[1%Z]]
  /\ ids_in_range 2 [[1%Z]] /\ (1 <= 1)%nat
  /\ selective_log_softmax bfloat16 (t3_offset [[[0; 1]]] [[5]]) [[1%Z]]
     = selective_log_softmax bfloat16 [[[0; 1]]] [[1%Z]].
Proof.
  assert (H1 : has_shape3 1 1 2 [[[0; 1]]]).
  { split; [reflexivity|]. repeat constructor. }
  assert (H2 : has_shape2 1 1 [[5]]) by (split; [reflexivity | repeat constructor]).
  assert (H3 : has_shape2 1 1 [[1%Z]]) by (split; [reflexivity | repeat constructor]).
  assert (H4 : ids_in_range 2 [[1%Z]]) by (repeat constructor; simpl; lia).
  split; [exact H1|]. split; [exact H2|]. split; [exact H3|]. split; [exact H4|].
  split; [lia|].
  apply (selective_log_softmax_offset_invariant 1 1 2 bfloat16 _ _ _ H1 H2 H3 H4). lia.
Defined.

Lemma gather1_out_of_range (v : tensor1) (i : Z) :
  ~ (0 <= i < Z.of_nat (length v))%Z -> raises (gather1 v i).
Proof.
  intros Hi. unfold gather1.
  destruct ((0 <=? i) && (i <? Z.of_nat (length v)))%Z eqn:E.
  - apply andb_true_iff in E. destruct E as [E1 E2].
    apply Z.leb_le in E1. apply Z.ltb_lt in E2. lia.
  - eexists. reflexivity.
Qed.

Lemma In_combine_nth {A B : Type} (l : list A) (l' : list B) (n : nat) (x : A) (y : B) :
  length l = length l' -> (n < length l)%nat ->
  In (nth n l x, nth n l' y) (combine l l').
Proof.
  intros Hlen Hn. rewrite <- combine_nth by exact Hlen.
  apply nth_In. rewrite length_combine. lia.
Qed.

Lemma gather2_raises (row : list tensor1) (labels : list Z) (s : nat) :
  length row = length labels -> (s < length row)%nat ->
  ~ (0 <= nth s labels 0%Z < Z.of_nat (length (nth s row [])))%Z ->
  raises (gather2 row labels).
Proof.
  intros Hlen Hs Hbad. unfold gather2.
  apply (mapM_raises _ _ (nth s row [], nth s labels 0%Z)).
  - now apply In_combine_nth.
  - simpl. now apply gather1_out_of_range.
Qed.

(** X10: a token id outside [0, vocab) at any position makes the
    extractor raise, on either branch; no log-probability is returned
    for the other positions. *)
Theorem selective_log_softmax_bad_id (B L V : nat) (dt : dtype) (logits : tensor3)
    (index : int_tensor2) (b s : nat) :
  has_shape3 B L V logits -> has_shape2 B L index ->
  (b < B)%nat -> (s < L)%nat ->
  ~ (0 <= get2 0%Z index b s < Z.of_nat V)%Z ->
  raises (selective_log_softmax dt logits index).
Proof.
  intros Hl Hi Hb Hs Hbad.
  pose proof (has_shape3_get3_length B L V logits b s Hl Hb Hs) as HV.
  pose proof (has_shape2_nth B L logits b (has_shape3_to_2 B L V logits Hl) Hb) as Hrow.
  pose proof (has_shape2_nth B L index b Hi Hb) as Hlab.
  assert (Hlen : length logits = length index) by (destruct Hl, Hi; lia).
  assert (HbB : (b < length logits)%nat) by (destruct Hl; lia).
  assert (Hin : In (nth b logits [], nth b index []) (combine logits index))
    by now apply In_combine_nth.
  assert (Hsel : raises (selective_log_softmax_logsumexp logits index)).
  { unfold selective_log_softmax_logsumexp, gather3.
    destruct (mapM_raises (fun p => gather2 (fst p) (snd p)) _ _ Hin) as [e He].
    - simpl. apply (gather2_raises _ _ s); [lia | lia |].
      unfold get3 in HV. unfold get2 in Hbad. rewrite HV. exact Hbad.
    - rewrite He. now exists e. }
  assert (Hrw : raises (selective_log_softmax_rowwise logits index)).
  { unfold selective_log_softmax_rowwise.
    destruct (mapM_raises
                (fun p => gather2 (map log_softmax1 (fst p)) (snd p)) _ _ Hin)
      as [e He].
    - simpl. apply (gather2_raises _ _ s).
      + rewrite length_map. lia.
      + rewrite length_map. lia.
      + change (@nil R) with (log_softmax1 []). rewrite map_nth.
        unfold log_softmax1, softmax1. rewrite !length_map.
        unfold get3 in HV. unfold get2 in Hbad. rewrite HV. exact Hbad.
    - rewrite He. now exists e. }
  destruct dt; assumption.
Qed.

Lemma selective_log_softmax_bad_id_witness :
  has_shape3 1 1 2 [[[0; 1]]] /\ has_shape2 1 1 [[2%Z]]
  /\ ~ (0 <= get2 0%Z [[2%Z]] 0 0 < Z.of_nat 2)%Z
  /\ raises (selective_log_softmax float32 [[[0; 1]]] [[2%Z]]).
Proof.
  assert (H1 : has_shape3 1 1 2 [[[0; 1]]]).
  { split; [reflexivity|]. repeat constructor. }
  assert (H2 : has_shape2 1 1 [[2%Z]]) by (split; [reflexivity | repeat constructor]).
  assert (H3 : ~ (0 <= get2 0%Z [[2%Z]] 0 0 < Z.of_nat 2)%Z)
    by (unfold get2; simpl; lia).
  split; [exact H1|]. split; [exact H2|]. split; [exact H3|].
  apply (selective_log_softmax_bad_id 1 1 2 float32 _ _ 0 0 H1 H2); [lia | lia | exact H3].
Defined.

Lemma map_nth_seq {A : Type} (l : list A) (d : A) :
  map (fun i => nth i l d) (seq 0 (length l)) = l.
Proof.
  apply (nth_ext _ _ d d).
  - now rewrite length_map, length_seq.
  - intros i Hi. rewrite length_map, length_seq in Hi.
    rewrite (nth_indep _ d ((fun i => nth i l d) 0%nat))
      by (rewrite length_map, length_seq; exact Hi).
    rewrite (map_nth (fun i => nth i l d)), seq_nth by exact Hi. reflexivity.
Qed.

Lemma Rsum_exp_minus (c : R) (v : list R) :
  Rsum (map (fun x => exp (x - c)) v) = Rsum (map exp v) * exp (- c).
Proof.
  induction v as [|x v IH]; simpl; [ring|].
  rewrite IH. unfold Rminus. rewrite exp_plus. ring.
Qed.

(** X11: the extracted log-probabilities are normalised: at a position
    with scores [v], the exponentials of the log-probabilities returned
    for the token ids 0 .. vocab-1 add up to 1, on either branch. *)
Theorem selective_log_softmax_normalised (dt : dtype) (v : tensor1) :
  v <> [] ->
  exists logp : nat -> R,
    (forall i, (i < length v)%nat ->
       selective_log_softmax dt [[v]] [[Z.of_nat i]] = Ok [[logp i]])
    /\ Rsum (map (fun i => exp (logp i)) (seq 0 (length v))) = 1.
Proof.
  intros Hv. exists (fun i => token_logprob v (Z.of_nat i)). split.
  - intros i Hi.
    rewrite (extractor_closed_form 1 1 (length v) dt [[v]] [[Z.of_nat i]]).
    + reflexivity.
    + split; [reflexivity|]. repeat constructor.
    + split; [reflexivity|]. repeat constructor.
    + repeat constructor; lia.
    + lia.
  - unfold token_logprob.
    rewrite (map_ext (fun i => exp (nth (Z.to_nat (Z.of_nat i)) v 0 - logsumexp1 v))
               (fun i => (fun x => exp (x - logsumexp1 v)) (nth i v 0)))
      by (intros i; now rewrite Nat2Z.id).
    rewrite <- (map_map (fun i => nth i v 0) (fun x => exp (x - logsumexp1 v))).
    rewrite map_nth_seq, Rsum_exp_minus.
    pose proof (Rsum_exp_pos v Hv) as HS.
    unfold logsumexp1. rewrite exp_Ropp, exp_ln by exact HS. field. lra.
Qed.

Lemma selective_log_softmax_normalised_witness :
  [1; 2; 3] <> []
  /\ exists logp : nat -> R,
       selective_log_softmax float32 [[[1; 2; 3]]] [[2%Z]] = Ok [[logp 2%nat]]
       /\ exp (logp 0%nat) + (exp (logp 1%nat) + (exp (logp 2%nat) + 0)) = 1.
Proof.
  assert (H : [1; 2; 3] <> []) by discriminate.
  split; [exact H|].
  destruct (selective_log_softmax_normalised float32 [1; 2; 3] H) as (logp & H1 & H2).
  exists logp. split; [apply (H1 2%nat); simpl; lia | exact H2].
Defined.

(* ================================================================== *)
(** * compute_logprobs: shift, scale, extract *)
(* ================================================================== *)

Lemma has_shape3_shift (B L V : nat) (logits : tensor3) :
  has_shape3 B L V logits -> (1 <= L)%nat ->
  has_shape3 B L V (shift_logits (B, L, V) logits).
Proof.
  intros [HB HF] HL. rewrite (shift_logits_rows B L V logits HB).
  split; [now rewrite length_map|].
  rewrite Forall_map. eapply Forall_impl; [|exact HF].
  intros row [Hlen Hv]. simpl. split.
  - rewrite length_removelast. lia.
  - constructor; [apply repeat_length | now apply Forall_removelast].
Qed.

Lemma shift_logits_get3 (B L V : nat) (logits : tensor3) (b s : nat) :
  has_shape3 B L V logits -> (b < B)%nat -> (0 < s < L)%nat ->
  get3 (shift_logits (B, L, V) logits) b s = get3 logits b (s - 1).
Proof.
  intros [HB HF] Hb Hs. rewrite (shift_logits_rows B L V logits HB). unfold get3.
  rewrite (nth_indep _ [] (repeat 0 V :: removelast []))
    by (rewrite length_map; lia).
  rewrite (map_nth (fun row => repeat 0 V :: removelast row)).
  destruct s as [|s]; [lia|]. simpl. rewrite Nat.sub_0_r.
  apply nth_removelast.
  rewrite Forall_forall in HF.
  destruct (HF (nth b logits [])) as [Hlen _]; [apply nth_In; lia | lia].
Qed.

Lemma token_logprob_constant (c : R) (V : nat) (i : Z) :
  (0 <= i < Z.of_nat V)%Z -> token_logprob (repeat c V) i = - ln (INR V).
Proof.
  intros Hi. unfold token_logprob, logsumexp1.
  rewrite nth_repeat_lt by lia. rewrite Rsum_map_repeat.
  assert (HV : 0 < INR V) by (apply lt_0_INR; lia).
  rewrite ln_mult, ln_exp; [ring | exact HV | apply exp_pos].
Qed.

Section ComputeLogprobsFacts.
Variable Model : Type.
Variable forward : Model -> int_tensor2 -> int_tensor2 -> scores_tensor.
Variables (B L V : nat) (model : Model) (input_ids position_ids : int_tensor2).
Variable temperature : R.

Let logits := forward model input_ids position_ids.

Hypothesis Hshape : scores_shape logits = (B, L, V).
Hypothesis Hdata : has_shape3 B L V (scores_data logits).
Hypothesis Hids : has_shape2 B L input_ids.
Hypothesis Hrange : ids_in_range V input_ids.
Hypothesis HB : (1 <= B)%nat.
Hypothesis HL : (1 <= L)%nat.

Lemma compute_logprobs_closed_form :
  compute_logprobs Model forward model input_ids position_ids temperature
  = Ok (t2_map2 token_logprob
          (t3_div_scalar (shift_logits (B, L, V) (scores_data logits)) temperature)
          input_ids).
Proof.
  unfold compute_logprobs. fold logits. rewrite Hshape.
  rewrite (shift_logits_jaxtyped_returns B L V _ Hdata HL). simpl bind.
  apply (extractor_closed_form B L V); try assumption.
  now apply has_shape3_shift_div.
Qed.

Lemma compute_logprobs_entry (b s : nat) :
  (b < B)%nat -> (s < L)%nat ->
  get2 0 (t2_map2 token_logprob
            (t3_div_scalar (shift_logits (B, L, V) (scores_data logits)) temperature)
            input_ids) b s
  = token_logprob
      (map (fun x => x / temperature)
           (get3 (shift_logits (B, L, V) (scores_data logits)) b s))
      (get2 0%Z input_ids b s).
Proof.
  intros Hb Hs.
  rewrite (get2_token_logprob B L V _ input_ids b s
             (has_shape3_shift_div B L V _ temperature Hdata HL) Hids Hb Hs).
  rewrite (get3_div_scalar B L V _ temperature b s
             (has_shape3_shift B L V _ Hdata HL) Hb Hs).
  reflexivity.
Qed.
End ComputeLogprobsFacts.

(** X12: whatever the model returns, [compute_logprobs] gives the first
    position of every sequence the log-probability -ln(vocab), for every
    token id and every nonzero temperature: the shifter puts the zero
    vector there, whose softmax is uniform. *)
Theorem compute_logprobs_first_position (Model : Type)
    (forward : Model -> int_tensor2 -> int_tensor2 -> scores_tensor)
    (B L V : nat) (model : Model) (input_ids position_ids : int_tensor2)
    (temperature : R) :
  scores_shape (forward model input_ids position_ids) = (B, L, V) ->
  has_shape3 B L V (scores_data (forward model input_ids position_ids)) ->
  has_shape2 B L input_ids -> ids_in_range V input_ids ->
  (1 <= B)%nat -> (1 <= L)%nat -> temperature <> 0 ->
  exists logprobs,
    compute_logprobs Model forward model input_ids position_ids temperature
    = Ok logprobs
    /\ has_shape2 B L logprobs
    /\ forall b, (b < B)%nat -> get2 0 logprobs b 0 = - ln (INR V).
Proof.
  intros Hshape Hdata Hids Hrange HB HL _.
  eexists. split; [|split].
  - apply (compute_logprobs_closed_form Model forward B L V); assumption.
  - apply has_shape2_t2_map2; [|exact Hids].
    apply (has_shape3_to_2 B L V). now apply has_shape3_shift_div.
  - intros b Hb.
    rewrite (compute_logprobs_entry Model forward B L V model input_ids position_ids
               temperature Hdata Hids HL b 0 Hb) by lia.
    pose proof (shifted_first_position B L V _ temperature b Hdata HL Hb) as H0.
    rewrite (get3_div_scalar B L V _ temperature b 0
               (has_shape3_shift B L V _ Hdata HL) Hb) in H0 by lia.
    rewrite H0. apply token_logprob_constant.
    apply (ids_in_range_get2 B L V input_ids b 0 Hids Hrange Hb). lia.
Qed.

(** X13: [compute_logprobs] aligns scores and tokens by one position:
    at a position s > 0 it returns the log-probability that the
    temperature-divided scores the model produced at position s-1 give
    to the token at position s; the scores the model produced at the
    last position are not used. *)
Theorem compute_logprobs_aligned (Model : Type)
    (forward : Model -> int_tensor2 -> int_tensor2 -> scores_tensor)
    (B L V : nat) (model : Model) (input_ids position_ids : int_tensor2)
    (temperature : R) :
  scores_shape (forward model input_ids position_ids) = (B, L, V) ->
  has_shape3 B L V (scores_data (forward model input_ids position_ids)) ->
  has_shape2 B L input_ids -> ids_in_range V input_ids ->
  (1 <= B)%nat -> (1 <= L)%nat -> temperature <> 0 ->
  exists logprobs,
    compute_logprobs Model forward model input_ids position_ids temperature
    = Ok logprobs
    /\ forall b s, (b < B)%nat -> (0 < s < L)%nat ->
         get2 0 logprobs b s
         = token_logprob
             (map (fun x => x / temperature)
                  (get3 (scores_data (forward model input_ids position_ids)) b (s - 1)))
             (get2 0%Z input_ids b s)
         /\ get2 0 logprobs b s <= 0.
Proof.
  intros Hshape Hdata Hids Hrange HB HL _.
  eexists. split.
  - apply (compute_logprobs_closed_form Model forward B L V); assumption.
  - intros b s Hb Hs.
    rewrite (compute_logprobs_entry Model forward B L V model input_ids position_ids
               temperature Hdata Hids HL b s Hb) by lia.
    rewrite (shift_logits_get3 B L V _ b s Hdata Hb Hs).
    split; [reflexivity|].
    unfold token_logprob.
    set (v := map (fun x => x / temperature) (get3 _ b (s - 1))).
    assert (Hlen : length v = V).
    { unfold v. rewrite length_map.
      apply (has_shape3_get3_length B L V _ b (s - 1) Hdata Hb). lia. }
    pose proof (ids_in_range_get2 B L V input_ids b s Hids Hrange Hb) as Hi.
    assert (Hin : In (nth (Z.to_nat (get2 0%Z input_ids b s)) v 0) v)
      by (apply nth_In; lia).
    pose proof (le_logsumexp1 v _ Hin). lra.
Qed.

Lemma example_forward_shapes :
  has_shape3 1 2 2 (scores_data (example_forward tt [[0%Z; 1%Z]] [[0%Z; 1%Z]]))
  /\ has_shape2 1 2 [[0%Z; 1%Z]] /\ ids_in_range 2 [[0%Z; 1%Z]].
Proof.
  split; [|split].
  - split; [reflexivity|]. repeat constructor.
  - split; [reflexivity|]. repeat constructor.
  - repeat constructor; simpl; lia.
Qed.

Lemma compute_logprobs_first_position_witness :
  2 <> 0
  /\ exists logprobs,
       compute_logprobs unit example_forward tt [[0%Z; 1%Z]] [[0%Z; 1%Z]] 2
       = Ok logprobs
       /\ get2 0 logprobs 0 0 = - ln (INR 2).
Proof.
  destruct example_forward_shapes as (H1 & H2 & H3).
  assert (HT : 2 <> 0) by lra.
  split; [exact HT|].
  destruct (compute_logprobs_first_position unit example_forward 1 2 2 tt
              [[0%Z; 1%Z]] [[0%Z; 1%Z]] 2 eq_refl H1 H2 H3 (le_n 1)
              (le_S 1 1 (le_n 1)) HT) as (lp & E & _ & H0).
  exists lp. split; [exact E | apply H0; lia].
Defined.

Lemma compute_logprobs_aligned_witness :
  2 <> 0
  /\ exists logprobs,
       compute_logprobs unit example_forward tt [[0%Z; 1%Z]] [[0%Z; 1%Z]] 2
       = Ok logprobs
       /\ get2 0 logprobs 0 1 = token_logprob [1 / 2; 2 / 2] 1.
Proof.
  destruct example_forward_shapes as (H1 & H2 & H3).
  assert (HT : 2 <> 0) by lra.
  split; [exact HT|].
  destruct (compute_logprobs_aligned unit example_forward 1 2 2 tt
              [[0%Z; 1%Z]] [[0%Z; 1%Z]] 2 eq_refl H1 H2 H3 (le_n 1)
              (le_S 1 1 (le_n 1)) HT) as (lp & E & Hs).
  exists lp. split; [exact E|].
  destruct (Hs 0%nat 1%nat) as [Hv _]; [lia | lia | exact Hv].
Defined.

(* ================================================================== *)
(** * Selector: the selection as a threshold set *)
(* ================================================================== *)

Lemma In_select_row (e : R) (xr : list R) (mr : list bool) :
  In e (select_row xr mr) <->
  exists s, (s < length xr)%nat /\ (s < length mr)%nat
            /\ nth s mr false = true /\ e = nth s xr 0.
Proof.
  revert mr; induction xr as [|x xr IH]; intros [|b mr].
  - split; [intros [] | intros (s & H & _); simpl in H; lia].
  - split; [intros [] | intros (s & H & _); simpl in H; lia].
  - split; [intros [] | intros (s & _ & H & _); simpl in H; lia].
  - rewrite select_row_cons. split.
    + intros Hin.
      assert (Hcase : (b = true /\ e = x) \/ In e (select_row xr mr)).
      { destruct b; [destruct Hin as [<- | Hin]; [left; auto | right; exact Hin]
                    | right; exact Hin]. }
      destruct Hcase as [[Hb ->] | Hin'].
      * exists 0%nat. simpl. repeat split; try lia. exact Hb.
      * apply IH in Hin'. destruct Hin' as (s & H1 & H2 & H3 & H4).
        exists (S s). simpl. repeat split; try lia; assumption.
    + intros ([|s] & H1 & H2 & H3 & H4); simpl in *.
      * subst. left. reflexivity.
      * assert (Hin : In e (select_row xr mr)).
        { apply IH. exists s. repeat split; try lia; assumption. }
        destruct b; [right; exact Hin | exact Hin].
Qed.

Lemma In_masked_select (B L : nat) (e : R) (x : tensor2) (m : bool_tensor2) :
  has_shape2 B L x -> has_shape2 B L m ->
  (In e (masked_select x m) <->
   exists b s, (b < B)%nat /\ (s < L)%nat
               /\ get2 false m b s = true /\ e = get2 0 x b s).
Proof.
  unfold masked_select, has_shape2, get2. revert B m.
  induction x as [|xr x IH]; intros B [|mr m] [Hx Fx] [Hm Fm]; simpl in *; subst;
    try discriminate.
  - split; [intros [] | intros (b & s & Hb & _); lia].
  - inversion Fx as [|? ? Hxr Fx']; inversion Fm as [|? ? Hmr Fm']; subst.
    rewrite in_app_iff, In_select_row,
      (IH (length x) m (conj eq_refl Fx') (conj (eq_sym (eq_add_S _ _ (eq_sym Hm))) Fm')).
    split.
    + intros [(s & H1 & H2 & H3 & H4) | (b & s & H1 & H2 & H3 & H4)].
      * exists 0%nat, s. repeat split; try lia; assumption.
      * exists (S b), s. repeat split; try lia; assumption.
    + intros ([|b] & s & H1 & H2 & H3 & H4).
      * left. exists s. repeat split; try lia; assumption.
      * right. exists b, s. repeat split; try lia; assumption.
Qed.

Lemma get2_selected (B L : nat) (entropy : tensor2) (loss_mask : int_tensor2)
    (thr : R) (b s : nat) :
  has_shape2 B L entropy -> has_shape2 B L loss_mask -> (b < B)%nat -> (s < L)%nat ->
  get2 false (t_and (t_ge_scalar entropy thr) (t_bool loss_mask)) b s
  = Rleb thr (get2 0 entropy b s) && z2b (get2 0%Z loss_mask b s).
Proof.
  intros He Hm Hb Hs. unfold t_and, t_ge_scalar, t_bool.
  rewrite (get2_t2_map2 andb _ _ false false false B L b s);
    try assumption; try (now apply has_shape2_t2_map).
  rewrite (get2_map (fun v => Rleb thr v) entropy 0 false B L b s He Hb Hs).
  rewrite (get2_map z2b loss_mask 0%Z false B L b s Hm Hb Hs). reflexivity.
Qed.

Lemma get2_t_bool (B L : nat) (loss_mask : int_tensor2) (b s : nat) :
  has_shape2 B L loss_mask -> (b < B)%nat -> (s < L)%nat ->
  (get2 false (t_bool loss_mask) b s = true <-> get2 0%Z loss_mask b s <> 0%Z).
Proof.
  intros Hm Hb Hs. unfold t_bool.
  rewrite (get2_map z2b loss_mask 0%Z false B L b s Hm Hb Hs). unfold z2b.
  destruct (Z.eqb_spec (get2 0%Z loss_mask b s) 0); simpl; split; intros;
    try congruence; try discriminate; auto.
Qed.

Lemma In_sort_nth (v : list R) (j : nat) :
  (j < length v)%nat -> In (nth j (sort v) 0) v.
Proof.
  intros Hj. apply (Permutation_in _ (sort_perm v)).
  apply nth_In. now rewrite sort_length.
Qed.

(** The returned mask is a threshold set: valid positions whose entropy
    reaches a threshold that no valid entropy maximum falls below. *)
Lemma select_top_threshold (B L : nat) (entropy : tensor2) (loss_mask : int_tensor2)
    (p : R) (m : bool_tensor2) :
  has_shape2 B L entropy -> has_shape2 B L loss_mask ->
  select_top entropy loss_mask p = Ok m ->
  exists thr,
    m = t_and (t_ge_scalar entropy thr) (t_bool loss_mask)
    /\ forall b s, (b < B)%nat -> (s < L)%nat ->
         get2 0%Z loss_mask b s <> 0%Z ->
         (forall b' s', (b' < B)%nat -> (s' < L)%nat ->
            get2 0%Z loss_mask b' s' <> 0%Z ->
            get2 0 entropy b' s' <= get2 0 entropy b s) ->
         thr <= get2 0 entropy b s.
Proof.
  intros He Hm Hsel. unfold select_top in Hsel.
  assert (Hb : has_shape2 B L (t_bool loss_mask)) by now apply has_shape2_t2_map.
  set (valid := masked_select entropy (t_bool loss_mask)) in *.
  apply bind_inv in Hsel. destruct Hsel as (thr & Hthr & Hm').
  inversion Hm'; subst m. exists thr. split; [reflexivity|].
  intros b s Hbb Hs Hvalid Hmax.
  assert (Hin : In (get2 0 entropy b s) valid).
  { apply (In_masked_select B L _ entropy (t_bool loss_mask) He Hb).
    exists b, s. repeat split; try assumption.
    now apply (get2_t_bool B L). }
  assert (Hle : forall e, In e valid -> e <= get2 0 entropy b s).
  { intros e Hine.
    apply (In_masked_select B L _ entropy (t_bool loss_mask) He Hb) in Hine.
    destruct Hine as (b' & s' & Hb' & Hs' & Hv' & ->).
    apply Hmax; try assumption. now apply (get2_t_bool B L loss_mask b' s' Hm). }
  destruct (_ =? _)%Z in Hthr.
  - apply bind_inv in Hthr. destruct Hthr as (mn & Hmn & Hthr).
    inversion Hthr; subst thr.
    destruct valid as [|x l]; [discriminate|]. simpl in Hmn. inversion Hmn; subst mn.
    destruct (fold_Rmin_le x l) as [H1 H2].
    destruct Hin as [<- | Hin]; [lra|].
    rewrite Forall_forall in H2. specialize (H2 _ Hin). simpl in H2. lra.
  - apply kthvalue_ok_inv in Hthr. destruct Hthr as [Hr ->].
    apply Hle, In_sort_nth. lia.
Qed.

(** X14: the selection is upward closed in entropy: whenever the
    selector returns a mask, a valid position whose entropy is at least
    that of a selected position is selected too. *)
Theorem highest_entropy_mask_upward_closed (B L V : nat) (logits : tensor3)
    (loss_mask : int_tensor2) (p : R) (m : bool_tensor2) (b s b' s' : nat) :
  has_shape3 B L V logits -> has_shape2 B L loss_mask ->
  highest_entropy_mask logits loss_mask p = Ok m ->
  (b < B)%nat -> (s < L)%nat -> (b' < B)%nat -> (s' < L)%nat ->
  get2 false m b s = true ->
  get2 0%Z loss_mask b' s' <> 0%Z ->
  get2 0 (position_entropy logits) b s <= get2 0 (position_entropy logits) b' s' ->
  get2 false m b' s' = true.
Proof.
  intros Hl Hm Hsel Hb Hs Hb' Hs' Hsel1 Hvalid Hle.
  rewrite highest_entropy_mask_select_top in Hsel.
  pose proof (has_shape3_position_entropy B L V logits Hl) as He.
  destruct (select_top_threshold B L _ loss_mask p m He Hm Hsel) as (thr & -> & _).
  rewrite (get2_selected B L _ loss_mask thr b s He Hm Hb Hs) in Hsel1.
  rewrite (get2_selected B L _ loss_mask thr b' s' He Hm Hb' Hs').
  apply andb_true_iff in Hsel1. destruct Hsel1 as [H1 _].
  apply Rleb_true in H1. apply andb_true_iff. split.
  - apply Rleb_true. lra.
  - unfold z2b. destruct (Z.eqb_spec (get2 0%Z loss_mask b' s') 0); [contradiction | reflexivity].
Qed.

(** X15: a valid position whose entropy is the largest among the valid
    positions is selected by every call that returns, whatever the
    percentage. *)
Theorem highest_entropy_mask_selects_maximum (B L V : nat) (logits : tensor3)
    (loss_mask : int_tensor2) (p : R) (m : bool_tensor2) (b s : nat) :
  has_shape3 B L V logits -> has_shape2 B L loss_mask ->
  highest_entropy_mask logits loss_mask p = Ok m ->
  (b < B)%nat -> (s < L)%nat ->
  get2 0%Z loss_mask b s <> 0%Z ->
  (forall b' s', (b' < B)%nat -> (s' < L)%nat ->
     get2 0%Z loss_mask b' s' <> 0%Z ->
     get2 0 (position_entropy logits) b' s' <= get2 0 (position_entropy logits) b s) ->
  get2 false m b s = true.
Proof.
  intros Hl Hm Hsel Hb Hs Hvalid Hmax.
  rewrite highest_entropy_mask_select_top in Hsel.
  pose proof (has_shape3_position_entropy B L V logits Hl) as He.
  destruct (select_top_threshold B L _ loss_mask p m He Hm Hsel) as (thr & -> & Hthr).
  rewrite (get2_selected B L _ loss_mask thr b s He Hm Hb Hs).
  apply andb_true_iff. split.
  - apply Rleb_true. now apply Hthr.
  - unfold z2b. destruct (Z.eqb_spec (get2 0%Z loss_mask b s) 0); [contradiction | reflexivity].
Qed.

Lemma example_entropy_get2 :
  get2 0 (position_entropy example_scores) 0 0 = entropy1 [0; ln 4; ln 4]
  /\ get2 0 (position_entropy example_scores) 0 1 = entropy1 [ln 2; ln 2; ln 5].
Proof. rewrite position_entropy_pointwise. split; reflexivity. Qed.

Lemma highest_entropy_mask_selects_maximum_witness :
  highest_entropy_mask example_scores example_mask (/ 2) = Ok [[false; true]]
  /\ get2 false [[false; true]] 0 1 = true.
Proof.
  destruct example_shapes as (H1 & H2 & _).
  assert (Hsel : highest_entropy_mask example_scores example_mask (/ 2)
                 = Ok [[false; true]]) by (apply example_selection; lra).
  split; [exact Hsel|].
  assert (Hv : get2 0%Z example_mask 0 1 <> 0%Z) by (unfold get2; simpl; lia).
  apply (highest_entropy_mask_selects_maximum 1 2 3 example_scores example_mask (/ 2)
           [[false; true]] 0 1 H1 H2 Hsel (le_n 1) (le_n 2) Hv).
  destruct example_entropy_get2 as [E0 E1].
  intros [|b'] [|[|s']] Hb Hs _; try lia.
  - rewrite E0, E1. left. exact example_entropy_order.
  - apply Rle_refl.
Defined.

Lemma all_entries_get2 (P : R -> Prop) (B L : nat) (t : tensor2) (b s : nat) :
  all_entries P t -> has_shape2 B L t -> (b < B)%nat -> (s < L)%nat ->
  P (get2 0 t b s).
Proof.
  intros Hall Ht Hb Hs. pose proof (has_shape2_nth B L t b Ht Hb) as Hlen.
  destruct Ht as [HB _]. unfold all_entries in Hall. rewrite Forall_forall in Hall.
  assert (Hrow : Forall P (nth b t [])) by (apply Hall, nth_In; lia).
  rewrite Forall_forall in Hrow. apply Hrow. unfold get2. apply nth_In. lia.
Qed.

Lemma count_ge_sorted_exact (s : list R) :
  StronglySorted Rle s -> NoDup s ->
  forall j, (j < length s)%nat ->
    length (filter (Rleb (nth j s 0%R)) s) = (length s - j)%nat.
Proof.
  induction 1 as [|a s Hs IH Ha]; intros Hnd j Hj; simpl in *; [lia|].
  inversion Hnd as [|? ? Hnotin Hnd']; subst.
  destruct j as [|j].
  - rewrite (proj2 (Rleb_true a a)) by lra. simpl.
    rewrite filter_all; [reflexivity|].
    eapply Forall_impl; [|exact Ha]. intros z Hz. now apply Rleb_true.
  - assert (Hj' : (j < length s)%nat) by lia.
    rewrite Forall_forall in Ha.
    assert (Hin : In (nth j s 0) s) by now apply nth_In.
    assert (Hlt : a < nth j s 0).
    { destruct (Ha _ Hin) as [Hlt | Heq]; [exact Hlt|].
      exfalso. apply Hnotin. rewrite Heq. exact Hin. }
    replace (Rleb (nth j s 0) a) with false.
    + now apply IH.
    + symmetry. unfold Rleb. destruct (Rle_dec (nth j s 0) a); [lra | reflexivity].
Qed.

Lemma kthvalue_count_exact (v : list R) (k : Z) :
  NoDup v -> (1 <= k <= Z.of_nat (length v))%Z ->
  exists thr,
    kthvalue v (Z.of_nat (length v) - k + 1) = Ok thr
    /\ Z.of_nat (length (filter (Rleb thr) v)) = k.
Proof.
  intros Hnd Hk.
  eexists; split; [apply kthvalue_in_range; lia|].
  set (j := Z.to_nat (Z.of_nat (length v) - k + 1 - 1)).
  assert (Hj : (j < length (sort v))%nat) by (rewrite sort_length; unfold j; lia).
  assert (Hnd' : NoDup (sort v))
    by (apply (Permutation_NoDup (Permutation_sym (sort_perm v))); exact Hnd).
  pose proof (count_ge_sorted_exact (sort v) (sort_sorted v) Hnd' j Hj) as Hc.
  rewrite (filter_length_perm _ (sort v) v (sort_perm v)) in Hc.
  rewrite sort_length in Hc. unfold j in *. lia.
Qed.

Lemma select_top_select_rank (entropy : tensor2) (loss_mask : int_tensor2) (p : R) :
  select_top entropy loss_mask p
  = select_rank entropy loss_mask
      (selector_rank p (numel (masked_select entropy (t_bool loss_mask)))).
Proof. reflexivity. Qed.

(** [highest_entropy_mask] is [select_rank] at the rank it computes. *)
Lemma highest_entropy_mask_select_rank (logits : tensor3) (loss_mask : int_tensor2)
    (p : R) :
  highest_entropy_mask logits loss_mask p
  = select_rank (position_entropy logits) loss_mask
      (selector_rank p
         (numel (masked_select (position_entropy logits) (t_bool loss_mask)))).
Proof. reflexivity. Qed.

(** For a rank between 1 and the number N of valid positions the
    threshold exists and keeps at least [k] positions, exactly [k] when
    the valid entropies are pairwise distinct. *)
Lemma select_rank_count (B L : nat) (entropy : tensor2) (loss_mask : int_tensor2)
    (k : Z) :
  has_shape2 B L entropy -> has_shape2 B L loss_mask ->
  (1 <= k <= Z.of_nat (valid_count loss_mask))%Z ->
  exists m,
    select_rank entropy loss_mask k = Ok m
    /\ has_shape2 B L m
    /\ (k <= Z.of_nat (count_true m))%Z
    /\ (NoDup (masked_select entropy (t_bool loss_mask)) ->
        Z.of_nat (count_true m) = k).
Proof.
  intros He Hm Hk. unfold select_rank.
  assert (Hb : has_shape2 B L (t_bool loss_mask)) by now apply has_shape2_t2_map.
  pose proof (masked_select_length B L entropy (t_bool loss_mask) He Hb) as Hlen.
  fold (valid_count loss_mask) in Hlen. unfold numel. rewrite Hlen.
  set (N := valid_count loss_mask) in *.
  assert (Hshape : forall thr,
             has_shape2 B L (t_and (t_ge_scalar entropy thr) (t_bool loss_mask))).
  { intros thr. apply has_shape2_t2_map2; [now apply has_shape2_t2_map | exact Hb]. }
  destruct (Z.eqb_spec k (Z.of_nat N)) as [Heq | Hneq].
  - destruct (t_min_count (masked_select entropy (t_bool loss_mask)))
      as (mn & Hmn & Hall).
    { intros E. rewrite E in Hlen. simpl in Hlen. lia. }
    rewrite Hmn. simpl. eexists; split; [reflexivity|]. split; [apply Hshape|].
    rewrite selected_count, Hall, Hlen. split; [lia | intros _; lia].
  - destruct (kthvalue_count (masked_select entropy (t_bool loss_mask)) k)
      as (thr & Hthr & Hc); [rewrite Hlen; lia|].
    rewrite Hlen in Hthr. rewrite Hthr. simpl.
    eexists; split; [reflexivity|]. split; [apply Hshape|].
    rewrite selected_count. split; [lia|]. intros Hnd.
    destruct (kthvalue_count_exact (masked_select entropy (t_bool loss_mask)) k Hnd)
      as (thr' & Hthr' & Hc'); [rewrite Hlen; lia|].
    rewrite Hlen in Hthr'. rewrite Hthr in Hthr'. inversion Hthr'; subst thr'.
    exact Hc'.
Qed.

(** The rank of a percentage below 1 over N >= 1 valid positions lies
    between 1 and N: a negative product is truncated toward zero and
    the rank raised to 1. *)
Lemma selector_rank_range (p : R) (n : nat) :
  (1 <= n)%nat -> p < 1 -> (1 <= selector_rank p n <= Z.of_nat n)%Z.
Proof.
  intros Hn Hp. unfold selector_rank.
  assert (HN : 1 <= INR n) by (change 1 with (INR 1); apply le_INR; lia).
  assert (Hk0 : (py_int (p * INR n) <= Z.of_nat n - 1)%Z).
  { unfold py_int. destruct (Rle_dec 0 (p * INR n)) as [H0 | H0].
    - pose proof (Zfloor_bound (p * INR n)) as [Hlo Hhi].
      assert (Hlt : IZR (Zfloor (p * INR n)) < IZR (Z.of_nat n)).
      { rewrite <- INR_IZR_INZ. nra. }
      apply lt_IZR in Hlt. lia.
    - unfold Zceil.
      assert (H1 : (0 <= Zfloor (- (p * INR n)))%Z).
      { apply Zfloor_lub. simpl. lra. }
      lia. }
  destruct (Z.ltb_spec (py_int (p * INR n)) 1); lia.
Qed.

(** On at least one valid position every percentage below 1 gets a
    mask. *)
Lemma select_top_returns (B L : nat) (entropy : tensor2) (loss_mask : int_tensor2)
    (p : R) :
  has_shape2 B L entropy -> has_shape2 B L loss_mask ->
  (1 <= valid_count loss_mask)%nat -> p < 1 ->
  exists m, select_top entropy loss_mask p = Ok m.
Proof.
  intros He Hm HN Hp. rewrite select_top_select_rank.
  assert (Hb : has_shape2 B L (t_bool loss_mask)) by now apply has_shape2_t2_map.
  pose proof (masked_select_length B L entropy (t_bool loss_mask) He Hb) as Hlen.
  fold (valid_count loss_mask) in Hlen. unfold numel. rewrite Hlen.
  destruct (select_rank_count B L entropy loss_mask
              (selector_rank p (valid_count loss_mask)) He Hm
              (selector_rank_range p _ HN Hp)) as (m & Hsel & _).
  exists m. exact Hsel.
Qed.

(** X17: when the entropies of the valid positions are pairwise
    distinct, the mask that [highest_entropy_mask] builds for a rank k
    between 1 and the number N of valid positions selects exactly k
    positions, the k of highest entropy; this holds for the rank as
    given, however it was computed from the percentage.  Only ties at
    the threshold can make the selection larger. *)
Theorem highest_entropy_mask_exact_count (B L V : nat) (logits : tensor3)
    (loss_mask : int_tensor2) (k : Z) :
  has_shape3 B L V logits -> has_shape2 B L loss_mask ->
  (1 <= k <= Z.of_nat (valid_count loss_mask))%Z ->
  NoDup (masked_select (position_entropy logits) (t_bool loss_mask)) ->
  exists m,
    select_rank (position_entropy logits) loss_mask k = Ok m
    /\ has_shape2 B L m
    /\ Z.of_nat (count_true m) = k
    /\ mask_subset m loss_mask.
Proof.
  intros Hl Hm Hk Hnd.
  pose proof (has_shape3_position_entropy B L V logits Hl) as He.
  destruct (select_rank_count B L _ loss_mask k He Hm Hk) as (m & Hsel & Hs & _ & Hc).
  exists m. split; [exact Hsel|]. split; [exact Hs|]. split; [exact (Hc Hnd)|].
  unfold select_rank in Hsel. apply bind_inv in Hsel.
  destruct Hsel as (thr & _ & Hsel). inversion Hsel; subst m.
  intros b s Hsel1. apply t_bool_valid. eapply t_and_subset. exact Hsel1.
Qed.

Lemma highest_entropy_mask_exact_count_witness :
  (1 <= 1 <= Z.of_nat (valid_count example_mask))%Z
  /\ NoDup (masked_select (position_entropy example_scores) (t_bool example_mask))
  /\ exists m,
       select_rank (position_entropy example_scores) example_mask 1 = Ok m
       /\ Z.of_nat (count_true m) = 1%Z.
Proof.
  destruct example_shapes as (H1 & H2 & H3).
  assert (Hk : (1 <= 1 <= Z.of_nat (valid_count example_mask))%Z) by (rewrite H3; lia).
  assert (Hnd : NoDup (masked_select (position_entropy example_scores)
                         (t_bool example_mask))).
  { rewrite position_entropy_pointwise.
    change (NoDup [entropy1 [0; ln 4; ln 4]; entropy1 [ln 2; ln 2; ln 5]]).
    pose proof example_entropy_order as Hlt.
    constructor; [|constructor; [intros [] | constructor]].
    intros [Heq | []]. lra. }
  split; [exact Hk|]. split; [exact Hnd|].
  destruct (highest_entropy_mask_exact_count 1 2 3 example_scores example_mask 1
              H1 H2 Hk Hnd) as (m & Hsel & _ & Hc & _).
  exists m. split; assumption.
Defined.



Lemma py_int_INR (n : nat) : py_int (1 * INR n) = Z.of_nat n.
Proof.
  rewrite Rmult_1_l. unfold py_int.
  destruct (Rle_dec 0 (INR n)) as [_|H]; [|exfalso; apply H, pos_INR].
  rewrite INR_IZR_INZ. apply ZfloorZ.
Qed.

(** Called directly with percentage 1 on two valid positions, the
    selector keeps both. *)
Lemma select_top_pair_all (a b : R) :
  select_top [[a; b]] example_mask 1 = Ok [[true; true]].
Proof.
  unfold select_top, example_mask.
  change (masked_select [[a; b]] (t_bool [[1%Z; 1%Z]])) with [a; b].
  change (numel [a; b]) with 2%nat. rewrite py_int_INR.
  simpl. unfold t_and, t_ge_scalar, t2_map2, t2_map, Rleb. simpl.
  pose proof (Rmin_l b a). pose proof (Rmin_r b a).
  destruct (Rle_dec (Rmin b a - 1) a) as [_|N]; [|lra].
  destruct (Rle_dec (Rmin b a - 1) b) as [_|N]; [reflexivity | lra].
Qed.

Lemma example_selection_all :
  highest_entropy_mask example_scores example_mask 1 = Ok [[true; true]].
Proof.
  rewrite highest_entropy_mask_select_top, position_entropy_pointwise.
  apply select_top_pair_all.
Qed.

Lemma highest_entropy_mask_upward_closed_witness :
  highest_entropy_mask example_scores example_mask 1 = Ok [[true; true]]
  /\ get2 false [[true; true]] 0 0 = true
  /\ get2 0%Z example_mask 0 1 <> 0%Z
  /\ get2 0 (position_entropy example_scores) 0 0
     <= get2 0 (position_entropy example_scores) 0 1
  /\ get2 false [[true; true]] 0 1 = true.
Proof.
  destruct example_shapes as (H1 & H2 & _).
  pose proof example_selection_all as Hsel.
  assert (Hv : get2 0%Z example_mask 0 1 <> 0%Z) by (unfold get2; simpl; lia).
  assert (Hle : get2 0 (position_entropy example_scores) 0 0
                <= get2 0 (position_entropy example_scores) 0 1).
  { destruct example_entropy_get2 as [-> ->]. left. exact example_entropy_order. }
  split; [exact Hsel|]. split; [reflexivity|]. split; [exact Hv|].
  split; [exact Hle|].
  exact (highest_entropy_mask_upward_closed 1 2 3 example_scores example_mask 1
           [[true; true]] 0 0 0 1 H1 H2 Hsel (le_n 1) (Nat.lt_0_succ 1) (le_n 1)
           (le_n 2) eq_refl Hv Hle).
Defined.



(** X19: when the rank max(1, int(p*N)) exceeds the number N of valid
    positions the selector raises: the order statistic is requested at
    a rank below 1.  The engines call the selector only for p < 1, but a
    direct call with a larger percentage (p = 2, say) meets this. *)
Theorem highest_entropy_mask_rank_overflow (B L V : nat) (logits : tensor3)
    (loss_mask : int_tensor2) (p : R) :
  has_shape3 B L V logits -> has_shape2 B L loss_mask ->
  (Z.of_nat (valid_count loss_mask)
   < Z.max 1 (py_int (p * INR (valid_count loss_mask))))%Z ->
  raises (highest_entropy_mask logits loss_mask p).
Proof.
  intros Hl Hm Hk. rewrite highest_entropy_mask_select_top.
  pose proof (has_shape3_position_entropy B L V logits Hl) as He.
  assert (Hb : has_shape2 B L (t_bool loss_mask)) by now apply has_shape2_t2_map.
  pose proof (masked_select_length B L _ (t_bool loss_mask) He Hb) as Hlen.
  fold (valid_count loss_mask) in Hlen.
  unfold select_top, numel. rewrite Hlen.
  set (N := valid_count loss_mask) in *.
  set (k0 := py_int (p * INR N)) in *.
  set (k := if (k0 <? 1)%Z then 1%Z else k0).
  assert (Hkk : k = Z.max 1 k0).
  { unfold k. destruct (Z.ltb_spec k0 1); lia. }
  destruct (Z.eqb_spec k (Z.of_nat N)) as [Heq | _]; [lia|].
  destruct (kthvalue_out_of_range
              (masked_select (position_entropy logits) (t_bool loss_mask))
              (Z.of_nat N - k + 1)) as [e Hr]; [lia|].
  rewrite Hr. simpl. eexists. reflexivity.
Qed.

Lemma highest_entropy_mask_rank_overflow_witness :
  (Z.of_nat (valid_count example_mask)
   < Z.max 1 (py_int (2 * INR (valid_count example_mask))))%Z
  /\ raises (highest_entropy_mask example_scores example_mask 2).
Proof.
  destruct example_shapes as (H1 & H2 & H3).
  assert (Hk : (Z.of_nat (valid_count example_mask)
                < Z.max 1 (py_int (2 * INR (valid_count example_mask))))%Z).
  { rewrite H3. unfold py_int. simpl INR.
    destruct (Rle_dec 0 (2 * (1 + 1))) as [_|H]; [|lra].
    rewrite (Zfloor_eq 4) by (simpl; lra). simpl. lia. }
  split; [exact Hk|].
  exact (highest_entropy_mask_rank_overflow 1 2 3 example_scores example_mask 2
           H1 H2 Hk).
Defined.

(* ================================================================== *)
(** * Engines: per-token behaviour *)
(* ================================================================== *)

Ltac clamp_cases :=
  unfold clamp, Rmin, Rmax in *;
  repeat match goal with
         | |- context [Rle_dec ?a ?b] => destruct (Rle_dec a b)
         | H : context [Rle_dec ?a ?b] |- _ => destruct (Rle_dec a b)
         end.

Lemma clamp_le_hi (x lo hi : R) : clamp x lo hi <= hi.
Proof. clamp_cases; lra. Qed.

Lemma clamp_ge_lo (x lo hi : R) : lo <= hi -> lo <= clamp x lo hi.
Proof. intros H. clamp_cases; lra. Qed.

Lemma clamp_inside (x lo hi : R) : lo <= x <= hi -> clamp x lo hi = x.
Proof. intros H. clamp_cases; lra. Qed.

Lemma b2r_Rltb_one (x y : R) : b2r (Rltb x y) = 1 <-> x < y.
Proof.
  unfold b2r, Rltb. destruct (Rlt_dec x y); split; intros; auto; try lra.
Qed.

Lemma b2r_Rltb_zero (x y : R) : b2r (Rltb x y) = 0 <-> y <= x.
Proof.
  unfold b2r, Rltb. destruct (Rlt_dec x y); split; intros; auto; try lra.
Qed.

(** The local tensors of the clip-policy engine at one position. *)
Lemma clip_locals_at (B L : nat)
    (per_token_logps original_logprobs advantages : tensor2)
    (epsilon_low epsilon_high clip_ratio : R) (b s : nat) :
  has_shape2 B L per_token_logps -> has_shape2 B L original_logprobs ->
  has_shape2 B L advantages -> (b < B)%nat -> (s < L)%nat ->
  let A := get2 0 advantages b s in
  let c1 := clamp (exp (get2 0 per_token_logps b s - get2 0 original_logprobs b s))
              0 clip_ratio in
  let c2 := clamp c1 (1 - epsilon_low) (1 + epsilon_high) in
  get2 0 (clip_coef_1 per_token_logps original_logprobs clip_ratio) b s = c1
  /\ get2 0 (clip_coef_2 per_token_logps original_logprobs
               epsilon_low epsilon_high clip_ratio) b s = c2
  /\ get2 0 (clip_per_token_loss per_token_logps original_logprobs advantages
               epsilon_low epsilon_high clip_ratio) b s
     = Rmax (- c1 * A) (- c2 * A)
  /\ get2 0 (clip_is_clipped per_token_logps original_logprobs advantages
               epsilon_low epsilon_high clip_ratio) b s
     = b2r (Rltb (- c1 * A) (- c2 * A)).
Proof.
  intros Hlp Ho Ha Hb Hs A c1 c2.
  pose proof (clip_coef_1_shape B L per_token_logps original_logprobs clip_ratio Hlp Ho)
    as S1.
  pose proof (clip_coef_2_shape B L per_token_logps original_logprobs
                epsilon_low epsilon_high clip_ratio Hlp Ho) as S2.
  pose proof (clip_loss1_shape B L per_token_logps original_logprobs advantages
                clip_ratio Hlp Ho Ha) as S3.
  pose proof (clip_loss2_shape B L per_token_logps original_logprobs advantages
                epsilon_low epsilon_high clip_ratio Hlp Ho Ha) as S4.
  assert (E1 : get2 0 (clip_coef_1 per_token_logps original_logprobs clip_ratio) b s
               = c1).
  { unfold clip_coef_1, t_clamp, t_exp, t_sub.
    rewrite (get2_map (fun x => clamp x 0 clip_ratio) _ 0 0 B L b s);
      [| now apply has_shape2_t2_map, has_shape2_t2_map2 | exact Hb | exact Hs].
    rewrite (get2_map exp _ 0 0 B L b s);
      [| now apply has_shape2_t2_map2 | exact Hb | exact Hs].
    rewrite (get2_t2_map2 Rminus _ _ 0 0 0 B L b s Hlp Ho Hb Hs). reflexivity. }
  assert (E2 : get2 0 (clip_coef_2 per_token_logps original_logprobs
                         epsilon_low epsilon_high clip_ratio) b s = c2).
  { unfold clip_coef_2, t_clamp.
    rewrite (get2_map (fun x => clamp x (1 - epsilon_low) (1 + epsilon_high)) _ 0 0
               B L b s S1 Hb Hs).
    now rewrite E1. }
  assert (E3 : get2 0 (clip_per_token_loss1 per_token_logps original_logprobs
                         advantages clip_ratio) b s = - c1 * A).
  { unfold clip_per_token_loss1, t_mul, t_neg.
    rewrite (get2_t2_map2 Rmult _ _ 0 0 0 B L b s);
      [| now apply has_shape2_t2_map | exact Ha | exact Hb | exact Hs].
    rewrite (get2_map Ropp _ 0 0 B L b s S1 Hb Hs). now rewrite E1. }
  assert (E4 : get2 0 (clip_per_token_loss2 per_token_logps original_logprobs
                         advantages epsilon_low epsilon_high clip_ratio) b s
               = - c2 * A).
  { unfold clip_per_token_loss2, t_mul, t_neg.
    rewrite (get2_t2_map2 Rmult _ _ 0 0 0 B L b s);
      [| now apply has_shape2_t2_map | exact Ha | exact Hb | exact Hs].
    rewrite (get2_map Ropp _ 0 0 B L b s S2 Hb Hs). now rewrite E2. }
  split; [exact E1|]. split; [exact E2|]. split.
  - unfold clip_per_token_loss, t_max.
    rewrite (get2_t2_map2 Rmax _ _ 0 0 0 B L b s S3 S4 Hb Hs). now rewrite E3, E4.
  - unfold clip_is_clipped, t_float, t_lt.
    rewrite (get2_map b2r _ false 0 B L b s);
      [| now apply has_shape2_t2_map2 | exact Hb | exact Hs].
    rewrite (get2_t2_map2 Rltb _ _ 0 0 false B L b s S3 S4 Hb Hs). now rewrite E3, E4.
Qed.

Lemma clipped_scalar_iff (c1 lo hi A : R) :
  lo <= hi ->
  (- c1 * A < - clamp c1 lo hi * A
   <-> (0 < A /\ hi < c1) \/ (A < 0 /\ c1 < lo)).
Proof.
  intros Hlh. split.
  - intros H. destruct (Rtotal_order A 0) as [HA | [HA | HA]].
    + right. split; [exact HA|]. clamp_cases; nra.
    + subst. lra.
    + left. split; [exact HA|]. clamp_cases; nra.
  - intros [[HA Hc] | [HA Hc]]; clamp_cases; nra.
Qed.

(** X20: in the clip-policy engine with 1 - epsilon_low <= 1 +
    epsilon_high, a token is counted as clipped exactly when its
    advantage is positive and the ratio [coef_1] is above
    1 + epsilon_high, or its advantage is negative and the ratio is
    below 1 - epsilon_low; the indicator is 0 otherwise. *)
Theorem clip_indicator_characterised (B L : nat)
    (per_token_logps original_logprobs advantages : tensor2)
    (epsilon_low epsilon_high clip_ratio : R) (b s : nat) :
  has_shape2 B L per_token_logps -> has_shape2 B L original_logprobs ->
  has_shape2 B L advantages -> (b < B)%nat -> (s < L)%nat ->
  1 - epsilon_low <= 1 + epsilon_high ->
  let A := get2 0 advantages b s in
  let c1 := get2 0 (clip_coef_1 per_token_logps original_logprobs clip_ratio) b s in
  let is_clipped :=
    get2 0 (clip_is_clipped per_token_logps original_logprobs advantages
              epsilon_low epsilon_high clip_ratio) b s in
  (is_clipped = 1 <-> (0 < A /\ 1 + epsilon_high < c1) \/ (A < 0 /\ c1 < 1 - epsilon_low))
  /\ (is_clipped = 0 \/ is_clipped = 1).
Proof.
  intros Hlp Ho Ha Hb Hs Hlh A c1 is_clipped.
  destruct (clip_locals_at B L per_token_logps original_logprobs advantages
              epsilon_low epsilon_high clip_ratio b s Hlp Ho Ha Hb Hs)
    as (E1 & _ & _ & E4).
  unfold is_clipped, c1. rewrite E4, E1. fold A. split.
  - rewrite b2r_Rltb_one. now apply clipped_scalar_iff.
  - unfold b2r. destruct (Rltb _ _); [right | left]; reflexivity.
Qed.

Lemma clip_indicator_characterised_witness :
  1 - / 5 <= 1 + / 5
  /\ (get2 0 (clip_is_clipped [[0]] [[-2]] [[1]] (/ 5) (/ 5) 5) 0 0 = 1
      <-> (0 < get2 0 [[1]] 0 0
           /\ 1 + / 5 < get2 0 (clip_coef_1 [[0]] [[-2]] 5) 0 0)
          \/ (get2 0 [[1]] 0 0 < 0
              /\ get2 0 (clip_coef_1 [[0]] [[-2]] 5) 0 0 < 1 - / 5)).
Proof.
  assert (S : forall x : R, has_shape2 1 1 [[x]])
    by (intros x; split; [reflexivity | repeat constructor]).
  assert (H : 1 - / 5 <= 1 + / 5) by lra.
  split; [exact H|].
  exact (proj1 (clip_indicator_characterised 1 1 [[0]] [[-2]] [[1]] (/ 5) (/ 5) 5 0 0
                  (S 0) (S (-2)) (S 1) (le_n 1) (le_n 1) H)).
Defined.

(** X21: bounds on the per-token loss of the clip-policy engine.  The
    loss is never below the unclipped surrogate -coef_1 * A; for A >= 0
    it is at least -(1 + epsilon_high) * A (the gain from one token is
    capped); for A <= 0 it is at most max(clip_ratio, 1 + epsilon_high)
    * |A| and, when 1 - epsilon_low <= 1 + epsilon_high, at least
    (1 - epsilon_low) * |A|. *)
Theorem clip_loss_bounds (B L : nat)
    (per_token_logps original_logprobs advantages : tensor2)
    (epsilon_low epsilon_high clip_ratio : R) (b s : nat) :
  has_shape2 B L per_token_logps -> has_shape2 B L original_logprobs ->
  has_shape2 B L advantages -> (b < B)%nat -> (s < L)%nat ->
  let A := get2 0 advantages b s in
  let c1 := get2 0 (clip_coef_1 per_token_logps original_logprobs clip_ratio) b s in
  let loss :=
    get2 0 (clip_per_token_loss per_token_logps original_logprobs advantages
              epsilon_low epsilon_high clip_ratio) b s in
  - c1 * A <= loss
  /\ (0 <= A -> - (1 + epsilon_high) * A <= loss)
  /\ (A <= 0 -> loss <= Rmax clip_ratio (1 + epsilon_high) * - A)
  /\ (A <= 0 -> 1 - epsilon_low <= 1 + epsilon_high ->
      (1 - epsilon_low) * - A <= loss).
Proof.
  intros Hlp Ho Ha Hb Hs A c1 loss.
  destruct (clip_locals_at B L per_token_logps original_logprobs advantages
              epsilon_low epsilon_high clip_ratio b s Hlp Ho Ha Hb Hs)
    as (E1 & _ & E3 & _).
  unfold loss, c1. rewrite E3, E1. fold A.
  set (k1 := clamp (exp (get2 0 per_token_logps b s - get2 0 original_logprobs b s))
               0 clip_ratio).
  set (k2 := clamp k1 (1 - epsilon_low) (1 + epsilon_high)).
  assert (H1 : k1 <= clip_ratio) by apply clamp_le_hi.
  assert (H2 : k2 <= 1 + epsilon_high) by apply clamp_le_hi.
  pose proof (Rmax_l (- k1 * A) (- k2 * A)) as M1.
  pose proof (Rmax_r (- k1 * A) (- k2 * A)) as M2.
  pose proof (Rmax_l clip_ratio (1 + epsilon_high)) as N1.
  pose proof (Rmax_r clip_ratio (1 + epsilon_high)) as N2.
  split; [exact M1|]. split; [|split].
  - intros HA. nra.
  - intros HA. apply Rmax_lub; nra.
  - intros HA Hlh.
    assert (H3 : 1 - epsilon_low <= k2) by now apply clamp_ge_lo.
    nra.
Qed.

Lemma clip_loss_bounds_witness :
  0 <= get2 0 [[1]] 0 0
  /\ - (1 + / 5) * get2 0 [[1]] 0 0
     <= get2 0 (clip_per_token_loss [[0]] [[-2]] [[1]] (/ 5) (/ 5) 5) 0 0.
Proof.
  assert (S : forall x : R, has_shape2 1 1 [[x]])
    by (intros x; split; [reflexivity | repeat constructor]).
  assert (HA : 0 <= get2 0 [[1]] 0 0) by (unfold get2; simpl; lra).
  split; [exact HA|].
  exact (proj1 (proj2 (clip_loss_bounds 1 1 [[0]] [[-2]] [[1]] (/ 5) (/ 5) 5 0 0
                         (S 0) (S (-2)) (S 1) (le_n 1) (le_n 1))) HA).
Defined.

(** X22: a token whose extracted log-probability equals the reference
    log-probability is never clipped by the clip-policy engine and
    contributes the plain policy-gradient term: for clip_ratio >= 1 and
    non-negative epsilons both ratios are 1 and the per-token loss is
    minus the advantage. *)
Theorem clip_on_policy (B L : nat)
    (per_token_logps original_logprobs advantages : tensor2)
    (epsilon_low epsilon_high clip_ratio : R) (b s : nat) :
  has_shape2 B L per_token_logps -> has_shape2 B L original_logprobs ->
  has_shape2 B L advantages -> (b < B)%nat -> (s < L)%nat ->
  get2 0 per_token_logps b s = get2 0 original_logprobs b s ->
  1 <= clip_ratio -> 0 <= epsilon_low -> 0 <= epsilon_high ->
  get2 0 (clip_coef_1 per_token_logps original_logprobs clip_ratio) b s = 1
  /\ get2 0 (clip_coef_2 per_token_logps original_logprobs
               epsilon_low epsilon_high clip_ratio) b s = 1
  /\ get2 0 (clip_per_token_loss per_token_logps original_logprobs advantages
               epsilon_low epsilon_high clip_ratio) b s
     = - get2 0 advantages b s
  /\ get2 0 (clip_is_clipped per_token_logps original_logprobs advantages
               epsilon_low epsilon_high clip_ratio) b s = 0.
Proof.
  intros Hlp Ho Ha Hb Hs Heq Hcr Hel Heh.
  destruct (clip_locals_at B L per_token_logps original_logprobs advantages
              epsilon_low epsilon_high clip_ratio b s Hlp Ho Ha Hb Hs)
    as (E1 & E2 & E3 & E4).
  rewrite Heq, Rminus_diag, exp_0 in E1, E2, E3, E4.
  assert (K1 : clamp 1 0 clip_ratio = 1) by (apply clamp_inside; lra).
  rewrite K1 in E1, E2, E3, E4.
  assert (K2 : clamp 1 (1 - epsilon_low) (1 + epsilon_high) = 1)
    by (apply clamp_inside; lra).
  rewrite K2 in E2, E3, E4.
  split; [exact E1|]. split; [exact E2|]. split.
  - rewrite E3. rewrite Rmax_left by lra. ring.
  - rewrite E4. apply b2r_Rltb_zero. lra.
Qed.

Lemma clip_on_policy_witness :
  get2 0 [[-3]] 0 0 = get2 0 [[-3]] 0 0 /\ 1 <= 5 /\ 0 <= / 5
  /\ get2 0 (clip_per_token_loss [[-3]] [[-3]] [[7]] (/ 5) (/ 5) 5) 0 0
     = - get2 0 [[7]] 0 0.
Proof.
  assert (S : forall x : R, has_shape2 1 1 [[x]])
    by (intros x; split; [reflexivity | repeat constructor]).
  assert (H5 : 1 <= 5) by lra. assert (He : 0 <= / 5) by lra.
  split; [reflexivity|]. split; [exact H5|]. split; [exact He|].
  exact (proj1 (proj2 (proj2
           (clip_on_policy 1 1 [[-3]] [[-3]] [[7]] (/ 5) (/ 5) 5 0 0
              (S (-3)) (S (-3)) (S 7) (le_n 1) (le_n 1) eq_refl H5 He He)))).
Defined.

(** The local tensors of the ratio-policy engine at one position. *)
Lemma ratio_locals_at (B L : nat)
    (per_token_logps original_logprobs advantages : tensor2)
    (clip_ratio : R) (b s : nat) :
  has_shape2 B L per_token_logps -> has_shape2 B L original_logprobs ->
  has_shape2 B L advantages -> (b < B)%nat -> (s < L)%nat ->
  let A := get2 0 advantages b s in
  let r := exp (get2 0 per_token_logps b s - get2 0 original_logprobs b s) in
  get2 0 (ratio_raw_ratio per_token_logps original_logprobs) b s = r
  /\ get2 0 (ratio_is_clipped per_token_logps original_logprobs clip_ratio) b s
     = b2r (Rltb clip_ratio r)
  /\ get2 0 (ratio_ratio per_token_logps original_logprobs clip_ratio) b s
     = clamp r 0 clip_ratio
  /\ get2 0 (ratio_loss per_token_logps original_logprobs advantages clip_ratio) b s
     = - clamp r 0 clip_ratio * A.
Proof.
  intros Hlp Ho Ha Hb Hs A r.
  assert (Hsub : has_shape2 B L (t_sub per_token_logps original_logprobs))
    by now apply has_shape2_t2_map2.
  assert (Hrs : has_shape2 B L (ratio_raw_ratio per_token_logps original_logprobs))
    by now apply has_shape2_t2_map.
  assert (E1 : get2 0 (ratio_raw_ratio per_token_logps original_logprobs) b s = r).
  { unfold ratio_raw_ratio, t_exp.
    rewrite (get2_map exp _ 0 0 B L b s Hsub Hb Hs). unfold t_sub.
    now rewrite (get2_t2_map2 Rminus _ _ 0 0 0 B L b s Hlp Ho Hb Hs). }
  assert (E3 : get2 0 (ratio_ratio per_token_logps original_logprobs clip_ratio) b s
               = clamp r 0 clip_ratio).
  { unfold ratio_ratio, t_clamp.
    now rewrite (get2_map (fun x => clamp x 0 clip_ratio) _ 0 0 B L b s Hrs Hb Hs), E1. }
  split; [exact E1|]. split; [|split; [exact E3|]].
  - unfold ratio_is_clipped, t_float, t_gt_scalar.
    rewrite (get2_map b2r _ false 0 B L b s);
      [| now apply has_shape2_t2_map | exact Hb | exact Hs].
    now rewrite (get2_map (fun v => Rltb clip_ratio v) _ 0 false B L b s Hrs Hb Hs), E1.
  - unfold ratio_loss, t_mul, t_neg.
    rewrite (get2_t2_map2 Rmult _ _ 0 0 0 B L b s); try assumption.
    + rewrite (get2_map Ropp _ 0 0 B L b s); try assumption.
      * now rewrite E3.
      * unfold ratio_ratio, t_clamp. now apply has_shape2_t2_map.
    + apply has_shape2_t2_map. unfold ratio_ratio, t_clamp. now apply has_shape2_t2_map.
Qed.

(** X23: in the ratio-policy engine with clip_ratio >= 0, the clipped
    indicator is 1 exactly at the positions where the clamp changes the
    ratio (raw ratio above clip_ratio) and 0 elsewhere; the clamped
    ratio lies in [0, clip_ratio], and the per-token loss is bounded in
    absolute value by clip_ratio * |advantage|. *)
Theorem ratio_engine_per_token (B L : nat)
    (per_token_logps original_logprobs advantages : tensor2)
    (clip_ratio : R) (b s : nat) :
  has_shape2 B L per_token_logps -> has_shape2 B L original_logprobs ->
  has_shape2 B L advantages -> (b < B)%nat -> (s < L)%nat ->
  0 <= clip_ratio ->
  let A := get2 0 advantages b s in
  let raw := get2 0 (ratio_raw_ratio per_token_logps original_logprobs) b s in
  let is_clipped :=
    get2 0 (ratio_is_clipped per_token_logps original_logprobs clip_ratio) b s in
  let ratio := get2 0 (ratio_ratio per_token_logps original_logprobs clip_ratio) b s in
  let loss :=
    get2 0 (ratio_loss per_token_logps original_logprobs advantages clip_ratio) b s in
  (is_clipped = 1 <-> ratio <> raw)
  /\ (is_clipped = 0 <-> ratio = raw)
  /\ 0 <= ratio <= clip_ratio
  /\ loss = - ratio * A
  /\ Rabs loss <= clip_ratio * Rabs A.
Proof.
  intros Hlp Ho Ha Hb Hs Hcr A raw is_clipped ratio loss.
  destruct (ratio_locals_at B L per_token_logps original_logprobs advantages
              clip_ratio b s Hlp Ho Ha Hb Hs) as (E1 & E2 & E3 & E4).
  unfold raw, is_clipped, ratio, loss. rewrite E1, E2, E3, E4. fold A.
  set (r := exp (get2 0 per_token_logps b s - get2 0 original_logprobs b s)).
  assert (Hr : 0 < r) by apply exp_pos.
  assert (Hc : 0 <= clamp r 0 clip_ratio <= clip_ratio) by (clamp_cases; lra).
  split; [|split; [|split; [exact Hc | split; [reflexivity|]]]].
  - rewrite b2r_Rltb_one. split; intros H; clamp_cases; lra.
  - rewrite b2r_Rltb_zero. split; intros H; clamp_cases; lra.
  - rewrite Rabs_mult, Rabs_Ropp, (Rabs_right (clamp r 0 clip_ratio)) by lra.
    apply Rmult_le_compat_r; [apply Rabs_pos | lra].
Qed.

Lemma ratio_engine_per_token_witness :
  0 <= 5
  /\ 0 <= get2 0 (ratio_ratio [[0]] [[-2]] 5) 0 0 <= 5
  /\ Rabs (get2 0 (ratio_loss [[0]] [[-2]] [[7]] 5) 0 0) <= 5 * Rabs (get2 0 [[7]] 0 0).
Proof.
  assert (S : forall x : R, has_shape2 1 1 [[x]])
    by (intros x; split; [reflexivity | repeat constructor]).
  assert (H5 : 0 <= 5) by lra.
  destruct (ratio_engine_per_token 1 1 [[0]] [[-2]] [[7]] 5 0 0
              (S 0) (S (-2)) (S 7) (le_n 1) (le_n 1) H5) as (_ & _ & Hr & _ & Hl).
  split; [exact H5|]. split; [exact Hr | exact Hl].
Defined.

(* ================================================================== *)
(** * Engines on a loss mask without valid positions *)
(* ================================================================== *)

Lemma valid_count_all_zero (loss_mask : int_tensor2) :
  Forall (Forall (fun z => z = 0%Z)) loss_mask -> valid_count loss_mask = 0%nat.
Proof.
  unfold valid_count, count_true, t_bool, t2_map.
  induction 1 as [|row m Hrow _ IH]; simpl; [reflexivity|].
  rewrite filter_app, length_app, IH, Nat.add_0_r.
  induction Hrow as [|z row Hz _ IHr]; simpl; [reflexivity|].
  subst z. simpl. exact IHr.
Qed.

Lemma masked_sum_all_zero (tensor : tensor2) (loss_mask : int_tensor2) :
  Forall (Forall (fun z => z = 0%Z)) loss_mask ->
  _masked_sum tensor (IntMask loss_mask) = 0.
Proof.
  intros H. unfold _masked_sum. apply t_sum_mul_zero_r. simpl.
  unfold t2_map. rewrite Forall_map. eapply Forall_impl; [|exact H].
  intros row Hrow. rewrite Forall_map. eapply Forall_impl; [|exact Hrow].
  intros e ->. reflexivity.
Qed.

(** X24: on a loss mask without a valid position the two engines differ
    by the entropy-selection percentage.  Below 1 both raise (the
    selector has no entropy to rank, if the extractor has not raised
    before); at 1 or above, on well-shaped inputs with a non-empty batch
    and ids in range, both return loss 0, ratio 0 and clipped-token
    count 0. *)
Theorem engines_on_empty_mask (B L V : nat)
    (dt : dtype) (shifted_logits : tensor3) (input_ids : int_tensor2)
    (advantages original_logprobs : tensor2) (loss_mask : int_tensor2)
    (temperature epsilon_low epsilon_high clip_ratio p : R) :
  Forall (Forall (fun z => z = 0%Z)) loss_mask ->
  (p < 1 ->
   raises (grpo_loss_clip dt shifted_logits input_ids advantages original_logprobs
             loss_mask temperature epsilon_low epsilon_high clip_ratio p)
   /\ raises (grpo_loss_ratio dt shifted_logits input_ids advantages original_logprobs
                loss_mask temperature clip_ratio p))
  /\ (1 <= p ->
      has_shape3 B L V shifted_logits -> has_shape2 B L input_ids ->
      ids_in_range V input_ids -> (1 <= B)%nat ->
      grpo_loss_clip dt shifted_logits input_ids advantages original_logprobs
        loss_mask temperature epsilon_low epsilon_high clip_ratio p = Ok (0, 0, 0)
      /\ grpo_loss_ratio dt shifted_logits input_ids advantages original_logprobs
           loss_mask temperature clip_ratio p = Ok (0, 0, 0)).
Proof.
  intros Hzero. split.
  - intros Hp.
    destruct (select_top_no_valid
                (position_entropy (t3_div_scalar shifted_logits temperature))
                loss_mask p (valid_count_all_zero loss_mask Hzero)) as [e He].
    rewrite <- highest_entropy_mask_select_top in He.
    rewrite grpo_loss_clip_unfold, grpo_loss_ratio_unfold,
      final_mask_below_one, He by exact Hp.
    destruct (selective_log_softmax dt _ input_ids) as [lp|e'];
      split; eexists; reflexivity.
  - intros Hp Hl Hi Hids HB.
    destruct (extractor_returns B L V dt _ input_ids
                (has_shape3_div B L V shifted_logits temperature Hl) Hi Hids HB)
      as (lp & Hlp).
    rewrite grpo_loss_clip_unfold, grpo_loss_ratio_unfold, Hlp,
      final_mask_skip by exact Hp.
    simpl bind. rewrite !(masked_sum_all_zero _ loss_mask Hzero). split; reflexivity.
Qed.

Lemma engines_on_empty_mask_witness :
  Forall (Forall (fun z => z = 0%Z)) [[0%Z]]
  /\ raises (grpo_loss_clip float32 [[[0]]] [[0%Z]] [[1]] [[0]] [[0%Z]] 1
               (/ 5) (/ 5) 5 (/ 2))
  /\ grpo_loss_clip float32 [[[0]]] [[0%Z]] [[1]] [[0]] [[0%Z]] 1 (/ 5) (/ 5) 5 1
     = Ok (0, 0, 0).
Proof.
  assert (Hz : Forall (Forall (fun z => z = 0%Z)) [[0%Z]]) by (repeat constructor).
  assert (H1 : has_shape3 1 1 1 [[[0]]]) by (split; [reflexivity | repeat constructor]).
  assert (H2 : has_shape2 1 1 [[0%Z]]) by (split; [reflexivity | repeat constructor]).
  assert (H4 : ids_in_range 1 [[0%Z]]) by (repeat constructor; simpl; lia).
  split; [exact Hz|]. split.
  - assert (Hp : / 2 < 1) by lra.
    exact (proj1 (proj1 (engines_on_empty_mask 1 1 1 float32 [[[0]]] [[0%Z]] [[1]] [[0]]
                           [[0%Z]] 1 (/ 5) (/ 5) 5 (/ 2) Hz) Hp)).
  - assert (Hp : 1 <= 1) by lra.
    exact (proj1 (proj2 (engines_on_empty_mask 1 1 1 float32 [[[0]]] [[0%Z]] [[1]] [[0]]
                           [[0%Z]] 1 (/ 5) (/ 5) 5 1 Hz) Hp H1 H2 H4 (le_n 1))).
Defined.

(* ================================================================== *)
(** * Engines: the clipped-token count across percentages *)
(* ================================================================== *)

Lemma valid_count_batch (B L : nat) (loss_mask : int_tensor2) :
  has_shape2 B L loss_mask -> (1 <= valid_count loss_mask)%nat -> (1 <= B)%nat.
Proof.
  intros [HB _] HN. destruct loss_mask as [|row m]; [|simpl in HB; lia].
  unfold valid_count, count_true in HN. simpl in HN. lia.
Qed.

(** On at least one valid position the mask the engines reduce over
    exists for every percentage. *)
Lemma final_mask_returns (B L V : nat) (scaled_logits : tensor3)
    (loss_mask : int_tensor2) (p : R) :
  has_shape3 B L V scaled_logits -> has_shape2 B L loss_mask ->
  (1 <= valid_count loss_mask)%nat ->
  exists fm, final_mask scaled_logits loss_mask p = Ok fm.
Proof.
  intros Hl Hm HN. destruct (Rlt_dec p 1) as [Hp | Hp].
  - rewrite final_mask_below_one by exact Hp.
    rewrite highest_entropy_mask_select_top.
    destruct (select_top_returns B L _ loss_mask p
                (has_shape3_position_entropy B L V _ Hl) Hm HN Hp) as (m & ->).
    simpl. eauto.
  - rewrite final_mask_skip by lra. eauto.
Qed.

(** C5 (the code departs from the claim on a loss mask without a valid
    position): in both engines the clipped-token count is the masked sum
    of the per-token clipped indicator over the loss mask passed in, not
    over the mask narrowed by entropy selection.  On well-shaped inputs
    with token ids in range and at least one valid position both engines
    return for every percentage, and the count they return is that one
    sum, the same for every percentage.  On a loss mask without a valid
    position the count is not identical for every percentage: at
    percentage 1 both engines return the count 0, at percentage 1/2
    both raise and return no count. *)
Theorem clipped_count_frame (B L V : nat)
    (dt : dtype) (shifted_logits : tensor3) (input_ids : int_tensor2)
    (advantages original_logprobs : tensor2) (loss_mask : int_tensor2)
    (temperature epsilon_low epsilon_high clip_ratio : R) :
  (engine_shapes B L V shifted_logits input_ids advantages original_logprobs
     loss_mask ->
   ids_in_range V input_ids -> (1 <= valid_count loss_mask)%nat ->
   exists logps,
     selective_log_softmax dt (t3_div_scalar shifted_logits temperature) input_ids
     = Ok logps
     /\ forall p,
          (exists loss ratio,
              grpo_loss_clip dt shifted_logits input_ids advantages
                original_logprobs loss_mask temperature epsilon_low epsilon_high
                clip_ratio p
              = Ok (loss, ratio,
                    _masked_sum
                      (clip_is_clipped logps original_logprobs advantages
                         epsilon_low epsilon_high clip_ratio) (IntMask loss_mask)))
          /\ (exists loss ratio,
              grpo_loss_ratio dt shifted_logits input_ids advantages
                original_logprobs loss_mask temperature clip_ratio p
              = Ok (loss, ratio,
                    _masked_sum
                      (ratio_is_clipped logps original_logprobs clip_ratio)
                      (IntMask loss_mask))))
  /\ (grpo_loss_clip float32 [[[0]]] [[0%Z]] [[1]] [[0]] [[0%Z]] 1 (/ 5) (/ 5) 5 1
      = Ok (0, 0, 0)
      /\ raises (grpo_loss_clip float32 [[[0]]] [[0%Z]] [[1]] [[0]] [[0%Z]] 1
                   (/ 5) (/ 5) 5 (/ 2))
      /\ grpo_loss_ratio float32 [[[0]]] [[0%Z]] [[1]] [[0]] [[0%Z]] 1 5 1
         = Ok (0, 0, 0)
      /\ raises (grpo_loss_ratio float32 [[[0]]] [[0%Z]] [[1]] [[0]] [[0%Z]] 1
                   5 (/ 2))).
Proof.
  split.
  - intros (Hl & Hi & _ & _ & Hm) Hids HN.
    pose proof (valid_count_batch B L loss_mask Hm HN) as HB.
    pose proof (has_shape3_div B L V shifted_logits temperature Hl) as Hl'.
    destruct (extractor_returns B L V dt _ input_ids Hl' Hi Hids HB) as (lp & Hlp).
    exists lp. split; [exact Hlp|]. intros p.
    destruct (final_mask_returns B L V _ loss_mask p Hl' Hm HN) as (fm & Hfm).
    rewrite grpo_loss_clip_unfold, grpo_loss_ratio_unfold, Hlp, Hfm. simpl.
    split; eexists; eexists; reflexivity.
  - assert (Hz : Forall (Forall (fun z => z = 0%Z)) [[0%Z]]) by (repeat constructor).
    assert (Hlt : / 2 < 1) by lra.
    assert (Hge : 1 <= 1) by lra.
    destruct (select_top_no_valid
                (position_entropy (t3_div_scalar [[[0]]] 1)) [[0%Z]] (/ 2)
                (valid_count_all_zero _ Hz)) as [e He].
    rewrite <- highest_entropy_mask_select_top in He.
    rewrite !grpo_loss_clip_unfold, !grpo_loss_ratio_unfold, extractor_single_zero,
      (final_mask_below_one _ _ _ Hlt), (final_mask_skip _ _ _ Hge), He.
    simpl bind. rewrite !(masked_sum_all_zero _ [[0%Z]] Hz).
    split; [reflexivity|]. split; [eexists; reflexivity|].
    split; [reflexivity | eexists; reflexivity].
Qed.

Lemma clipped_count_frame_witness :
  engine_shapes 1 1 1 [[[0]]] [[0%Z]] [[1]] [[0]] [[1%Z]]
  /\ ids_in_range 1 [[0%Z]] /\ (1 <= valid_count [[1%Z]])%nat
  /\ (exists c,
        (exists l r,
            grpo_loss_clip float32 [[[0]]] [[0%Z]] [[1]] [[0]] [[1%Z]] 1
              (/ 5) (/ 5) 5 1 = Ok (l, r, c))
        /\ (exists l r,
            grpo_loss_clip float32 [[[0]]] [[0%Z]] [[1]] [[0]] [[1%Z]] 1
              (/ 5) (/ 5) 5 (/ 2) = Ok (l, r, c)))
  /\ (exists c,
        (exists l r,
            grpo_loss_ratio float32 [[[0]]] [[0%Z]] [[1]] [[0]] [[1%Z]] 1 5 1
            = Ok (l, r, c))
        /\ (exists l r,
            grpo_loss_ratio float32 [[[0]]] [[0%Z]] [[1]] [[0]] [[1%Z]] 1 5 (/ 2)
            = Ok (l, r, c))).
Proof.
  assert (Hs : engine_shapes 1 1 1 [[[0]]] [[0%Z]] [[1]] [[0]] [[1%Z]]).
  { unfold engine_shapes, has_shape3, has_shape2.
    repeat split; repeat constructor. }
  assert (Hids : ids_in_range 1 [[0%Z]]) by (repeat constructor; simpl; lia).
  assert (HN : (1 <= valid_count [[1%Z]])%nat) by apply le_n.
  split; [exact Hs|]. split; [exact Hids|]. split; [exact HN|].
  destruct (proj1 (clipped_count_frame 1 1 1 float32 [[[0]]] [[0%Z]] [[1]] [[0]]
                     [[1%Z]] 1 (/ 5) (/ 5) 5) Hs Hids HN) as (lp & _ & Hp).
  split.
  - eexists. split; [exact (proj1 (Hp 1)) | exact (proj1 (Hp (/ 2)))].
  - eexists. split; [exact (proj2 (Hp 1)) | exact (proj2 (Hp (/ 2)))].
Defined.

(* ================================================================== *)
(** * Engines: the clipped-token count and the scale of the advantages *)
(* ================================================================== *)

Lemma t_float_range (t : bool_tensor2) :
  all_entries (fun e => 0 <= e <= 1) (t_float t).
Proof.
  unfold all_entries, t_float, t2_map. rewrite Forall_map.
  apply Forall_forall. intros row _. rewrite Forall_map.
  apply Forall_forall. intros [] _; simpl; lra.
Qed.

(** X25: with a loss mask of zeros and ones, the clipped-token count
    either engine returns lies between 0 and the number of valid
    positions. *)
Theorem clipped_count_bounds
    (dt : dtype) (shifted_logits : tensor3) (input_ids : int_tensor2)
    (advantages original_logprobs : tensor2) (loss_mask : int_tensor2)
    (temperature epsilon_low epsilon_high clip_ratio p loss ratio count : R) :
  binary_mask loss_mask ->
  (grpo_loss_clip dt shifted_logits input_ids advantages original_logprobs loss_mask
     temperature epsilon_low epsilon_high clip_ratio p = Ok (loss, ratio, count) ->
   0 <= count <= INR (valid_count loss_mask))
  /\ (grpo_loss_ratio dt shifted_logits input_ids advantages original_logprobs loss_mask
        temperature clip_ratio p = Ok (loss, ratio, count) ->
      0 <= count <= INR (valid_count loss_mask)).
Proof.
  intros Hm. split; intros H.
  - rewrite grpo_loss_clip_unfold in H. apply engine_result_inv in H.
    destruct H as (lp & fm & _ & _ & _ & _ & ->).
    pose proof (masked_sum_bounds 1 _ loss_mask Rle_0_1
                  (t_float_range
                     (t_lt (clip_per_token_loss1 lp original_logprobs advantages clip_ratio)
                        (clip_per_token_loss2 lp original_logprobs advantages
                           epsilon_low epsilon_high clip_ratio))) Hm) as Hb.
    unfold clip_is_clipped. lra.
  - rewrite grpo_loss_ratio_unfold in H. apply engine_result_inv in H.
    destruct H as (lp & fm & _ & _ & _ & _ & ->).
    pose proof (masked_sum_bounds 1 _ loss_mask Rle_0_1
                  (t_float_range
                     (t_gt_scalar (ratio_raw_ratio lp original_logprobs) clip_ratio))
                  Hm) as Hb.
    unfold ratio_is_clipped. lra.
Qed.

Lemma clipped_count_bounds_witness :
  binary_mask [[1%Z]]
  /\ exists loss ratio count,
       grpo_loss_clip float32 [[[0]]] [[0%Z]] [[1]] [[0]] [[1%Z]] 1 (/ 5) (/ 5) 5 1
       = Ok (loss, ratio, count)
       /\ 0 <= count <= INR (valid_count [[1%Z]]).
Proof.
  assert (Hm : binary_mask [[1%Z]]).
  { constructor; [|constructor]. constructor; [right; reflexivity | constructor]. }
  assert (H1 : has_shape3 1 1 1 [[[0]]]) by (split; [reflexivity | repeat constructor]).
  assert (H2 : has_shape2 1 1 [[0%Z]]) by (split; [reflexivity | repeat constructor]).
  assert (H3 : has_shape2 1 1 [[1%Z]]) by (split; [reflexivity | repeat constructor]).
  assert (H4 : ids_in_range 1 [[0%Z]]) by (repeat constructor; simpl; lia).
  destruct (engines_succeed 1 1 1 float32 [[[0]]] [[0%Z]] [[1]] [[0]] [[1%Z]]
              1 (/ 5) (/ 5) 5 1 H1 H2 H3 H4 (le_n 1)) as [[[[l r] c] E] _];
    [left; lra|].
  split; [exact Hm|]. exists l, r, c. split; [exact E|].
  exact (proj1 (clipped_count_bounds float32 [[[0]]] [[0%Z]] [[1]] [[0]] [[1%Z]]
                  1 (/ 5) (/ 5) 5 1 l r c Hm) E).
Defined.

Lemma get2_t_scale (B L : nat) (c : R) (x : tensor2) (b s : nat) :
  has_shape2 B L x -> (b < B)%nat -> (s < L)%nat ->
  get2 0 (t_scale c x) b s = c * get2 0 x b s.
Proof.
  intros Hx Hb Hs. unfold t_scale.
  exact (get2_map (Rmult c) x 0 0 B L b s Hx Hb Hs).
Qed.

Lemma Rltb_scale (c x y : R) : 0 < c -> Rltb (c * x) (c * y) = Rltb x y.
Proof.
  intros Hc. unfold Rltb.
  destruct (Rlt_dec (c * x) (c * y)), (Rlt_dec x y); try reflexivity; exfalso; nra.
Qed.

Lemma clip_locals_scale_advantages (B L : nat)
    (lp original_logprobs advantages : tensor2)
    (epsilon_low epsilon_high clip_ratio c : R) :
  has_shape2 B L lp -> has_shape2 B L original_logprobs ->
  has_shape2 B L advantages -> 0 < c ->
  clip_per_token_loss lp original_logprobs (t_scale c advantages)
    epsilon_low epsilon_high clip_ratio
  = t_scale c (clip_per_token_loss lp original_logprobs advantages
                 epsilon_low epsilon_high clip_ratio)
  /\ clip_is_clipped lp original_logprobs (t_scale c advantages)
       epsilon_low epsilon_high clip_ratio
     = clip_is_clipped lp original_logprobs advantages
         epsilon_low epsilon_high clip_ratio.
Proof.
  intros Hlp Ho Ha Hc.
  assert (Hsa : has_shape2 B L (t_scale c advantages)) by now apply has_shape2_t2_map.
  assert (Sl : forall adv, has_shape2 B L adv ->
             has_shape2 B L (clip_per_token_loss lp original_logprobs adv
                               epsilon_low epsilon_high clip_ratio)).
  { intros adv Hadv. unfold clip_per_token_loss, t_max.
    apply has_shape2_t2_map2;
      [now apply clip_loss1_shape | now apply clip_loss2_shape]. }
  split; apply (tensor2_ext B L).
  - now apply Sl.
  - apply has_shape2_t2_map. now apply Sl.
  - intros b s Hb Hs.
    rewrite (get2_t_scale B L c _ b s (Sl _ Ha) Hb Hs).
    destruct (clip_locals_at B L lp original_logprobs (t_scale c advantages)
                epsilon_low epsilon_high clip_ratio b s Hlp Ho Hsa Hb Hs)
      as (_ & _ & -> & _).
    destruct (clip_locals_at B L lp original_logprobs advantages
                epsilon_low epsilon_high clip_ratio b s Hlp Ho Ha Hb Hs)
      as (_ & _ & -> & _).
    rewrite (get2_t_scale B L c advantages b s Ha Hb Hs).
    rewrite <- RmaxRmult by lra. f_equal; ring.
  - now apply clip_is_clipped_shape.
  - now apply clip_is_clipped_shape.
  - intros b s Hb Hs.
    destruct (clip_locals_at B L lp original_logprobs (t_scale c advantages)
                epsilon_low epsilon_high clip_ratio b s Hlp Ho Hsa Hb Hs)
      as (_ & _ & _ & ->).
    destruct (clip_locals_at B L lp original_logprobs advantages
                epsilon_low epsilon_high clip_ratio b s Hlp Ho Ha Hb Hs)
      as (_ & _ & _ & ->).
    rewrite (get2_t_scale B L c advantages b s Ha Hb Hs). f_equal.
    etransitivity; [|apply (Rltb_scale c _ _ Hc)]. f_equal; ring.
Qed.

Lemma ratio_locals_scale_advantages (B L : nat)
    (lp original_logprobs advantages : tensor2) (clip_ratio c : R) :
  has_shape2 B L lp -> has_shape2 B L original_logprobs ->
  has_shape2 B L advantages ->
  ratio_loss lp original_logprobs (t_scale c advantages) clip_ratio
  = t_scale c (ratio_loss lp original_logprobs advantages clip_ratio).
Proof.
  intros Hlp Ho Ha.
  assert (Hsa : has_shape2 B L (t_scale c advantages)) by now apply has_shape2_t2_map.
  assert (Sl : forall adv, has_shape2 B L adv ->
             has_shape2 B L (ratio_loss lp original_logprobs adv clip_ratio)).
  { intros adv Hadv. unfold ratio_loss, t_mul, t_neg, ratio_ratio, t_clamp,
      ratio_raw_ratio, t_exp, t_sub.
    apply has_shape2_t2_map2; [|exact Hadv].
    now apply has_shape2_t2_map, has_shape2_t2_map, has_shape2_t2_map,
      has_shape2_t2_map2. }
  apply (tensor2_ext B L).
  - now apply Sl.
  - apply has_shape2_t2_map. now apply Sl.
  - intros b s Hb Hs.
    rewrite (get2_t_scale B L c _ b s (Sl _ Ha) Hb Hs).
    destruct (ratio_locals_at B L lp original_logprobs (t_scale c advantages)
                clip_ratio b s Hlp Ho Hsa Hb Hs) as (_ & _ & _ & ->).
    destruct (ratio_locals_at B L lp original_logprobs advantages
                clip_ratio b s Hlp Ho Ha Hb Hs) as (_ & _ & _ & ->).
    rewrite (get2_t_scale B L c advantages b s Ha Hb Hs). ring.
Qed.

(** X26: multiplying all advantages by a constant c > 0 multiplies the
    loss either engine returns by c and leaves the ratio statistic and
    the clipped-token count as they are (the selection does not look at
    the advantages). *)
Theorem engines_scale_with_advantages (B L V : nat)
    (dt : dtype) (shifted_logits : tensor3) (input_ids : int_tensor2)
    (advantages original_logprobs : tensor2) (loss_mask : int_tensor2)
    (temperature epsilon_low epsilon_high clip_ratio p c loss ratio count : R) :
  has_shape3 B L V shifted_logits -> has_shape2 B L input_ids ->
  ids_in_range V input_ids -> (1 <= B)%nat ->
  has_shape2 B L advantages -> has_shape2 B L original_logprobs ->
  0 < c ->
  (grpo_loss_clip dt shifted_logits input_ids advantages original_logprobs loss_mask
     temperature epsilon_low epsilon_high clip_ratio p = Ok (loss, ratio, count) ->
   grpo_loss_clip dt shifted_logits input_ids (t_scale c advantages)
     original_logprobs loss_mask temperature epsilon_low epsilon_high clip_ratio p
   = Ok (c * loss, ratio, count))
  /\ (grpo_loss_ratio dt shifted_logits input_ids advantages original_logprobs
        loss_mask temperature clip_ratio p = Ok (loss, ratio, count) ->
      grpo_loss_ratio dt shifted_logits input_ids (t_scale c advantages)
        original_logprobs loss_mask temperature clip_ratio p
      = Ok (c * loss, ratio, count)).
Proof.
  intros Hl Hi Hids HB Ha Ho Hc.
  pose proof (has_shape3_div B L V shifted_logits temperature Hl) as Hl'.
  pose proof (extractor_closed_form B L V dt _ input_ids Hl' Hi Hids HB) as Hlp.
  set (lp := t2_map2 token_logprob (t3_div_scalar shifted_logits temperature) input_ids)
    in Hlp.
  assert (Slp : has_shape2 B L lp).
  { apply has_shape2_t2_map2; [now apply (has_shape3_to_2 B L V) | exact Hi]. }
  split; intros H.
  - rewrite grpo_loss_clip_unfold, Hlp in H |- *.
    destruct (final_mask _ loss_mask p) as [fm|e]; simpl in H |- *; [|discriminate].
    inversion H; subst.
    destruct (clip_locals_scale_advantages B L lp original_logprobs advantages
                epsilon_low epsilon_high clip_ratio c Slp Ho Ha Hc) as [-> ->].
    unfold _masked_sum at 1. rewrite t_sum_mul_scale. reflexivity.
  - rewrite grpo_loss_ratio_unfold, Hlp in H |- *.
    destruct (final_mask _ loss_mask p) as [fm|e]; simpl in H |- *; [|discriminate].
    inversion H; subst.
    rewrite (ratio_locals_scale_advantages B L lp original_logprobs advantages
               clip_ratio c Slp Ho Ha).
    unfold _masked_sum at 1. rewrite t_sum_mul_scale. reflexivity.
Qed.

Lemma engines_scale_with_advantages_witness :
  0 < 2
  /\ exists loss ratio count,
       grpo_loss_clip float32 [[[0]]] [[0%Z]] [[1]] [[0]] [[1%Z]] 1 (/ 5) (/ 5) 5 1
       = Ok (loss, ratio, count)
       /\ grpo_loss_clip float32 [[[0]]] [[0%Z]] (t_scale 2 [[1]]) [[0]] [[1%Z]] 1
            (/ 5) (/ 5) 5 1
          = Ok (2 * loss, ratio, count).
Proof.
  assert (S : forall x : R, has_shape2 1 1 [[x]])
    by (intros x; split; [reflexivity | repeat constructor]).
  assert (H1 : has_shape3 1 1 1 [[[0]]]) by (split; [reflexivity | repeat constructor]).
  assert (H2 : has_shape2 1 1 [[0%Z]]) by (split; [reflexivity | repeat constructor]).
  assert (H3 : has_shape2 1 1 [[1%Z]]) by (split; [reflexivity | repeat constructor]).
  assert (H4 : ids_in_range 1 [[0%Z]]) by (repeat constructor; simpl; lia).
  assert (Hc : 0 < 2) by lra.
  destruct (engines_succeed 1 1 1 float32 [[[0]]] [[0%Z]] [[1]] [[0]] [[1%Z]]
              1 (/ 5) (/ 5) 5 1 H1 H2 H3 H4 (le_n 1)) as [[[[l r] n] E] _];
    [left; lra|].
  split; [exact Hc|]. exists l, r, n. split; [exact E|].
  exact (proj1 (engines_scale_with_advantages 1 1 1 float32 [[[0]]] [[0%Z]] [[1]] [[0]]
                  [[1%Z]] 1 (/ 5) (/ 5) 5 1 2 l r n H1 H2 H4 (le_n 1) (S 1) (S 0) Hc) E).
Defined.

(* ================================================================== *)
(** * Offsets of the scores *)
(* ================================================================== *)

Lemma weighted_scores_offset (c S : R) (l : list R) :
  0 < S ->
  Rsum (map2 Rmult (map (fun y => exp y / (exp c * S)) (map (fun x => x + c) l))
          (map (fun x => x + c) l))
  = Rsum (map2 Rmult (map (fun x => exp x / S) l) l) + c * (Rsum (map exp l) / S).
Proof.
  intros HS. pose proof (exp_pos c) as Hc.
  induction l as [|a l IH]; simpl; [unfold Rdiv; ring|].
  rewrite IH, exp_plus. field. split; lra.
Qed.

Lemma entropy1_offset (c : R) (v : list R) :
  entropy1 (map (fun x => x + c) v) = entropy1 v.
Proof.
  destruct v as [|a v0]; [reflexivity|].
  set (v := a :: v0).
  assert (HS : 0 < Rsum (map exp v)) by (apply Rsum_exp_pos; discriminate).
  unfold entropy1, logsumexp1, softmax1.
  rewrite Rsum_exp_offset, (weighted_scores_offset c _ v HS).
  rewrite ln_mult, ln_exp; [| apply exp_pos | exact HS].
  field. lra.
Qed.

Lemma position_entropy_offset (B L V : nat) (logits : tensor3) (offsets : tensor2) :
  has_shape3 B L V logits -> has_shape2 B L offsets ->
  position_entropy (t3_offset logits offsets) = position_entropy logits.
Proof.
  intros Hl Ho.
  pose proof (has_shape3_offset B L V logits offsets Hl Ho) as Hl'.
  apply (tensor2_ext B L).
  - now apply (has_shape3_position_entropy B L V).
  - now apply (has_shape3_position_entropy B L V).
  - intros b s Hb Hs.
    rewrite (get2_position_entropy B L V _ b s Hl' Hb Hs).
    rewrite (get2_position_entropy B L V _ b s Hl Hb Hs).
    rewrite (get3_offset B L V logits offsets b s Hl Ho Hb Hs).
    apply entropy1_offset.
Qed.

Lemma map2_map_both {A A' B B' C : Type} (g : A' -> B' -> C) (f : A -> A') (h : B -> B')
    (l : list A) (l' : list B) :
  map2 g (map f l) (map h l') = map2 (fun a b => g (f a) (h b)) l l'.
Proof.
  revert l'; induction l as [|a l IH]; intros [|b l']; simpl; try reflexivity.
  now rewrite IH.
Qed.

Lemma map_map2 {A B C D : Type} (f : C -> D) (g : A -> B -> C)
    (l : list A) (l' : list B) :
  map f (map2 g l l') = map2 (fun a b => f (g a b)) l l'.
Proof.
  revert l'; induction l as [|a l IH]; intros [|b l']; simpl; try reflexivity.
  now rewrite IH.
Qed.

Lemma map2_ext {A B C : Type} (f g : A -> B -> C) (l : list A) (l' : list B) :
  (forall a b, f a b = g a b) -> map2 f l l' = map2 g l l'.
Proof.
  intros H. revert l'; induction l as [|a l IH]; intros [|b l']; simpl;
    try reflexivity.
  now rewrite H, IH.
Qed.

(** Dividing by the temperature turns an offset c into the offset c / T. *)
Lemma div_scalar_offset (logits : tensor3) (offsets : tensor2) (T : R) :
  t3_div_scalar (t3_offset logits offsets) T
  = t3_offset (t3_div_scalar logits T) (t2_map (fun c => c / T) offsets).
Proof.
  unfold t3_div_scalar, t3_offset, t2_map, t2_map2.
  rewrite map_map2, map2_map_both. apply map2_ext. intros row orow.
  rewrite map_map2, map2_map_both. apply map2_ext. intros v c.
  rewrite !map_map. apply map_ext. intros x. unfold Rdiv. ring.
Qed.

(** X27: adding, at each position, one constant to all the scores of
    that position changes neither the value of [compute_entropy] (for a
    nonzero temperature) nor the result of the selector. *)
Theorem entropy_offset_invariant (B L V : nat) (logits : tensor3) (offsets : tensor2)
    (loss_mask : int_tensor2) (temperature p : R) :
  has_shape3 B L V logits -> has_shape2 B L offsets -> temperature <> 0 ->
  compute_entropy (t3_offset logits offsets) loss_mask temperature
  = compute_entropy logits loss_mask temperature
  /\ highest_entropy_mask (t3_offset logits offsets) loss_mask p
     = highest_entropy_mask logits loss_mask p.
Proof.
  intros Hl Ho _. split.
  - unfold compute_entropy. rewrite div_scalar_offset.
    rewrite (position_entropy_offset B L V); [reflexivity | |].
    + now apply has_shape3_div.
    + now apply has_shape2_t2_map.
  - rewrite !highest_entropy_mask_select_top.
    now rewrite (position_entropy_offset B L V logits offsets Hl Ho).
Qed.

Lemma entropy_offset_invariant_witness :
  has_shape3 1 2 3 example_scores /\ has_shape2 1 2 [[5; -1]] /\ 2 <> 0
  /\ highest_entropy_mask (t3_offset example_scores [[5; -1]]) example_mask (/ 2)
     = Ok [[false; true]].
Proof.
  destruct example_shapes as (H1 & _ & _).
  assert (H2 : has_shape2 1 2 [[5; -1]]) by (split; [reflexivity | repeat constructor]).
  assert (HT : 2 <> 0) by lra.
  split; [exact H1|]. split; [exact H2|]. split; [exact HT|].
  rewrite (proj2 (entropy_offset_invariant 1 2 3 example_scores [[5; -1]] example_mask
                    2 (/ 2) H1 H2 HT)).
  apply example_selection. lra.
Defined.

Lemma token_logprob_tensor_offset (B L V : nat) (logits : tensor3) (offsets : tensor2)
    (index : int_tensor2) :
  has_shape3 B L V logits -> has_shape2 B L offsets -> has_shape2 B L index ->
  ids_in_range V index ->
  t2_map2 token_logprob (t3_offset logits offsets) index
  = t2_map2 token_logprob logits index.
Proof.
  intros Hl Ho Hi Hids.
  pose proof (has_shape3_offset B L V logits offsets Hl Ho) as Hl'.
  apply (tensor2_ext B L).
  - apply has_shape2_t2_map2; [now apply (has_shape3_to_2 B L V) | exact Hi].
  - apply has_shape2_t2_map2; [now apply (has_shape3_to_2 B L V) | exact Hi].
  - intros b s Hb Hs.
    rewrite (get2_token_logprob B L V _ index b s Hl' Hi Hb Hs).
    rewrite (get2_token_logprob B L V logits index b s Hl Hi Hb Hs).
    rewrite (get3_offset B L V logits offsets b s Hl Ho Hb Hs).
    apply token_logprob_offset.
    rewrite (has_shape3_get3_length B L V logits b s Hl Hb Hs).
    now apply (ids_in_range_get2 B L).
Qed.

(** X28: both engines are invariant under per-position offsets of the
    scores: adding, at each position, one constant to all the scores of
    that position changes none of the three outputs (nor whether the
    call raises), for every nonzero temperature and every percentage. *)
Theorem engines_offset_invariant (B L V : nat)
    (dt : dtype) (shifted_logits : tensor3) (offsets : tensor2)
    (input_ids : int_tensor2) (advantages original_logprobs : tensor2)
    (loss_mask : int_tensor2)
    (temperature epsilon_low epsilon_high clip_ratio p : R) :
  has_shape3 B L V shifted_logits -> has_shape2 B L offsets ->
  has_shape2 B L input_ids -> ids_in_range V input_ids -> (1 <= B)%nat ->
  temperature <> 0 ->
  grpo_loss_clip dt (t3_offset shifted_logits offsets) input_ids advantages
    original_logprobs loss_mask temperature epsilon_low epsilon_high clip_ratio p
  = grpo_loss_clip dt shifted_logits input_ids advantages
      original_logprobs loss_mask temperature epsilon_low epsilon_high clip_ratio p
  /\ grpo_loss_ratio dt (t3_offset shifted_logits offsets) input_ids advantages
       original_logprobs loss_mask temperature clip_ratio p
     = grpo_loss_ratio dt shifted_logits input_ids advantages
         original_logprobs loss_mask temperature clip_ratio p.
Proof.
  intros Hl Ho Hi Hids HB _.
  pose proof (has_shape3_div B L V shifted_logits temperature Hl) as Hl'.
  assert (Ho' : has_shape2 B L (t2_map (fun c => c / temperature) offsets))
    by now apply has_shape2_t2_map.
  assert (Hx : selective_log_softmax dt
                 (t3_div_scalar (t3_offset shifted_logits offsets) temperature)
                 input_ids
               = selective_log_softmax dt (t3_div_scalar shifted_logits temperature)
                   input_ids).
  { rewrite div_scalar_offset.
    rewrite (extractor_closed_form B L V dt _ input_ids
               (has_shape3_offset B L V _ _ Hl' Ho') Hi Hids HB).
    rewrite (extractor_closed_form B L V dt _ input_ids Hl' Hi Hids HB).
    f_equal. now apply (token_logprob_tensor_offset B L V). }
  assert (Hf : final_mask (t3_div_scalar (t3_offset shifted_logits offsets) temperature)
                 loss_mask p
               = final_mask (t3_div_scalar shifted_logits temperature) loss_mask p).
  { unfold final_mask. rewrite div_scalar_offset, !highest_entropy_mask_select_top.
    now rewrite (position_entropy_offset B L V _ _ Hl' Ho'). }
  rewrite !grpo_loss_clip_unfold, !grpo_loss_ratio_unfold, Hx, Hf. split; reflexivity.
Qed.

Lemma engines_offset_invariant_witness :
  1 <> 0
  /\ grpo_loss_ratio float32 (t3_offset [[[0]]] [[3]]) [[0%Z]] [[7]] [[-2]] [[1%Z]] 1 5 1
     = Ok (- 5 * 7, 5, 1).
Proof.
  assert (S : forall x : R, has_shape2 1 1 [[x]])
    by (intros x; split; [reflexivity | repeat constructor]).
  assert (H1 : has_shape3 1 1 1 [[[0]]]) by (split; [reflexivity | repeat constructor]).
  assert (H2 : has_shape2 1 1 [[0%Z]]) by (split; [reflexivity | repeat constructor]).
  assert (H4 : ids_in_range 1 [[0%Z]]) by (repeat constructor; simpl; lia).
  assert (HT : 1 <> 0) by lra.
  split; [exact HT|].
  rewrite (proj2 (engines_offset_invariant 1 1 1 float32 [[[0]]] [[3]] [[0%Z]] [[7]]
                    [[-2]] [[1%Z]] 1 (/ 5) (/ 5) 5 1 H1 (S 3) H2 H4 (le_n 1) HT)).
  rewrite grpo_loss_ratio_unfold, extractor_single_zero, final_mask_skip by lra.
  simpl bind.
  destruct (ratio_locals_at 1 1 [[0]] [[-2]] [[7]] 5 0 0 (S 0) (S (-2)) (S 7)
              (le_n 1) (le_n 1)) as (_ & E2 & E3 & E4).
  assert (He : exp (get2 0 [[0]] 0 0 - get2 0 [[-2]] 0 0) = exp 2)
    by (f_equal; unfold get2; simpl; lra).
  rewrite He in E2, E3, E4. pose proof exp_2_gt_5 as H5.
  rewrite (clamp_above (exp 2) 5) in E3, E4 by lra.
  rewrite (proj2 (Rltb_true 5 (exp 2)) H5) in E2.
  rewrite !masked_sum_single, E2, E3, E4.
  - unfold get2. simpl. reflexivity.
  - unfold ratio_is_clipped, t_float, t_gt_scalar, ratio_raw_ratio, t_exp, t_sub.
    now apply has_shape2_t2_map, has_shape2_t2_map, has_shape2_t2_map,
      has_shape2_t2_map2.
  - unfold ratio_ratio, t_clamp, ratio_raw_ratio, t_exp, t_sub.
    now apply has_shape2_t2_map, has_shape2_t2_map, has_shape2_t2_map2.
  - unfold ratio_loss, t_mul, t_neg, ratio_ratio, t_clamp, ratio_raw_ratio, t_exp, t_sub.
    apply has_shape2_t2_map2; [|apply S].
    now apply has_shape2_t2_map, has_shape2_t2_map, has_shape2_t2_map,
      has_shape2_t2_map2.
Defined.
